(** * HLS bridge: the controller (HLSManager), the converter module
      (rtp-to-hls) and the session description synthesizer (createSdpString)

    The TypeScript sources are embedded as follows.

    - The mutable fields of the [HLSManager] singleton and the module-level
      variables of [rtp-to-hls.ts] form one record, [store].
    - An [async] function is a value of type [prog]: a finite tree of reads and
      writes of the store, of [await] points and of calls to other [async]
      functions.  [await] is the only place where a function gives up control.
    - The Node.js event loop is a transition relation on [world]: a FIFO queue
      of ready continuations (the microtask queue), the set of continuations
      blocked on something external (a timer, a request to the media router, a
      pending promise), and the store.  An external event (a macrotask) is only
      processed when the microtask queue is empty. *)

From Stdlib Require Import List Bool Arith NArith ZArith Lia String Ascii DecimalString.
From Stdlib Require Import Permutation.
Import ListNotations.


(** ** Identifiers and the store *)

Inductive Kind : Type := video | audio.

Definition Kind_eqb (a b : Kind) : bool :=
  match a, b with
  | video, video | audio, audio => true
  | _, _ => false
  end.

(** What the program prints or asks of its collaborators, in order. *)
Inductive call : Type :=
| CTryStart                       (* tryStartConverter entered *)
| CNotStarting                    (* "Not starting converter" *)
| CStartInProgress                (* "Converter start already in progress" *)
| CStarting                       (* "Starting converter..." *)
| CStarted                        (* "Converter started successfully" *)
| CStartFailed                    (* "Failed to start converter" *)
| CStopConverter                  (* "Stopping converter" *)
| CForceStop                      (* "Force stopping converter" *)
| CStopHls                        (* stopHlsConverter entered *)
| CStopHlsDone                    (* "Converter stopped and resources cleaned up" *)
| CStartHls                       (* "Starting RTP to HLS converter..." *)
| CKill (p : nat)                 (* ffmpegProcess.kill() *)
| CSpawn (p : nat)                (* spawn("ffmpeg", ...) *)
| CCloseTransport (t : nat)
| CCloseConsumer (c : nat)
| CWriteSdp
| CSetTimer (t : nat)
| CClearTimer (t : nat).

(** Life of a transcoder subprocess as the operating system sees it. *)
Inductive pstatus : Type :=
| Alive        (* spawned, no signal sent *)
| Signalled    (* kill() was called, the process has not exited yet *)
| Exited.

Record store : Type := mkStore {
  (* fields of HLSManager *)
  isConverterRunning : bool;
  videoProducer : option nat;
  audioProducer : option nat;
  converterStartPromise : option nat;
  restartTimeout : option nat;
  (* module variables of rtp-to-hls.ts *)
  ffmpegProcess : option nat;
  hlsTransports_video : option nat;
  hlsTransports_audio : option nat;
  hlsConsumers_video : option nat;
  hlsConsumers_audio : option nat;
  (* the runtime and the outside world *)
  timers : list nat;                  (* debounce timers armed and not fired *)
  observers : list (Kind * nat);      (* producer.on("transportclose", ...) *)
  procs : list (nat * pstatus);       (* every subprocess ever spawned *)
  fresh : nat;                        (* next unused identifier *)
  spawn_throws : bool;                (* spawn() raises synchronously *)
  write_throws : bool;                (* fs.writeFileSync raises *)
  mkdir_throws : bool;                (* ./public/hls is missing and fs.mkdirSync raises *)
  unhandled : nat;                    (* rejections nobody handles *)
  trace : list call                   (* most recent call first *)
}.

Definition init_store : store :=
  mkStore false None None None None
          None None None None None
          [] [] [] 0 false false false 0 [].

(** Field updates. *)
Definition set_running (b : bool) (s : store) : store :=
  mkStore b s.(videoProducer) s.(audioProducer) s.(converterStartPromise)
    s.(restartTimeout) s.(ffmpegProcess) s.(hlsTransports_video)
    s.(hlsTransports_audio) s.(hlsConsumers_video) s.(hlsConsumers_audio)
    s.(timers) s.(observers) s.(procs) s.(fresh) s.(spawn_throws)
    s.(write_throws) s.(mkdir_throws) s.(unhandled) s.(trace).

Definition set_videoProducer (v : option nat) (s : store) : store :=
  mkStore s.(isConverterRunning) v s.(audioProducer) s.(converterStartPromise)
    s.(restartTimeout) s.(ffmpegProcess) s.(hlsTransports_video)
    s.(hlsTransports_audio) s.(hlsConsumers_video) s.(hlsConsumers_audio)
    s.(timers) s.(observers) s.(procs) s.(fresh) s.(spawn_throws)
    s.(write_throws) s.(mkdir_throws) s.(unhandled) s.(trace).

Definition set_audioProducer (v : option nat) (s : store) : store :=
  mkStore s.(isConverterRunning) s.(videoProducer) v s.(converterStartPromise)
    s.(restartTimeout) s.(ffmpegProcess) s.(hlsTransports_video)
    s.(hlsTransports_audio) s.(hlsConsumers_video) s.(hlsConsumers_audio)
    s.(timers) s.(observers) s.(procs) s.(fresh) s.(spawn_throws)
    s.(write_throws) s.(mkdir_throws) s.(unhandled) s.(trace).

Definition set_startPromise (v : option nat) (s : store) : store :=
  mkStore s.(isConverterRunning) s.(videoProducer) s.(audioProducer) v
    s.(restartTimeout) s.(ffmpegProcess) s.(hlsTransports_video)
    s.(hlsTransports_audio) s.(hlsConsumers_video) s.(hlsConsumers_audio)
    s.(timers) s.(observers) s.(procs) s.(fresh) s.(spawn_throws)
    s.(write_throws) s.(mkdir_throws) s.(unhandled) s.(trace).

Definition set_restartTimeout (v : option nat) (s : store) : store :=
  mkStore s.(isConverterRunning) s.(videoProducer) s.(audioProducer)
    s.(converterStartPromise) v s.(ffmpegProcess) s.(hlsTransports_video)
    s.(hlsTransports_audio) s.(hlsConsumers_video) s.(hlsConsumers_audio)
    s.(timers) s.(observers) s.(procs) s.(fresh) s.(spawn_throws)
    s.(write_throws) s.(mkdir_throws) s.(unhandled) s.(trace).

Definition set_ffmpegProcess (v : option nat) (s : store) : store :=
  mkStore s.(isConverterRunning) s.(videoProducer) s.(audioProducer)
    s.(converterStartPromise) s.(restartTimeout) v s.(hlsTransports_video)
    s.(hlsTransports_audio) s.(hlsConsumers_video) s.(hlsConsumers_audio)
    s.(timers) s.(observers) s.(procs) s.(fresh) s.(spawn_throws)
    s.(write_throws) s.(mkdir_throws) s.(unhandled) s.(trace).

Definition set_transport_video (v : option nat) (s : store) : store :=
  mkStore s.(isConverterRunning) s.(videoProducer) s.(audioProducer)
    s.(converterStartPromise) s.(restartTimeout) s.(ffmpegProcess) v
    s.(hlsTransports_audio) s.(hlsConsumers_video) s.(hlsConsumers_audio)
    s.(timers) s.(observers) s.(procs) s.(fresh) s.(spawn_throws)
    s.(write_throws) s.(mkdir_throws) s.(unhandled) s.(trace).

Definition set_transport_audio (v : option nat) (s : store) : store :=
  mkStore s.(isConverterRunning) s.(videoProducer) s.(audioProducer)
    s.(converterStartPromise) s.(restartTimeout) s.(ffmpegProcess)
    s.(hlsTransports_video) v s.(hlsConsumers_video) s.(hlsConsumers_audio)
    s.(timers) s.(observers) s.(procs) s.(fresh) s.(spawn_throws)
    s.(write_throws) s.(mkdir_throws) s.(unhandled) s.(trace).

Definition set_consumer_video (v : option nat) (s : store) : store :=
  mkStore s.(isConverterRunning) s.(videoProducer) s.(audioProducer)
    s.(converterStartPromise) s.(restartTimeout) s.(ffmpegProcess)
    s.(hlsTransports_video) s.(hlsTransports_audio) v s.(hlsConsumers_audio)
    s.(timers) s.(observers) s.(procs) s.(fresh) s.(spawn_throws)
    s.(write_throws) s.(mkdir_throws) s.(unhandled) s.(trace).

Definition set_consumer_audio (v : option nat) (s : store) : store :=
  mkStore s.(isConverterRunning) s.(videoProducer) s.(audioProducer)
    s.(converterStartPromise) s.(restartTimeout) s.(ffmpegProcess)
    s.(hlsTransports_video) s.(hlsTransports_audio) s.(hlsConsumers_video) v
    s.(timers) s.(observers) s.(procs) s.(fresh) s.(spawn_throws)
    s.(write_throws) s.(mkdir_throws) s.(unhandled) s.(trace).

Definition set_timers (v : list nat) (s : store) : store :=
  mkStore s.(isConverterRunning) s.(videoProducer) s.(audioProducer)
    s.(converterStartPromise) s.(restartTimeout) s.(ffmpegProcess)
    s.(hlsTransports_video) s.(hlsTransports_audio) s.(hlsConsumers_video)
    s.(hlsConsumers_audio) v s.(observers) s.(procs) s.(fresh)
    s.(spawn_throws) s.(write_throws) s.(mkdir_throws) s.(unhandled) s.(trace).

Definition set_observers (v : list (Kind * nat)) (s : store) : store :=
  mkStore s.(isConverterRunning) s.(videoProducer) s.(audioProducer)
    s.(converterStartPromise) s.(restartTimeout) s.(ffmpegProcess)
    s.(hlsTransports_video) s.(hlsTransports_audio) s.(hlsConsumers_video)
    s.(hlsConsumers_audio) s.(timers) v s.(procs) s.(fresh)
    s.(spawn_throws) s.(write_throws) s.(mkdir_throws) s.(unhandled) s.(trace).

Definition set_procs (v : list (nat * pstatus)) (s : store) : store :=
  mkStore s.(isConverterRunning) s.(videoProducer) s.(audioProducer)
    s.(converterStartPromise) s.(restartTimeout) s.(ffmpegProcess)
    s.(hlsTransports_video) s.(hlsTransports_audio) s.(hlsConsumers_video)
    s.(hlsConsumers_audio) s.(timers) s.(observers) v s.(fresh)
    s.(spawn_throws) s.(write_throws) s.(mkdir_throws) s.(unhandled) s.(trace).

Definition set_fresh (v : nat) (s : store) : store :=
  mkStore s.(isConverterRunning) s.(videoProducer) s.(audioProducer)
    s.(converterStartPromise) s.(restartTimeout) s.(ffmpegProcess)
    s.(hlsTransports_video) s.(hlsTransports_audio) s.(hlsConsumers_video)
    s.(hlsConsumers_audio) s.(timers) s.(observers) s.(procs) v
    s.(spawn_throws) s.(write_throws) s.(mkdir_throws) s.(unhandled) s.(trace).

Definition set_env (sp wr mk : bool) (s : store) : store :=
  mkStore s.(isConverterRunning) s.(videoProducer) s.(audioProducer)
    s.(converterStartPromise) s.(restartTimeout) s.(ffmpegProcess)
    s.(hlsTransports_video) s.(hlsTransports_audio) s.(hlsConsumers_video)
    s.(hlsConsumers_audio) s.(timers) s.(observers) s.(procs) s.(fresh)
    sp wr mk s.(unhandled) s.(trace).

Definition set_unhandled (v : nat) (s : store) : store :=
  mkStore s.(isConverterRunning) s.(videoProducer) s.(audioProducer)
    s.(converterStartPromise) s.(restartTimeout) s.(ffmpegProcess)
    s.(hlsTransports_video) s.(hlsTransports_audio) s.(hlsConsumers_video)
    s.(hlsConsumers_audio) s.(timers) s.(observers) s.(procs) s.(fresh)
    s.(spawn_throws) s.(write_throws) s.(mkdir_throws) v s.(trace).

Definition emit (c : call) (s : store) : store :=
  mkStore s.(isConverterRunning) s.(videoProducer) s.(audioProducer)
    s.(converterStartPromise) s.(restartTimeout) s.(ffmpegProcess)
    s.(hlsTransports_video) s.(hlsTransports_audio) s.(hlsConsumers_video)
    s.(hlsConsumers_audio) s.(timers) s.(observers) s.(procs) s.(fresh)
    s.(spawn_throws) s.(write_throws) s.(mkdir_throws) s.(unhandled) (c :: s.(trace)).

(** A process table entry changes status; [kill] only affects a process that
    has not been signalled yet. *)
Fixpoint set_status (p : nat) (st : pstatus) (l : list (nat * pstatus))
  : list (nat * pstatus) :=
  match l with
  | [] => []
  | (q, x) :: r =>
      if Nat.eqb q p then (q, st) :: set_status p st r
      else (q, x) :: set_status p st r
  end.

Fixpoint status_of (p : nat) (l : list (nat * pstatus)) : option pstatus :=
  match l with
  | [] => None
  | (q, x) :: r => if Nat.eqb q p then Some x else status_of p r
  end.

Definition kill (p : nat) (s : store) : store :=
  set_procs
    match status_of p s.(procs) with
    | Some Alive => set_status p Signalled s.(procs)
    | _ => s.(procs)
    end s.

Fixpoint remove_nat (x : nat) (l : list nat) : list nat :=
  match l with
  | [] => []
  | y :: r => if Nat.eqb y x then remove_nat x r else y :: remove_nat x r
  end.

Definition is_some {A} (o : option A) : bool :=
  match o with Some _ => true | None => false end.

Definition opt_is (o : option nat) (n : nat) : bool :=
  match o with Some m => Nat.eqb m n | None => false end.

(** ** Asynchronous programs *)

(** What an [await] waits for. *)
Inductive wait : Type :=
| WTick                    (* a value that is not a pending promise *)
| WPromise (i : nat)       (* the promise [i] of an earlier call *)
| WDelay (ms : nat)        (* new Promise(r => setTimeout(r, ms)) *)
| WCreateTransport         (* router.createPlainTransport(...) *)
| WConsume (t p : nat).    (* transport.consume({ producerId, ... }) *)

Inductive answer : Type :=
| Fulfilled (v : nat)
| Rejected.

Inductive prog : Type :=
| Ret                                        (* normal completion *)
| Throw                                      (* an exception *)
| Read (k : store -> prog)
| Write (f : store -> store) (k : prog)
| Await (w : wait) (k : answer -> prog)
| Fork (body : prog) (k : nat -> prog)       (* p = f(): the promise is kept *)
| Detach (body : prog) (k : prog).           (* f(); the promise is dropped *)

(** Sequencing, [try]/[catch] and [try]/[finally]. *)
Fixpoint seq (p q : prog) : prog :=
  match p with
  | Ret => q
  | Throw => Throw
  | Read k => Read (fun s => seq (k s) q)
  | Write f k => Write f (seq k q)
  | Await w k => Await w (fun a => seq (k a) q)
  | Fork b k => Fork b (fun i => seq (k i) q)
  | Detach b k => Detach b (seq k q)
  end.

Fixpoint try_catch (p h : prog) : prog :=
  match p with
  | Ret => Ret
  | Throw => h
  | Read k => Read (fun s => try_catch (k s) h)
  | Write f k => Write f (try_catch k h)
  | Await w k => Await w (fun a => try_catch (k a) h)
  | Fork b k => Fork b (fun i => try_catch (k i) h)
  | Detach b k => Detach b (try_catch k h)
  end.

Fixpoint try_finally (p f : prog) : prog :=
  match p with
  | Ret => f
  | Throw => seq f Throw
  | Read k => Read (fun s => try_finally (k s) f)
  | Write g k => Write g (try_finally k f)
  | Await w k => Await w (fun a => try_finally (k a) f)
  | Fork b k => Fork b (fun i => try_finally (k i) f)
  | Detach b k => Detach b (try_finally k f)
  end.

Declare Scope prog_scope.
Delimit Scope prog_scope with prog.
Bind Scope prog_scope with prog.
Notation "p ;; q" := (seq p q) (at level 61, right associativity) : prog_scope.
Open Scope prog_scope.

Definition write (f : store -> store) : prog := Write f Ret.
Definition say (c : call) : prog := Write (emit c) Ret.
Definition tick : prog := Await WTick (fun _ => Ret).

(** [await f()] for an [async] function [f]: the callee runs up to its own
    completion, and the caller is resumed one microtask later with the
    result, normal or exceptional. *)
Definition await_call (f : prog) : prog :=
  try_catch (f ;; tick) (tick ;; Throw).

(** [await p] for a kept promise. *)
Definition await_promise (i : nat) : prog :=
  Await (WPromise i) (fun a => match a with Fulfilled _ => Ret | Rejected => Throw end).

Definition sleep (ms : nat) : prog := Await (WDelay ms) (fun _ => Ret).

(** ** Running a program up to its next [await] *)

Inductive status : Type :=
| Done
| Failed
| Blocked (w : wait) (k : answer -> prog).

(** A call started with [Fork] or [Detach] during a run, with the state it
    was left in and the promise it settles ([None]: nobody holds it). *)
Record thread : Type := mkThread {
  th_status : status;
  th_settles : option nat
}.

Fixpoint exec (p : prog) (s : store) : store * list thread * status :=
  match p with
  | Ret => (s, [], Done)
  | Throw => (s, [], Failed)
  | Read k => exec (k s) s
  | Write f k => exec k (f s)
  | Await w k => (s, [], Blocked w k)
  | Fork b k =>
      let i := s.(fresh) in
      let '(s1, t1, r1) := exec b (set_fresh (S i) s) in
      let '(s2, t2, r2) := exec (k i) s1 in
      (s2, t1 ++ mkThread r1 (Some i) :: t2, r2)
  | Detach b k =>
      let '(s1, t1, r1) := exec b s in
      let '(s2, t2, r2) := exec k s1 in
      (s2, t1 ++ mkThread r1 None :: t2, r2)
  end.

(** ** rtp-to-hls.ts *)

(** [stopHlsConverter]: kill the subprocess and drop the handle; close each
    transport and consumer that is registered, clearing the slot once the
    awaited [close()] has returned. *)
Definition stopHlsConverter : prog :=
  say CStopHls ;;
  Read (fun s =>
    match s.(ffmpegProcess) with
    | Some p =>
        write (fun s => kill p (emit (CKill p) s)) ;;
        write (set_ffmpegProcess None)
    | None => Ret
    end) ;;
  Read (fun s =>
    match s.(hlsTransports_video) with
    | Some t => say (CCloseTransport t) ;; tick ;; write (set_transport_video None)
    | None => Ret
    end) ;;
  Read (fun s =>
    match s.(hlsTransports_audio) with
    | Some t => say (CCloseTransport t) ;; tick ;; write (set_transport_audio None)
    | None => Ret
    end) ;;
  Read (fun s =>
    match s.(hlsConsumers_video) with
    | Some c => say (CCloseConsumer c) ;; tick ;; write (set_consumer_video None)
    | None => Ret
    end) ;;
  Read (fun s =>
    match s.(hlsConsumers_audio) with
    | Some c => say (CCloseConsumer c) ;; tick ;; write (set_consumer_audio None)
    | None => Ret
    end) ;;
  say CStopHlsDone.

(** [runFfmpeg]: [spawn] either raises or hands back a process object; the
    function returns that object, so its result is never [null]. *)
Definition runFfmpeg (k : option nat -> prog) : prog :=
  Read (fun s =>
    if s.(spawn_throws) then Throw
    else
      let p := s.(fresh) in
      write (fun s => set_procs (s.(procs) ++ [(p, Alive)])
                        (set_fresh (S p) (emit (CSpawn p) s))) ;;
      k (Some p)).

(** A rejected request raises at the [await]. *)
Definition request (w : wait) (k : nat -> prog) : prog :=
  Await w (fun a => match a with Fulfilled v => k v | Rejected => Throw end).

(** The directory housekeeping of [startRtpToHlsConverter], which stands
    before its [try] block: [fs.mkdirSync] is called when the directory is
    missing, and what it raises leaves the function at once.  The removal of
    old files that follows has a [try]/[catch] of its own that swallows
    everything. *)
Definition ensureHlsDir : prog :=
  Read (fun s => if s.(mkdir_throws) then Throw else Ret).

(** [startRtpToHlsConverter(router, videoProducer, audioProducer)].  The
    producers are what the caller read from the manager at the time of the
    call; reading [.id] of [null] raises inside the [try] block.  The timer
    that resumes the consumers touches nothing that is modelled. *)
Definition startRtpToHlsConverter (vp ap : option nat) : prog :=
  say CStartHls ;;
  await_call stopHlsConverter ;;
  sleep 1000 ;;
  ensureHlsDir ;;
  try_catch
    (request WCreateTransport (fun vt =>
     request WCreateTransport (fun at_ =>
     write (set_transport_video (Some vt)) ;;
     write (set_transport_audio (Some at_)) ;;
     match vp with
     | None => Throw
     | Some v =>
     request (WConsume vt v) (fun vc =>
     match ap with
     | None => Throw
     | Some a =>
     request (WConsume at_ a) (fun ac =>
     write (set_consumer_video (Some vc)) ;;
     write (set_consumer_audio (Some ac)) ;;
     Read (fun s => if s.(write_throws) then Throw else say CWriteSdp) ;;
     runFfmpeg (fun r =>
       write (set_ffmpegProcess r) ;;
       match r with
       | None => Throw
       | Some _ => Ret
       end))
     end)
     end)))
    (await_call stopHlsConverter ;; Throw).

(** ** HLSManager *)

Definition clearRestartTimeout : prog :=
  Read (fun s =>
    match s.(restartTimeout) with
    | Some t =>
        write (fun s => set_timers (remove_nat t s.(timers)) (emit (CClearTimer t) s)) ;;
        write (set_restartTimeout None)
    | None => Ret
    end).

Definition forceStopConverter : prog :=
  say CForceStop ;;
  write (set_running false) ;;
  try_catch (await_call stopHlsConverter) Ret.

Definition startConverterInternal : prog :=
  Read (fun s =>
    match s.(videoProducer), s.(audioProducer) with
    | Some _, Some _ =>
        await_call forceStopConverter ;;
        sleep 3000 ;;
        Read (fun s =>
          await_call (startRtpToHlsConverter s.(videoProducer) s.(audioProducer)))
    | _, _ => Throw
    end).

Definition tryStartConverter : prog :=
  say CTryStart ;;
  Read (fun s =>
    if s.(isConverterRunning) || negb (is_some s.(videoProducer))
       || negb (is_some s.(audioProducer))
    then say CNotStarting
    else
      match s.(converterStartPromise) with
      | Some p => say CStartInProgress ;; await_promise p
      | None =>
          say CStarting ;;
          write (set_running true) ;;
          Fork startConverterInternal (fun p =>
            write (set_startPromise (Some p)) ;;
            try_finally
              (try_catch
                 (await_promise p ;; say CStarted)
                 (say CStartFailed ;; write (set_running false)))
              (write (set_startPromise None)))
      end).

Definition stopConverter : prog :=
  Read (fun s =>
    if negb s.(isConverterRunning) && negb (is_some s.(converterStartPromise))
    then Ret
    else
      say CStopConverter ;;
      write (set_running false) ;;
      clearRestartTimeout ;;
      Read (fun s =>
        match s.(converterStartPromise) with
        | Some p =>
            try_catch (await_promise p) Ret ;;
            write (set_startPromise None)
        | None => Ret
        end) ;;
      try_catch (await_call stopHlsConverter) Ret).

(** The observer [setProducer] registers on the producer. *)
Definition onTransportClose (kind : Kind) (id : nat) : prog :=
  Read (fun s =>
    match kind with
    | video =>
        if opt_is s.(videoProducer) id then write (set_videoProducer None) else Ret
    | audio =>
        if opt_is s.(audioProducer) id then write (set_audioProducer None) else Ret
    end) ;;
  Read (fun s =>
    match s.(videoProducer), s.(audioProducer) with
    | None, None => Detach stopConverter Ret
    | _, _ => Ret
    end).

Definition armRestartTimeout : prog :=
  write (fun s =>
    let t := s.(fresh) in
    set_restartTimeout (Some t)
      (set_timers (s.(timers) ++ [t]) (set_fresh (S t) (emit (CSetTimer t) s)))).

Definition setProducer (kind : Kind) (id : nat) : prog :=
  clearRestartTimeout ;;
  match kind with
  | video =>
      Read (fun s =>
        match s.(videoProducer) with
        | Some old => if negb (Nat.eqb old id) then await_call stopConverter else Ret
        | None => Ret
        end) ;;
      write (set_videoProducer (Some id))
  | audio =>
      Read (fun s =>
        match s.(audioProducer) with
        | Some old => if negb (Nat.eqb old id) then await_call stopConverter else Ret
        | None => Ret
        end) ;;
      write (set_audioProducer (Some id))
  end ;;
  write (fun s => set_observers (s.(observers) ++ [(kind, id)]) s) ;;
  armRestartTimeout.

Definition restartConverter : prog :=
  await_call stopConverter ;;
  sleep 2000 ;;
  await_call tryStartConverter.

Definition reset : prog :=
  write (set_videoProducer None) ;;
  write (set_audioProducer None) ;;
  await_call stopConverter.

Record State : Type := mkState {
  st_isConverterRunning : bool;
  st_hasVideoProducer : bool;
  st_hasAudioProducer : bool;
  st_videoProducerId : option nat;
  st_audioProducerId : option nat
}.

Definition getState (s : store) : State :=
  mkState s.(isConverterRunning) (is_some s.(videoProducer))
          (is_some s.(audioProducer)) s.(videoProducer) s.(audioProducer).

(** ** The event loop *)

(** A continuation that can run now, and one that waits. *)
Record ready : Type := mkReady {
  r_prog : prog;
  r_settles : option nat
}.

Record task : Type := mkTask {
  t_wait : wait;
  t_k : answer -> prog;
  t_settles : option nat
}.

Record world : Type := mkWorld {
  st : store;
  queue : list ready;               (* microtasks, oldest first *)
  blocked : list task;              (* in order of suspension *)
  settled : list (nat * answer)     (* promises with their outcome *)
}.

Definition init_world : world := mkWorld init_store [] [] [].

Fixpoint outcome_of (i : nat) (l : list (nat * answer)) : option answer :=
  match l with
  | [] => None
  | (j, a) :: r => if Nat.eqb j i then Some a else outcome_of i r
  end.

Definition waits_on (i : nat) (t : task) : bool :=
  match t.(t_wait) with
  | WPromise j => Nat.eqb j i
  | _ => false
  end.

Definition wake (a : answer) (t : task) : ready :=
  mkReady (t.(t_k) a) t.(t_settles).

(** A call has finished.  The promise it settles, if any, is recorded and the
    continuations awaiting it are queued in the order they started to wait.  A
    failure of a call whose promise nobody holds is an unhandled rejection. *)
Definition settle (tag : option nat) (a : answer) (w : world) : world :=
  match tag with
  | Some i =>
      mkWorld w.(st)
        (w.(queue) ++ map (wake a) (filter (waits_on i) w.(blocked)))
        (filter (fun t => negb (waits_on i t)) w.(blocked))
        ((i, a) :: w.(settled))
  | None =>
      match a with
      | Fulfilled _ => w
      | Rejected =>
          mkWorld (set_unhandled (S w.(st).(unhandled)) w.(st))
                  w.(queue) w.(blocked) w.(settled)
      end
  end.

Definition enqueue (r : ready) (w : world) : world :=
  mkWorld w.(st) (w.(queue) ++ [r]) w.(blocked) w.(settled).

Definition park (t : task) (w : world) : world :=
  mkWorld w.(st) w.(queue) (w.(blocked) ++ [t]) w.(settled).

(** Where a call goes after it stopped running. *)
Definition dispatch (r : status) (tag : option nat) (w : world) : world :=
  match r with
  | Done => settle tag (Fulfilled 0) w
  | Failed => settle tag Rejected w
  | Blocked WTick k => enqueue (mkReady (k (Fulfilled 0)) tag) w
  | Blocked (WPromise i) k =>
      match outcome_of i w.(settled) with
      | Some a => enqueue (mkReady (k a) tag) w
      | None => park (mkTask (WPromise i) k tag) w
      end
  | Blocked x k => park (mkTask x k tag) w
  end.

Definition dispatch_threads (l : list thread) (w : world) : world :=
  fold_left (fun w t => dispatch t.(th_status) t.(th_settles) w) l w.

(** Run one continuation from the given world. *)
Definition run_ready (r : ready) (w : world) : world :=
  let '(s, ths, res) := exec r.(r_prog) w.(st) in
  dispatch res r.(r_settles)
    (dispatch_threads ths (mkWorld s w.(queue) w.(blocked) w.(settled))).

(** One microtask. *)
Definition micro (w : world) : option world :=
  match w.(queue) with
  | [] => None
  | r :: q => Some (run_ready r (mkWorld w.(st) q w.(blocked) w.(settled)))
  end.

(** External events. *)
Inductive event : Type :=
| EvProduce (kind : Kind) (id : nat)  (* socket "produce": hlsManager.setProducer *)
| EvTimer (t : nat)                   (* a debounce timer fires *)
| EvResume (n : nat) (ok : bool)      (* what the n-th blocked call waits for happens *)
| EvTransportClose (id : nat)         (* the transport of producer [id] closes *)
| EvRestart                           (* POST /hls-restart *)
| EvReset                             (* POST /hls-reset *)
| EvProcExit (p : nat)                (* a subprocess exits: its "close" event *)
| EvEnv (sp wr mk : bool).            (* the OS starts or stops refusing spawn/write/mkdir *)

Fixpoint remove_nth {A} (n : nat) (l : list A) : list A :=
  match n, l with
  | _, [] => []
  | O, _ :: r => r
  | S m, x :: r => x :: remove_nth m r
  end.

(** The observers a producer carries are run in registration order. *)
Fixpoint observers_of (id : nat) (l : list (Kind * nat)) : prog :=
  match l with
  | [] => Ret
  | (k, j) :: r =>
      if Nat.eqb j id then onTransportClose k j ;; observers_of id r
      else observers_of id r
  end.

(** The socket handler and the two HTTP handlers wrap the call in
    [try]/[catch]; the timer callback and the producer observers do not. *)
Definition on_produce (kind : Kind) (id : nat) : prog :=
  try_catch (await_call (setProducer kind id)) Ret.

Definition on_restart : prog := try_catch (await_call restartConverter) Ret.
Definition on_reset : prog := try_catch (await_call reset) Ret.
Definition on_timer : prog := Detach tryStartConverter Ret.

Definition on_proc_exit (p : nat) : prog :=
  write (fun s => set_procs (set_status p Exited s.(procs)) s) ;;
  write (set_ffmpegProcess None).

Definition with_store (s : store) (w : world) : world :=
  mkWorld s w.(queue) w.(blocked) w.(settled).

(** What an external event makes run, and the world it runs in: a handler
    started afresh, or a blocked call resumed with the outcome of what it
    waited for. *)
Definition event_task (e : event) (w : world) : option (ready * world) :=
  match e with
  | EvProduce kind id => Some (mkReady (on_produce kind id) None, w)
  | EvTimer t =>
      if existsb (Nat.eqb t) w.(st).(timers) then
        Some (mkReady on_timer None,
              with_store (set_timers (remove_nat t w.(st).(timers)) w.(st)) w)
      else None
  | EvResume n ok =>
      match nth_error w.(blocked) n with
      | None => None
      | Some t =>
          let rest := remove_nth n w.(blocked) in
          match t.(t_wait), ok with
          | WTick, _ | WPromise _, _ | WDelay _, false => None
          | WDelay _, true =>
              Some (wake (Fulfilled 0) t,
                    mkWorld w.(st) w.(queue) rest w.(settled))
          | _, true =>
              let v := w.(st).(fresh) in
              Some (wake (Fulfilled v) t,
                    mkWorld (set_fresh (S v) w.(st)) w.(queue) rest w.(settled))
          | _, false =>
              Some (wake Rejected t,
                    mkWorld w.(st) w.(queue) rest w.(settled))
          end
      end
  | EvTransportClose id =>
      Some (mkReady (observers_of id w.(st).(observers)) None,
            with_store (set_observers
                          (filter (fun x => negb (Nat.eqb (snd x) id))
                                  w.(st).(observers)) w.(st)) w)
  | EvRestart => Some (mkReady on_restart None, w)
  | EvReset => Some (mkReady on_reset None, w)
  | EvProcExit p =>
      match status_of p w.(st).(procs) with
      | Some Alive | Some Signalled => Some (mkReady (on_proc_exit p) None, w)
      | _ => None
      end
  | EvEnv sp wr mk =>
      Some (mkReady Ret None, with_store (set_env sp wr mk w.(st)) w)
  end.

(** An external event is taken when the microtask queue is empty. *)
Definition handle (e : event) (w : world) : option world :=
  match w.(queue) with
  | _ :: _ => None
  | [] =>
      match event_task e w with
      | Some (r, w0) => Some (run_ready r w0)
      | None => None
      end
  end.

Inductive step : world -> world -> Prop :=
| step_micro : forall w w', micro w = Some w' -> step w w'
| step_event : forall e w w', handle e w = Some w' -> step w w'.

(** Empty the microtask queue. *)
Fixpoint drain (fuel : nat) (w : world) : option world :=
  match w.(queue) with
  | [] => Some w
  | _ :: _ =>
      match fuel with
      | O => None
      | S f => match micro w with Some w' => drain f w' | None => None end
      end
  end.

(** Feed a list of events, emptying the microtask queue after each. *)
Fixpoint run (fuel : nat) (es : list event) (w : world) : option world :=
  match es with
  | [] => drain fuel w
  | e :: r =>
      match drain fuel w with
      | None => None
      | Some w1 =>
          match handle e w1 with
          | None => None
          | Some w2 => run fuel r w2
          end
      end
  end.

(** ** createSdpString *)

Module Sdp.

Local Open Scope string_scope.

(** A codec parameter value is a number or a string. *)
Inductive pvalue : Type :=
| PNum (n : N)
| PStr (s : string).

(** [consumer.rtpParameters.codecs[i]]. [channels] and [parameters] may be
    [undefined]; an object is the list of its keys, in enumeration order, with
    their values. *)
Record Codec : Type := mkCodec {
  mimeType : string;
  payloadType : N;
  clockRate : N;
  channels : option N;
  parameters : option (list (string * pvalue))
}.

(** What [createSdpString] reads of a transport and its consumer. *)
Record Endpoint : Type := mkEndpoint {
  localPort : N;
  codecs : list Codec
}.

(** A number inside a template literal: its decimal digits, which is how
    JavaScript prints the integers below 10^21 (payload types, ports, clock
    rates and channel counts are far below). *)
Definition num (n : N) : string := NilZero.string_of_uint (N.to_uint n).

Definition show (v : pvalue) : string :=
  match v with
  | PNum n => num n
  | PStr s => s
  end.

(** [s.split("/")] *)
Fixpoint split_slash (s : string) : list string :=
  match s with
  | EmptyString => [EmptyString]
  | String c r =>
      if Ascii.eqb c "/"%char then EmptyString :: split_slash r
      else
        match split_slash r with
        | [] => [String c EmptyString]
        | h :: t => String c h :: t
        end
  end.

(** An element of an array inside a template literal; a missing one prints as
    [undefined]. *)
Definition nth_or_undefined (l : list string) (n : nat) : string :=
  match nth_error l n with
  | Some x => x
  | None => "undefined"
  end.

Fixpoint lookup (key : string) (l : list (string * pvalue)) : option pvalue :=
  match l with
  | [] => None
  | (k, v) :: r => if String.eqb k key then Some v else lookup key r
  end.

Definition show_opt (o : option pvalue) : string :=
  match o with
  | Some v => show v
  | None => "undefined"
  end.

Definition formatParams (params : option (list (string * pvalue))) : string :=
  match params with
  | None => ""
  | Some l =>
      match l with
      | [] => ""
      | _ => String.concat ";" (map (fun kv => fst kv ++ "=" ++ show_opt (lookup (fst kv) l)) l)
      end
  end.

(** JavaScript truthiness of a string and [x || 2] on an optional number. *)
Definition truthy (s : string) : bool :=
  match s with
  | EmptyString => false
  | _ => true
  end.

Definition or_default (o : option N) (d : N) : N :=
  match o with
  | Some 0%N | None => d
  | Some n => n
  end.

Definition crlf : string := String "013"%char (String "010"%char EmptyString).

Definition header (v : Endpoint) (vc : Codec) : list string :=
  [ "v=0";
    "o=- 0 0 IN IP4 127.0.0.1";
    "s=Mediasoup Stream";
    "c=IN IP4 127.0.0.1";
    "t=0 0";
    "m=video " ++ num v.(localPort) ++ " RTP/AVP " ++ num vc.(payloadType);
    "a=rtpmap:" ++ num vc.(payloadType) ++ " "
      ++ nth_or_undefined (split_slash vc.(mimeType)) 1 ++ "/" ++ num vc.(clockRate) ].

Definition fmtp (c : Codec) : list string :=
  let p := formatParams c.(parameters) in
  if truthy p then ["a=fmtp:" ++ num c.(payloadType) ++ " " ++ p] else [].

Definition audio_rtpmap (ac : Codec) : string :=
  "a=rtpmap:" ++ num ac.(payloadType) ++ " "
    ++ nth_or_undefined (split_slash ac.(mimeType)) 1 ++ "/" ++ num ac.(clockRate)
    ++ "/" ++ num (or_default ac.(channels) 2).

(** The lines pushed for the video track after the initial array, and the
    lines pushed for the audio track. *)
Definition video_tail (vc : Codec) : list string :=
  fmtp vc ++ ["a=sendonly"].

Definition audio_lines (a : Endpoint) (ac : Codec) : list string :=
  ["m=audio " ++ num a.(localPort) ++ " RTP/AVP " ++ num ac.(payloadType)]
    ++ [audio_rtpmap ac] ++ fmtp ac ++ ["a=sendonly"].

Definition sdpLines (v a : Endpoint) (vc ac : Codec) : list string :=
  header v vc ++ video_tail vc ++ audio_lines a ac.

(** [None] stands for the [TypeError] raised when [codecs[0]] is
    [undefined]. *)
Definition createSdpString (v a : Endpoint) : option string :=
  match v.(codecs), a.(codecs) with
  | vc :: _, ac :: _ => Some (String.concat crlf (sdpLines v a vc ac) ++ crlf)
  | _, _ => None
  end.

(** The same function in the earlier revision of the module (the one without
    [stopHlsConverter]): one template literal, the [fmtp] lines always
    present, the channel count printed as it is.  The ports are what the
    destructuring of the transport tuple yields. *)
Definition formatParams_v1 (params : option (list (string * pvalue))) : option string :=
  match params with
  | None => None   (* Object.keys(undefined) raises *)
  | Some l => Some (String.concat ";" (map (fun kv => fst kv ++ "=" ++ show_opt (lookup (fst kv) l)) l))
  end.

Definition lf : string := String "010"%char EmptyString.

Definition show_optN (o : option N) : string :=
  match o with
  | Some n => num n
  | None => "undefined"
  end.

Definition createSdpString_v1 (videoPort audioPort : option N)
    (vcodecs acodecs : list Codec) : option string :=
  match vcodecs, acodecs with
  | vc :: _, ac :: _ =>
      match formatParams_v1 vc.(parameters), formatParams_v1 ac.(parameters) with
      | Some vp, Some ap =>
          Some (lf ++ "v=0" ++ lf
            ++ "o=- 0 0 IN IP4 127.0.0.1" ++ lf
            ++ "s=Mediasoup Stream" ++ lf
            ++ "c=IN IP4 127.0.0.1" ++ lf
            ++ "t=0 0" ++ lf
            ++ "m=video " ++ show_optN videoPort ++ " RTP/AVP " ++ num vc.(payloadType) ++ lf
            ++ "a=rtpmap:" ++ num vc.(payloadType) ++ " "
            ++ nth_or_undefined (split_slash vc.(mimeType)) 1 ++ "/" ++ num vc.(clockRate) ++ lf
            ++ "a=fmtp:" ++ num vc.(payloadType) ++ " " ++ vp ++ lf
            ++ "a=sendonly" ++ lf
            ++ "m=audio " ++ show_optN audioPort ++ " RTP/AVP " ++ num ac.(payloadType) ++ lf
            ++ "a=rtpmap:" ++ num ac.(payloadType) ++ " "
            ++ nth_or_undefined (split_slash ac.(mimeType)) 1 ++ "/" ++ num ac.(clockRate)
            ++ "/" ++ show_optN ac.(channels) ++ lf
            ++ "a=fmtp:" ++ num ac.(payloadType) ++ " " ++ ap ++ lf
            ++ "a=sendonly" ++ lf ++ "  ")
      | _, _ => None
      end
  | _, _ => None
  end.

(** A codec-parameter line, and a codec that declares format parameters. *)
Definition is_fmtp (line : string) : bool := String.prefix "a=fmtp:" line.

Definition declares_params (c : Codec) : bool :=
  match c.(parameters) with
  | Some (_ :: _) => true
  | _ => false
  end.

Definition count_fmtp (l : list string) : nat :=
  List.length (filter is_fmtp l).

End Sdp.

(** ** The text of a session description, line by line *)

Module SdpText.

Import Sdp.
Local Open Scope string_scope.

Definition CR : ascii := "013"%char.
Definition LF : ascii := "010"%char.

Definition push (c : ascii) (l : list string) : list string :=
  match l with
  | [] => [String c EmptyString]
  | h :: t => String c h :: t
  end.

(** The lines of a text whose lines end in CR LF: the pieces between the
    CR LF pairs.  A text that ends in CR LF has an empty last piece. *)
Fixpoint text_lines (s : string) : list string :=
  match s with
  | EmptyString => [EmptyString]
  | String c r =>
      match r with
      | String d r' =>
          if Ascii.eqb c CR && Ascii.eqb d LF then EmptyString :: text_lines r'
          else push c (text_lines r)
      | EmptyString => push c (text_lines r)
      end
  end.

(** The media sections of a description: the video section runs up to the
    [m=audio] line, the audio section from there on. *)
Definition is_audio_media (line : string) : bool := String.prefix "m=audio " line.

Fixpoint video_section (l : list string) : list string :=
  match l with
  | [] => []
  | x :: r => if is_audio_media x then [] else x :: video_section r
  end.

Fixpoint audio_section (l : list string) : list string :=
  match l with
  | [] => []
  | x :: r => if is_audio_media x then x :: r else audio_section r
  end.

(** A string without a line break, and a codec none of whose strings has
    one. *)
Fixpoint no_break (s : string) : bool :=
  match s with
  | EmptyString => true
  | String c r => negb (Ascii.eqb c CR) && negb (Ascii.eqb c LF) && no_break r
  end.

Definition clean_value (v : pvalue) : bool :=
  match v with
  | PNum _ => true
  | PStr s => no_break s
  end.

Definition clean_codec (c : Codec) : bool :=
  no_break c.(mimeType) &&
  match c.(parameters) with
  | None => true
  | Some l => forallb (fun kv => no_break (fst kv) && clean_value (snd kv)) l
  end.

(** A video codec whose MIME type carries a line break and the text of a
    parameter line after it, and an audio codec; neither declares a format
    parameter. *)
Definition forged_video : Codec :=
  mkCodec ("video/VP8" ++ crlf ++ "a=fmtp:101 x=1") 101 90000 None None.

Definition plain_audio : Codec :=
  mkCodec "audio/opus" 100 48000 (Some 2%N) None.

End SdpText.

(** ** Contracts of single calls *)

(** The answer an [await] can be resumed with: a tick or a delay just
    elapses; a request or a promise may also be rejected. *)
Definition answer_ok (w : wait) (a : answer) : Prop :=
  match w with
  | WTick | WDelay _ => a = Fulfilled 0
  | _ => True
  end.

(** [post R p s Q]: the call [p], entered with store [s], meets [Q] when it
    completes ([true]: returns, [false]: raises), however it is resumed and
    whatever the rest of the program did to the store while it waited, as long
    as that was within [R]. *)
Fixpoint post (R : store -> store -> Prop) (p : prog) (s : store)
    (Q : bool -> store -> Prop) : Prop :=
  match p with
  | Ret => Q true s
  | Throw => Q false s
  | Read k => post R (k s) s Q
  | Write f k => post R k (f s) Q
  | Await w k => forall a s', answer_ok w a -> R s s' -> post R (k a) s' Q
  | Fork b k =>
      post R (k s.(fresh)) (fst (fst (exec b (set_fresh (S s.(fresh)) s)))) Q
  | Detach b k => post R k (fst (fst (exec b s))) Q
  end.

Definition handles_null (s : store) : Prop :=
  s.(ffmpegProcess) = None /\
  s.(hlsTransports_video) = None /\ s.(hlsTransports_audio) = None /\
  s.(hlsConsumers_video) = None /\ s.(hlsConsumers_audio) = None.

Definition cleared_or_same {A} (x y : option A) : Prop := y = None \/ y = x.

(** While a call waits, the five handles are at most cleared by others. *)
Definition only_clears (s s' : store) : Prop :=
  cleared_or_same s.(ffmpegProcess) s'.(ffmpegProcess) /\
  cleared_or_same s.(hlsTransports_video) s'.(hlsTransports_video) /\
  cleared_or_same s.(hlsTransports_audio) s'.(hlsTransports_audio) /\
  cleared_or_same s.(hlsConsumers_video) s'.(hlsConsumers_video) /\
  cleared_or_same s.(hlsConsumers_audio) s'.(hlsConsumers_audio).

(** While [stopConverter] waits, the flag is not raised and the start promise
    is at most cleared. *)
Definition settles_only (s s' : store) : Prop :=
  (s.(isConverterRunning) = false -> s'.(isConverterRunning) = false) /\
  (s.(converterStartPromise) = None -> s'.(converterStartPromise) = None).

Fixpoint count_call (c : call -> bool) (l : list call) : nat :=
  match l with
  | [] => 0
  | x :: r => (if c x then 1 else 0) + count_call c r
  end.

Definition is_tryStart (c : call) : bool :=
  match c with CTryStart => true | _ => false end.

Definition is_stopHls (c : call) : bool :=
  match c with CStopHls => true | _ => false end.

Definition is_kill (c : call) : bool :=
  match c with CKill _ => true | _ => false end.

(** ** Scenarios *)

(** A video producer 100 and an audio producer 101 register; the second
    debounce timer (identifier 1) fires; the start runs through: the 3000 ms
    and 1000 ms delays elapse, the router creates both transports and both
    consumers, ffmpeg is spawned as process 7. *)
Definition scenario_running : list event :=
  [ EvProduce video 100; EvProduce audio 101; EvTimer 1;
    EvResume 1 true; EvResume 1 true;
    EvResume 1 true; EvResume 1 true; EvResume 1 true; EvResume 1 true ].

(** While the first start is waiting, the transport of video producer 100
    closes and a video producer 200 registers; its debounce timer (3) fires
    before the start has finished; then the router refuses the first
    transport. *)
Definition scenario_second_caller : list event :=
  [ EvProduce video 100; EvProduce audio 101; EvTimer 1;
    EvTransportClose 100; EvProduce video 200; EvTimer 3;
    EvResume 1 true; EvResume 2 true; EvResume 2 false ].

(** A start whose second transport the router refuses. *)
Definition scenario_failed_start : list event :=
  [ EvProduce video 100; EvProduce audio 101; EvTimer 1;
    EvResume 1 true; EvResume 1 true; EvResume 1 true; EvResume 1 false ].

(** After a start ran through, video producer 200 replaces 100, its timer (8)
    fires and the next start runs through, spawning process 14, while
    process 7 has been signalled and has not exited. *)
Definition scenario_replace : list event :=
  scenario_running ++
  [ EvProduce video 200; EvTimer 8;
    EvResume 1 true; EvResume 1 true;
    EvResume 1 true; EvResume 1 true; EvResume 1 true; EvResume 1 true ].

(** While the first start is waiting, both producers are replaced; the start
    then runs through.  Each of the two [setProducer] calls had cleared the
    timer before it began to wait for the start, and arms one when it goes
    on: timers 8 and 9. *)
Definition scenario_replace_during_start : list event :=
  [ EvProduce video 100; EvProduce audio 101; EvTimer 1;
    EvProduce video 200; EvProduce audio 201;
    EvResume 1 true; EvResume 3 true;
    EvResume 3 true; EvResume 3 true; EvResume 3 true; EvResume 3 true ].


(** The store after [setProducer(kind, id)] on a controller that has nothing
    to stop: the armed timer, if any, is cleared; the slot, the observer and
    a new timer are set. *)
Definition after_clear (s : store) : store :=
  match s.(restartTimeout) with
  | Some t =>
      set_restartTimeout None
        (set_timers (remove_nat t s.(timers)) (emit (CClearTimer t) s))
  | None => s
  end.

Definition after_arm (s : store) : store :=
  let t := s.(fresh) in
  set_restartTimeout (Some t)
    (set_timers (s.(timers) ++ [t]) (set_fresh (S t) (emit (CSetTimer t) s))).

Definition set_slot (kind : Kind) (v : option nat) (s : store) : store :=
  match kind with
  | video => set_videoProducer v s
  | audio => set_audioProducer v s
  end.

Definition get_slot (kind : Kind) (s : store) : option nat :=
  match kind with
  | video => s.(videoProducer)
  | audio => s.(audioProducer)
  end.

Definition after_setProducer (kind : Kind) (id : nat) (s : store) : store :=
  let s1 := set_slot kind (Some id) (after_clear s) in
  after_arm (set_observers (s1.(observers) ++ [(kind, id)]) s1).

(** No debounce timer is armed except the one the manager remembers. *)
Definition timers_tracked (s : store) : Prop :=
  forall t, In t s.(timers) -> s.(restartTimeout) = Some t.

(** ** Invariants of the event loop *)

(** The role in which a continuation runs, which bounds what it may do to the
    start promise and to the subprocess handle until its next [await]. *)
Inductive mode : Type :=
| MSci                (* the start itself: the call that settles the promise *)
| MMacro              (* first stretch after an external event *)
| MMicro              (* resumed by a tick, or running after a dropped call *)
| MSettled            (* resumed by the settlement of the start promise *)
| MOwes (i : nat).    (* has started the start [i] and must record it *)

Definition flag_implies_producers (s : store) : Prop :=
  s.(isConverterRunning) = true ->
  s.(videoProducer) <> None /\ s.(audioProducer) <> None.

Definition alive_is_handle (s : store) : Prop :=
  forall p, status_of p s.(procs) = Some Alive -> s.(ffmpegProcess) = Some p.

(** What holds of the store whenever no continuation is running. *)
Definition at_rest (s : store) : Prop :=
  s.(isConverterRunning) = false /\ alive_is_handle s.

Definition seg_end (m : mode) (s : store) : Prop :=
  at_rest s /\
  match m with
  | MOwes i => s.(converterStartPromise) = Some i
  | _ => True
  end.

Definition keeps_null (s s' : store) : Prop :=
  s.(ffmpegProcess) = None -> s'.(ffmpegProcess) = None.

Definition write_ok (m : mode) (s s' : store) : Prop :=
  flag_implies_producers s' /\ s.(fresh) <= s'.(fresh) /\
  match m with
  | MSci => s'.(converterStartPromise) = s.(converterStartPromise)
  | MMacro | MMicro =>
      s'.(converterStartPromise) = s.(converterStartPromise) /\ keeps_null s s'
  | MSettled =>
      (s'.(converterStartPromise) = s.(converterStartPromise) \/
       s'.(converterStartPromise) = None) /\ keeps_null s s'
  | MOwes i =>
      (s'.(converterStartPromise) = s.(converterStartPromise) \/
       s'.(converterStartPromise) = Some i) /\ keeps_null s s'
  end.

Definition await_ok (m : mode) (w : wait) (s : store) : Prop :=
  match w with
  | WPromise p => m <> MSci /\ s.(converterStartPromise) = Some p
  | _ => True
  end.

Definition next_mode (m : mode) (w : wait) : mode :=
  match m with
  | MSci => MSci
  | _ =>
      match w with
      | WTick => MMicro
      | WPromise _ => MSettled
      | _ => MMacro
      end
  end.

(** What a continuation may assume of the store it is resumed with, [s] being
    the store it was suspended with: the start relies on nobody else filling
    the subprocess handle. *)
Definition resume_ok (m : mode) (s s' : store) : Prop :=
  at_rest s' /\
  match m with
  | MSci => keeps_null s s'
  | _ => True
  end.

Definition Qtop (m : mode) (_ : bool) (s : store) : Prop := seg_end m s.

Definition bump (s : store) : store := set_fresh (S s.(fresh)) s.

Definition store_after (p : prog) (s : store) : store := fst (fst (exec p s)).

(** [safe m p s Q]: run in role [m] from store [s], the program [p] stays
    within its role at every write, leaves the store in order at every
    [await], and meets [Q] when it completes; and so does each of its
    continuations, whatever store within [resume_ok] it is resumed with. *)
Fixpoint safe (m : mode) (p : prog) (s : store)
    (Q : mode -> bool -> store -> Prop) : Prop :=
  match p with
  | Ret => Q m true s
  | Throw => Q m false s
  | Read k => safe m (k s) s Q
  | Write f k => write_ok m s (f s) /\ safe m k (f s) Q
  | Await w k =>
      seg_end m s /\ await_ok m w s /\
      forall a s', answer_ok w a -> resume_ok m s s' ->
        safe (next_mode m w) (k a) s' Q
  | Fork b k =>
      m = MMacro /\ s.(converterStartPromise) = None /\
      keeps_null s (store_after b (bump s)) /\
      safe MSci b (bump s) Qtop /\
      safe (MOwes s.(fresh)) (k s.(fresh)) (store_after b (bump s)) Q
  | Detach b k =>
      (m = MMacro \/ m = MMicro \/ m = MSettled) /\
      safe m b s Qtop /\
      safe MMicro k (store_after b s) Q
  end.

(** The stores a program goes through up to its next [await]. *)
Fixpoint visited (p : prog) (s : store) : list store :=
  match p with
  | Ret | Throw | Await _ _ => [s]
  | Read k => visited (k s) s
  | Write f k => s :: visited k (f s)
  | Fork b k =>
      s :: visited b (bump s) ++ visited (k s.(fresh)) (store_after b (bump s))
  | Detach b k => visited b s ++ visited k (store_after b s)
  end.

(** A continuation that can be resumed in role [m]; [B] is what the start
    knew about the subprocess handle when it was suspended. *)
Definition cont_ok (m : mode) (B : Prop) (c : prog) : Prop :=
  forall s', at_rest s' -> (m = MSci -> B -> s'.(ffmpegProcess) = None) ->
    safe m c s' Qtop.

Definition tag_of (o : option nat) : list nat :=
  match o with Some i => [i] | None => [] end.

Definition tags (w : world) : list nat :=
  flat_map (fun r => tag_of r.(r_settles)) w.(queue)
  ++ flat_map (fun t => tag_of t.(t_settles)) w.(blocked).

Definition thread_tags (l : list thread) : list nat :=
  flat_map (fun t => tag_of t.(th_settles)) l.

Definition is_macro_wait (w : wait) : Prop :=
  match w with
  | WTick | WPromise _ => False
  | _ => True
  end.

Definition ready_ok (s : store) (notag : Prop) (r : ready) : Prop :=
  match r.(r_settles) with
  | Some _ =>
      exists B : Prop, (B -> s.(ffmpegProcess) = None) /\ cont_ok MSci B r.(r_prog)
  | None =>
      cont_ok MMicro True r.(r_prog) \/
      (notag /\ cont_ok MSettled True r.(r_prog))
  end.

Definition task_ok (s : store) (t : task) : Prop :=
  match t.(t_settles) with
  | Some _ =>
      is_macro_wait t.(t_wait) /\
      exists B : Prop,
        (B -> s.(ffmpegProcess) = None) /\
        forall a, answer_ok t.(t_wait) a -> cont_ok MSci B (t.(t_k) a)
  | None =>
      t.(t_wait) <> WTick /\
      forall a, answer_ok t.(t_wait) a ->
        cont_ok (next_mode MMicro t.(t_wait)) True (t.(t_k) a)
  end.

(** At most one start is in flight, and the manager holds its promise. *)
Definition one_start (l : list nat) (s : store) : Prop :=
  l = [] \/ exists i, l = [i] /\ s.(converterStartPromise) = Some i.

(** The invariant of the loop; [X] lists the promises of starts that are
    running or being filed at the moment, and so are in neither list. *)
Record GInv (X : list nat) (w : world) : Prop := mkGInv {
  g_tags : one_start (X ++ tags w) w.(st);
  g_pending : forall i, In i (X ++ tags w) -> outcome_of i w.(settled) = None;
  g_fresh_tags : forall i, In i (X ++ tags w) -> i < w.(st).(fresh);
  g_fresh_settled :
    forall i, outcome_of i w.(settled) <> None -> i < w.(st).(fresh);
  g_queue : Forall (ready_ok w.(st) (X ++ tags w = [])) w.(queue);
  g_blocked : Forall (task_ok w.(st)) w.(blocked)
}.

Definition Inv (w : world) : Prop := at_rest w.(st) /\ GInv [] w.

(** Two stores that differ at most in the count of unhandled rejections. *)
Definition same_core (s s' : store) : Prop :=
  s' = s \/ s' = set_unhandled (S s.(unhandled)) s.

(** Runs in which no subprocess exit is delivered. *)
Definition no_exit (e : event) : bool :=
  match e with
  | EvProcExit _ => false
  | _ => true
  end.

Inductive reachable : world -> Prop :=
| reach_init : reachable init_world
| reach_micro : forall w w', reachable w -> micro w = Some w' -> reachable w'
| reach_event : forall e w w',
    reachable w -> no_exit e = true -> handle e w = Some w' -> reachable w'.

(** The stores the next step from [w] goes through. *)
Definition passes (w : world) (x : store) : Prop :=
  x = w.(st) \/
  (exists r q, w.(queue) = r :: q /\ In x (visited r.(r_prog) w.(st))) \/
  (exists e r w0,
     w.(queue) = [] /\ no_exit e = true /\ event_task e w = Some (r, w0) /\
     In x (visited r.(r_prog) w0.(st))).

(** What happened during one stretch, as far as the start promise goes. *)
Definition summary (m m' : mode) (s s' : store) (ths : list thread) : Prop :=
  match m with
  | MSci =>
      m' = MSci /\
      s'.(converterStartPromise) = s.(converterStartPromise) /\ ths = []
  | MMicro =>
      m' = MMicro /\
      s'.(converterStartPromise) = s.(converterStartPromise) /\
      thread_tags ths = []
  | MSettled =>
      (m' = MSettled \/ m' = MMicro) /\
      (s'.(converterStartPromise) = s.(converterStartPromise) \/
       s'.(converterStartPromise) = None) /\
      thread_tags ths = []
  | MOwes i =>
      m' = MOwes i /\
      (s'.(converterStartPromise) = s.(converterStartPromise) \/
       s'.(converterStartPromise) = Some i) /\
      thread_tags ths = []
  | MMacro =>
      ((m' = MMacro \/ m' = MMicro) /\
       s'.(converterStartPromise) = s.(converterStartPromise) /\
       thread_tags ths = [])
      \/
      (exists i,
         s.(fresh) <= i /\ i < s'.(fresh) /\
         s.(converterStartPromise) = None /\ thread_tags ths = [i] /\
         ((m' = MOwes i /\
           (s'.(converterStartPromise) = None \/
            s'.(converterStartPromise) = Some i)) \/
          (m' = MMicro /\ s'.(converterStartPromise) = Some i)))
  end.

(** A call left behind by a stretch that ended with store [s]. *)
Definition thread_ok (s : store) (t : thread) : Prop :=
  match t.(th_status) with
  | Blocked w k =>
      match t.(th_settles) with
      | Some _ =>
          (w = WTick \/ is_macro_wait w) /\
          exists B : Prop,
            (B -> s.(ffmpegProcess) = None) /\
            forall a, answer_ok w a -> cont_ok MSci B (k a)
      | None =>
          (forall p, w = WPromise p -> s.(converterStartPromise) = Some p) /\
          forall a, answer_ok w a -> cont_ok (next_mode MMicro w) True (k a)
      end
  | _ => True
  end.

(** How a stretch run in role [m'] may end. *)
Definition res_ok (m' : mode) (Q : mode -> bool -> store -> Prop)
    (res : status) (s' : store) : Prop :=
  match res with
  | Done => Q m' true s'
  | Failed => Q m' false s'
  | Blocked w k =>
      seg_end m' s' /\ await_ok m' w s' /\
      forall a s'', answer_ok w a -> resume_ok m' s' s'' ->
        safe (next_mode m' w) (k a) s'' Q
  end.

(** The roles of calls other than the start that owe nothing. *)
Definition plain (m : mode) : Prop := m = MMacro \/ m = MMicro \/ m = MSettled.

(** Two stores that agree on what the invariant looks at. *)
Definition core_eq (s s' : store) : Prop :=
  s'.(converterStartPromise) = s.(converterStartPromise) /\
  s'.(ffmpegProcess) = s.(ffmpegProcess) /\
  s'.(fresh) = s.(fresh) /\
  s'.(isConverterRunning) = s.(isConverterRunning) /\
  s'.(procs) = s.(procs).

(** ** config.ts *)

Module Config.

Local Open Scope string_scope.

(** The numbers [validateConfig] reads from the [config] object. *)
Record Settings : Type := mkSettings {
  rtcMinPort : Z;
  rtcMaxPort : Z;
  videoPort : Z;
  audioPort : Z;
  segmentDuration : Z
}.

Definition config : Settings := mkSettings 10000 10200 5004 5006 2.

(** The array [errors] when the three tests have run. *)
Definition errors (c : Settings) : list string :=
  ((if (c.(rtcMinPort) >=? c.(rtcMaxPort))%Z
    then ["RTC min port must be less than max port"] else [])
   ++ (if (c.(videoPort) =? c.(audioPort))%Z
       then ["Video and audio ports must be different"] else [])
   ++ (if (c.(segmentDuration) <? 1)%Z || (c.(segmentDuration) >? 10)%Z
       then ["HLS segment duration should be between 1-10 seconds"] else []))%list.

(** [inr msg] stands for the [Error] thrown, with its message. *)
Definition validateConfig (c : Settings) : unit + string :=
  match errors c with
  | [] => inl tt
  | es => inr ("Configuration errors: " ++ String.concat ", " es)
  end.

End Config.

(** ** The first revision of index.ts and rtp-to-hls.ts *)

Module Legacy.

(** [hlsProducers], [isHlsConverterStarted], and the calls of
    [startRtpToHlsConverter] made so far, with the producers passed. *)
Record hls : Type := mkHls {
  hlsProducers_video : option nat;
  hlsProducers_audio : option nat;
  isHlsConverterStarted : bool;
  starts : list (nat * nat)
}.

Definition init : hls := mkHls None None false [].

(** The [produce] handler from [producers.set] on, for the producer [id] that
    [transport.produce] gave back; there is no [await] in this part. *)
Definition on_produce (kind : Kind) (id : nat) (s : hls) : hls :=
  let s1 :=
    match kind, s.(hlsProducers_video) with
    | video, None =>
        mkHls (Some id) s.(hlsProducers_audio) s.(isHlsConverterStarted) s.(starts)
    | _, _ => s
    end in
  let s2 :=
    match kind, s1.(hlsProducers_audio) with
    | audio, None =>
        mkHls s1.(hlsProducers_video) (Some id) s1.(isHlsConverterStarted) s1.(starts)
    | _, _ => s1
    end in
  match s2.(hlsProducers_video), s2.(hlsProducers_audio), s2.(isHlsConverterStarted) with
  | Some v, Some a, false =>
      mkHls (Some v) (Some a) true (s2.(starts) ++ [(v, a)])
  | _, _, _ => s2
  end.

Definition produce_all (l : list (Kind * nat)) (s : hls) : hls :=
  fold_left (fun s e => on_produce (fst e) (snd e) s) l s.

Definition is_kind (k : Kind) (e : Kind * nat) : bool :=
  match k, fst e with
  | video, video | audio, audio => true
  | _, _ => false
  end.

(** The first producer of kind [k] in a list of producers. *)
Definition first_of (k : Kind) (l : list (Kind * nat)) : option nat :=
  option_map snd (find (is_kind k) l).

(** Either the converter was started, once, with the two producers held, or
    a slot is empty and it was not. *)
Definition wf (s : hls) : Prop :=
  isHlsConverterStarted s
  = is_some (hlsProducers_video s) && is_some (hlsProducers_audio s) /\
  starts s = match hlsProducers_video s, hlsProducers_audio s with
             | Some v, Some a => [(v, a)]
             | _, _ => []
             end.

Definition or_else (o o' : option nat) : option nat :=
  match o with Some _ => o | None => o' end.

(** [s.split(c)] for a one-character separator. *)
Fixpoint split_on (c : ascii) (s : string) : list string :=
  match s with
  | EmptyString => [EmptyString]
  | String d r =>
      if Ascii.eqb d c then EmptyString :: split_on c r
      else
        match split_on c r with
        | [] => [String d EmptyString]
        | h :: t => String d h :: t
        end
  end.

Fixpoint has_char (c : ascii) (s : string) : bool :=
  match s with
  | EmptyString => false
  | String d r => Ascii.eqb d c || has_char c r
  end.

Local Open Scope string_scope.

(** The array [options] of [runFfmpeg], and what [spawn] is given:
    [options.join(" ").split(" ")]. *)
Definition options : list string :=
  [ "-protocol_whitelist"; "file,udp,rtp";
    "-analyzeduration"; "5000000";
    "-probesize"; "10000000";
    "-re"; "-i"; "./public/hls/stream.sdp";
    "-c:v"; "libx264"; "-preset"; "ultrafast"; "-tune"; "zerolatency";
    "-c:a"; "aac";
    "-hls_time"; "2"; "-hls_list_size"; "5";
    "-hls_flags"; "delete_segments";
    "./public/hls/stream.m3u8" ].

Definition spawn_args (opts : list string) : list string :=
  split_on " "%char (String.concat " " opts).

End Legacy.

(** * Properties *)

(** ** The session description *)

Module SdpFacts.
Import Sdp.
Local Open Scope string_scope.

Lemma truthy_app (a b : string) : truthy a = true -> truthy (a ++ b) = true.
Proof. destruct a; simpl; [discriminate | reflexivity]. Qed.

Lemma truthy_pair (k r : string) : truthy (k ++ "=" ++ r) = true.
Proof. destruct k; reflexivity. Qed.

Lemma truthy_concat (sep x : string) (l : list string) :
  truthy x = true -> truthy (String.concat sep (x :: l)) = true.
Proof.
  intros H. destruct l as [|y l]; simpl; [exact H | now apply truthy_app].
Qed.

Lemma formatParams_truthy (c : Codec) :
  truthy (formatParams c.(parameters)) = declares_params c.
Proof.
  unfold declares_params, formatParams.
  destruct (parameters c) as [[|[k v] l]|]; try reflexivity.
  cbn [map fst]. apply truthy_concat, truthy_pair.
Qed.

Lemma fmtp_cases (c : Codec) :
  fmtp c = if declares_params c
           then ["a=fmtp:" ++ num c.(payloadType) ++ " " ++ formatParams c.(parameters)]
           else [].
Proof. unfold fmtp. now rewrite formatParams_truthy. Qed.

Lemma existsb_fmtp (c : Codec) : existsb is_fmtp (fmtp c) = declares_params c.
Proof.
  rewrite fmtp_cases. destruct (declares_params c); [|reflexivity].
  unfold is_fmtp. cbn.
  now destruct (num (payloadType c) ++ _).
Qed.

Lemma filter_fmtp (c : Codec) :
  List.length (filter is_fmtp (fmtp c)) = Nat.b2n (declares_params c).
Proof.
  rewrite fmtp_cases. destruct (declares_params c); [|reflexivity].
  unfold is_fmtp. cbn.
  now destruct (num (payloadType c) ++ _).
Qed.

Lemma header_no_fmtp (v : Endpoint) (vc : Codec) :
  filter is_fmtp (header v vc) = [].
Proof. reflexivity. Qed.

(** C8 (total, deterministic synthesis).  Whenever each consumer carries at
    least one codec, [createSdpString] returns a text and does not raise; and
    the text is a function of the two endpoints alone: a second call on equal
    endpoints returns the same characters. *)
Theorem createSdpString_total_deterministic (v a : Endpoint) :
  v.(codecs) <> [] -> a.(codecs) <> [] ->
  exists text,
    createSdpString v a = Some text /\
    forall v' a', v' = v -> a' = a -> createSdpString v' a' = Some text.
Proof.
  intros Hv Ha. unfold createSdpString.
  destruct (codecs v) as [|vc vr] eqn:Ev; [congruence|].
  destruct (codecs a) as [|ac ar] eqn:Ea; [congruence|].
  eexists; split; [reflexivity|].
  intros v' a' -> ->. now rewrite Ev, Ea.
Qed.

Lemma createSdpString_total_deterministic_witness :
  exists text,
    createSdpString
      (mkEndpoint 5004 [mkCodec "video/VP8" 101 90000 None
                          (Some [("x-google-start-bitrate", PNum 1000)])])
      (mkEndpoint 5006 [mkCodec "audio/opus" 100 48000 (Some 2%N) None])
    = Some text.
Proof.
  destruct (createSdpString_total_deterministic
              (mkEndpoint 5004 [mkCodec "video/VP8" 101 90000 None
                                  (Some [("x-google-start-bitrate", PNum 1000)])])
              (mkEndpoint 5006 [mkCodec "audio/opus" 100 48000 (Some 2%N) None]))
    as [text [H _]].
  - simpl; discriminate.
  - simpl; discriminate.
  - exists text; exact H.
Defined.

(** The earlier revision of the function prints both [a=fmtp:] lines whatever
    the codecs declare, and prints a missing channel count as [undefined]. *)
Example createSdpString_v1_no_params :
  createSdpString_v1 (Some 5004%N) (Some 5006%N)
    [mkCodec "video/VP8" 101 90000 None (Some [])]
    [mkCodec "audio/opus" 100 48000 None (Some [])]
  = Some (lf ++ "v=0" ++ lf ++ "o=- 0 0 IN IP4 127.0.0.1" ++ lf
          ++ "s=Mediasoup Stream" ++ lf ++ "c=IN IP4 127.0.0.1" ++ lf
          ++ "t=0 0" ++ lf ++ "m=video 5004 RTP/AVP 101" ++ lf
          ++ "a=rtpmap:101 VP8/90000" ++ lf ++ "a=fmtp:101 " ++ lf
          ++ "a=sendonly" ++ lf ++ "m=audio 5006 RTP/AVP 100" ++ lf
          ++ "a=rtpmap:100 opus/48000/undefined" ++ lf ++ "a=fmtp:100 " ++ lf
          ++ "a=sendonly" ++ lf ++ "  ").
Proof. reflexivity. Qed.

End SdpFacts.

(** ** Contracts of single calls *)

Section PostLemmas.
Variable R : store -> store -> Prop.

Lemma post_weaken (p : prog) : forall s (Q Q' : bool -> store -> Prop),
  (forall b s', Q b s' -> Q' b s') -> post R p s Q -> post R p s Q'.
Proof.
  induction p; simpl; intros; eauto.
Qed.

(** Sequencing: the second call starts where the first returned. *)
Lemma post_seq (p q : prog) : forall s (Q : bool -> store -> Prop),
  post R p s (fun b s' => if b then post R q s' Q else Q false s') ->
  post R (p ;; q) s Q.
Proof.
  induction p; simpl; intros; eauto.
Qed.

Lemma post_try_catch (p h : prog) : forall s (Q : bool -> store -> Prop),
  post R p s (fun b s' => if b then Q true s' else post R h s' Q) ->
  post R (try_catch p h) s Q.
Proof.
  induction p; simpl; intros; eauto.
Qed.

Lemma post_try_finally (p f : prog) : forall s (Q : bool -> store -> Prop),
  post R p s (fun b s' =>
    if b then post R f s' Q
    else post R f s' (fun _ s'' => Q false s'')) ->
  post R (try_finally p f) s Q.
Proof.
  induction p; simpl; intros; eauto.
  apply post_seq. eapply post_weaken; [|eassumption].
  intros [] s' Hq; simpl; exact Hq.
Qed.

Lemma post_await_call (f : prog) : forall s (Q : bool -> store -> Prop),
  post R f s (fun b s' => forall s'', R s' s'' -> Q b s'') ->
  post R (await_call f) s Q.
Proof.
  intros. unfold await_call. apply post_try_catch, post_seq.
  eapply post_weaken; [|eassumption].
  intros [] s' Hq; simpl; intros; auto.
Qed.
End PostLemmas.



Lemma only_clears_refl (s : store) : only_clears s s.
Proof. unfold only_clears, cleared_or_same; auto 10. Qed.







(** ** The controller, call by call *)

(** Without an audio producer [tryStartConverter] only logs. *)
Lemma tryStart_without_audio (s : store) :
  s.(audioProducer) = None ->
  exec tryStartConverter s = (emit CNotStarting (emit CTryStart s), [], Done).
Proof.
  intros H. unfold tryStartConverter, say. cbn. rewrite H.
  now rewrite !orb_true_r.
Qed.

(** The audio producer closes while a subprocess runs and the video producer
    stays: the observer leaves the subprocess alone. *)
Lemma audio_close_keeps_subprocess :
  exists w,
    run 50 (scenario_running ++ [EvTransportClose 101]) init_world = Some w /\
    w.(st).(videoProducer) = Some 100 /\
    w.(st).(audioProducer) = None /\
    w.(st).(ffmpegProcess) = Some 7 /\
    status_of 7 w.(st).(procs) = Some Alive /\
    count_call is_kill w.(st).(trace) = 0 /\
    w.(queue) = [] /\ w.(blocked) = [].
Proof.
  eexists. split; [vm_compute; reflexivity|].
  repeat split.
Qed.

(** C3, as the code has it.  When the audio producer closes while the video
    producer is tracked, the observer clears the audio slot and does nothing
    else: no call is started, the subprocess handle and the process table are
    as before; and as long as the audio slot is empty a start attempt only
    logs that it does not start. *)
Theorem audio_close_clears_slot_only (s : store) (v a : nat) :
  s.(videoProducer) = Some v ->
  s.(audioProducer) = Some a ->
  exec (onTransportClose audio a) s = (set_audioProducer None s, [], Done) /\
  (set_audioProducer None s).(ffmpegProcess) = s.(ffmpegProcess) /\
  (set_audioProducer None s).(procs) = s.(procs) /\
  (set_audioProducer None s).(trace) = s.(trace) /\
  forall s',
    s'.(audioProducer) = None ->
    exec tryStartConverter s' = (emit CNotStarting (emit CTryStart s'), [], Done).
Proof.
  intros Hv Ha. split; [|repeat split; auto using tryStart_without_audio].
  unfold onTransportClose, write. cbn. rewrite Ha. cbn.
  rewrite Nat.eqb_refl. cbn. now rewrite Hv.
Qed.

Lemma audio_close_clears_slot_only_witness :
  exec (onTransportClose audio 101)
       (set_audioProducer (Some 101) (set_videoProducer (Some 100) init_store))
  = (set_videoProducer (Some 100) init_store, [], Done).
Proof.
  destruct (audio_close_clears_slot_only
              (set_audioProducer (Some 101) (set_videoProducer (Some 100) init_store))
              100 101 eq_refl eq_refl) as [H _].
  exact H.
Defined.

(** [stopHlsConverter] does not touch the manager. *)
Lemma stopHlsConverter_keeps_manager (s : store) :
  post settles_only stopHlsConverter s
    (fun ok s' =>
       ok = true /\
       (s.(isConverterRunning) = false -> s'.(isConverterRunning) = false) /\
       (s.(converterStartPromise) = None -> s'.(converterStartPromise) = None)).
Proof.
  unfold stopHlsConverter, say, write, tick, kill. cbn.
  repeat match goal with
  | |- forall _, _ => intro
  | H : settles_only _ _ |- _ => destruct H; cbn in *
  | |- context [match ?x with _ => _ end] =>
      match type of x with
      | option _ => destruct x eqn:?
      end; cbn in *
  end; repeat split; auto 10.
Qed.

Lemma stopConverter_idle (s : store) :
  s.(isConverterRunning) = false ->
  s.(converterStartPromise) = None ->
  exec stopConverter s = (s, [], Done).
Proof.
  intros Hr Hp. unfold stopConverter. cbn. now rewrite Hr, Hp.
Qed.

Lemma stopConverter_post (s : store) :
  post settles_only stopConverter s
    (fun ok s' =>
       ok = true /\ s'.(isConverterRunning) = false /\
       s'.(converterStartPromise) = None).
Proof.
  unfold stopConverter. cbn [post].
  destruct (negb (isConverterRunning s) && negb (is_some (converterStartPromise s)))
    eqn:G.
  - cbn. apply andb_prop in G as [G1 G2].
    destruct (isConverterRunning s); [discriminate|].
    destruct (converterStartPromise s); [discriminate|]. auto.
  - apply post_seq. unfold say at 1. cbn [post].
    apply post_seq. unfold write at 1. cbn [post].
    apply post_seq.
    assert (tail : forall s1,
      s1.(isConverterRunning) = false -> s1.(converterStartPromise) = None ->
      post settles_only (try_catch (await_call stopHlsConverter) Ret) s1
        (fun ok s' => ok = true /\ s'.(isConverterRunning) = false /\
                      s'.(converterStartPromise) = None)).
    { intros s1 H1 H2. apply post_try_catch, post_await_call.
      eapply post_weaken; [|apply stopHlsConverter_keeps_manager].
      cbn. intros b s2 (-> & K1 & K2) s3 [L1 L2]. auto. }
    assert (mid : forall s1,
      s1.(isConverterRunning) = false ->
      post settles_only
        (Read (fun s => match s.(converterStartPromise) with
                        | Some p => try_catch (await_promise p) Ret ;;
                                    write (set_startPromise None)
                        | None => Ret
                        end) ;;
         try_catch (await_call stopHlsConverter) Ret) s1
        (fun ok s' => ok = true /\ s'.(isConverterRunning) = false /\
                      s'.(converterStartPromise) = None)).
    { intros s1 H1. apply post_seq. cbn [post].
      destruct (converterStartPromise s1) eqn:E.
      - apply post_seq, post_try_catch. unfold await_promise. cbn [post].
        intros a s2 _ [L1 _].
        destruct a; cbn [post]; unfold write; cbn [post]; apply tail; cbn; auto.
      - cbn [post]. apply tail; auto. }
    unfold clearRestartTimeout. cbn [post].
    destruct (restartTimeout _); unfold write; cbn [post seq]; apply mid; reflexivity.
Qed.

(** C5 (idempotent stop).  On a controller that is not running and has no
    start in flight, [stopConverter] returns at once: it changes nothing and
    calls nothing.  And whenever a [stopConverter] has completed, the
    controller is in such a state, so a second [stopConverter] right after it
    changes nothing and calls nothing. *)
Theorem stopConverter_idempotent (s : store) :
  (s.(isConverterRunning) = false -> s.(converterStartPromise) = None ->
   exec stopConverter s = (s, [], Done)) /\
  post settles_only stopConverter s
    (fun ok s' => ok = true /\ exec stopConverter s' = (s', [], Done)).
Proof.
  split; [apply stopConverter_idle|].
  eapply post_weaken; [|apply stopConverter_post].
  cbn. intros b s' (-> & H1 & H2). split; [reflexivity|].
  now apply stopConverter_idle.
Qed.

Lemma stopConverter_idempotent_witness :
  exec stopConverter init_store = (init_store, [], Done).
Proof.
  destruct (stopConverter_idempotent init_store) as [H _].
  apply H; reflexivity.
Defined.

(** The call that created the start promise catches its rejection: resumed
    with a rejection, whatever the store then is, it logs, lowers the flag,
    clears the promise and returns normally; the producer slots are not
    touched. *)
Lemma tryStart_catches_failed_start (s : store) (v a : nat) :
  s.(isConverterRunning) = false ->
  s.(videoProducer) = Some v -> s.(audioProducer) = Some a ->
  s.(converterStartPromise) = None ->
  exists s1 ths k,
    exec tryStartConverter s = (s1, ths, Blocked (WPromise s.(fresh)) k) /\
    forall s',
      exec (k Rejected) s'
      = (set_startPromise None (set_running false (emit CStartFailed s')), [], Done).
Proof.
  intros Hr Hv Ha Hp. unfold tryStartConverter, say, write.
  cbn -[startConverterInternal].
  rewrite Hr, Hv, Ha, Hp. cbn -[startConverterInternal].
  match goal with
  | |- context [exec startConverterInternal ?x] =>
      destruct (exec startConverterInternal x) as [[s1 t1] r1]
  end.
  cbn. do 3 eexists. split; [reflexivity|]. intros s'. reflexivity.
Qed.

(** C7 at the failing input.  A start is in flight when a second debounce
    timer fires; that second [tryStartConverter] returns the start promise
    itself.  When the router then refuses a transport, the first call catches
    the rejection, the second one passes it on to the timer callback, which
    has no handler: the run ends with one unhandled rejection.  The
    controller is not running and both producers are tracked. *)
Theorem second_caller_rejection_unhandled :
  exists w,
    run 50 scenario_second_caller init_world = Some w /\
    w.(st).(unhandled) = 1 /\
    outcome_of 2 w.(settled) = Some Rejected /\
    (getState w.(st)).(st_isConverterRunning) = false /\
    w.(st).(videoProducer) = Some 200 /\
    w.(st).(audioProducer) = Some 101 /\
    w.(queue) = [] /\ w.(blocked) = [].
Proof.
  eexists. split; [vm_compute; reflexivity|]. repeat split.
Qed.

(** A start that fails with a single caller: nothing is left unhandled. *)
Example failed_start_single_caller :
  exists w,
    run 50 scenario_failed_start init_world = Some w /\
    w.(st).(unhandled) = 0 /\
    outcome_of 2 w.(settled) = Some Rejected /\
    (getState w.(st)).(st_isConverterRunning) = false /\
    w.(st).(videoProducer) = Some 100 /\
    w.(st).(audioProducer) = Some 101 /\
    handles_null w.(st).
Proof.
  eexists. split; [vm_compute; reflexivity|]. repeat split.
Qed.

(** ** Debounce *)

(** On a controller that is not running and has no start in flight,
    [setProducer] completes within the event that called it. *)
Lemma produce_idle (s : store) (bl : list task) (sd : list (nat * answer))
    (kind : Kind) (id : nat) :
  s.(isConverterRunning) = false ->
  s.(converterStartPromise) = None ->
  run 10 [EvProduce kind id] (mkWorld s [] bl sd)
  = Some (mkWorld (after_setProducer kind id s) [] bl sd).
Proof.
  intros Hr Hp.
  unfold after_setProducer, after_clear, after_arm, set_slot.
  destruct kind, (restartTimeout s) as [t|] eqn:Et;
    repeat first
      [ progress cbn
      | progress unfold run_ready, dispatch_threads, dispatch, settle, enqueue
      | progress rewrite ?Et, ?Hr, ?Hp
      | match goal with
        | |- context [match videoProducer s with _ => _ end] =>
            destruct (videoProducer s) as [old|] eqn:?
        | |- context [match audioProducer s with _ => _ end] =>
            destruct (audioProducer s) as [old|] eqn:?
        | |- context [Nat.eqb ?a ?b] => destruct (Nat.eqb a b) eqn:?
        end ];
    reflexivity.
Qed.

Lemma drain_queue (f : nat) : forall w w', drain f w = Some w' -> w'.(queue) = [].
Proof.
  induction f; intros w w' H; simpl in H.
  - destruct (queue w) eqn:E; [injection H as <-; exact E | discriminate].
  - destruct (queue w) eqn:E; [injection H as <-; exact E|].
    destruct (micro w); [eauto | discriminate].
Qed.

Lemma drain_empty (f : nat) (w : world) : w.(queue) = [] -> drain f w = Some w.
Proof. intros E. destruct f; simpl; now rewrite E. Qed.

Lemma run_drain (f : nat) (es : list event) (w w' : world) :
  drain f w = Some w' -> run f es w = run f es w'.
Proof.
  intros H. pose proof (drain_queue _ _ _ H) as Q.
  destruct es; simpl; rewrite H, (drain_empty f _ Q); reflexivity.
Qed.

Lemma run_cons (f : nat) (e : event) (es : list event) (w w1 : world) :
  run f [e] w = Some w1 -> run f (e :: es) w = run f es w1.
Proof.
  simpl. destruct (drain f w); [|discriminate].
  destruct (handle e w0); [|discriminate].
  intros H. now apply run_drain.
Qed.

(** What the scheduler does with a call that stopped leaves the timers and
    the trace alone. *)
Lemma dispatch_store (r : status) (tag : option nat) (w : world) :
  (dispatch r tag w).(st) = w.(st) \/
  (dispatch r tag w).(st) = set_unhandled (S w.(st).(unhandled)) w.(st).
Proof.
  destruct r as [| |[] k], tag; cbn; auto;
    try (destruct (outcome_of _ _); cbn; auto).
Qed.

Lemma dispatch_timers_trace (r : status) (tag : option nat) (w : world) :
  (dispatch r tag w).(st).(timers) = w.(st).(timers) /\
  (dispatch r tag w).(st).(trace) = w.(st).(trace).
Proof. destruct (dispatch_store r tag w) as [-> | ->]; auto. Qed.

Lemma dispatch_threads_timers_trace (l : list thread) : forall w,
  (dispatch_threads l w).(st).(timers) = w.(st).(timers) /\
  (dispatch_threads l w).(st).(trace) = w.(st).(trace).
Proof.
  unfold dispatch_threads. induction l as [|t l IH]; intros w; simpl; [auto|].
  destruct (IH (dispatch (th_status t) (th_settles t) w)) as [-> ->].
  apply dispatch_timers_trace.
Qed.

(** One call of [tryStartConverter] logs one entry and arms no timer. *)
Lemma tryStart_counts_once (s : store) :
  (fst (fst (exec tryStartConverter s))).(timers) = s.(timers) /\
  count_call is_tryStart (fst (fst (exec tryStartConverter s))).(trace)
  = S (count_call is_tryStart s.(trace)).
Proof.
  destruct s as [r v a p rt ff tv ta cv ca tm ob pr fr sp wr mk un tr].
  destruct r, v, a, p, ff, tv, ta, cv, ca; vm_compute; split; reflexivity.
Qed.

Lemma remove_nat_all (t : nat) (l : list nat) :
  (forall x, In x l -> x = t) -> remove_nat t l = [].
Proof.
  induction l as [|y l IH]; intros H; simpl; [reflexivity|].
  rewrite (H y (or_introl eq_refl)), Nat.eqb_refl.
  apply IH. intros x Hx. apply H. now right.
Qed.

Lemma after_clear_timers (s : store) :
  timers_tracked s -> (after_clear s).(timers) = [].
Proof.
  unfold timers_tracked, after_clear. intros H.
  destruct (restartTimeout s) as [t|] eqn:E; cbn.
  - apply remove_nat_all. intros x Hx. apply H in Hx. congruence.
  - destruct (timers s) as [|x l]; [reflexivity|].
    specialize (H x (or_introl eq_refl)). discriminate.
Qed.

Lemma after_clear_trace (s : store) :
  count_call is_tryStart (after_clear s).(trace) = count_call is_tryStart s.(trace).
Proof. unfold after_clear. destruct (restartTimeout s); reflexivity. Qed.

Lemma after_clear_fields (s : store) :
  (after_clear s).(fresh) = s.(fresh) /\
  (after_clear s).(isConverterRunning) = s.(isConverterRunning) /\
  (after_clear s).(converterStartPromise) = s.(converterStartPromise).
Proof. unfold after_clear. destruct (restartTimeout s); auto. Qed.

Lemma after_setProducer_fields (kind : Kind) (id : nat) (s : store) :
  timers_tracked s ->
  let s' := after_setProducer kind id s in
  s'.(timers) = [s.(fresh)] /\ s'.(restartTimeout) = Some s.(fresh) /\
  s'.(fresh) = S s.(fresh) /\
  s'.(isConverterRunning) = s.(isConverterRunning) /\
  s'.(converterStartPromise) = s.(converterStartPromise) /\
  count_call is_tryStart s'.(trace) = count_call is_tryStart s.(trace).
Proof.
  intros H. pose proof (after_clear_timers s H) as Ht.
  pose proof (after_clear_trace s) as Hc.
  destruct (after_clear_fields s) as (Hf & Hr & Hp).
  unfold after_setProducer, after_arm, set_slot.
  destruct kind; cbn; rewrite Ht, Hf, Hr, Hp, Hc; auto 10.
Qed.

Lemma exec_on_timer (s : store) :
  exec on_timer s
  = (fst (fst (exec tryStartConverter s)),
     snd (fst (exec tryStartConverter s))
       ++ [mkThread (snd (exec tryStartConverter s)) None],
     Done).
Proof.
  unfold on_timer. cbn [exec].
  destruct (exec tryStartConverter s) as [[s1 t1] r1]. reflexivity.
Qed.

(** A timer that fires: one more [tryStartConverter], no timer armed by it. *)
Lemma timer_fires_once (w : world) :
  (run_ready (mkReady on_timer None) w).(st).(timers) = w.(st).(timers) /\
  count_call is_tryStart (run_ready (mkReady on_timer None) w).(st).(trace)
  = S (count_call is_tryStart w.(st).(trace)).
Proof.
  unfold run_ready. cbn [r_prog r_settles]. rewrite exec_on_timer.
  destruct (tryStart_counts_once (st w)) as [K1 K2].
  destruct (dispatch_timers_trace Done None
              (dispatch_threads
                 (snd (fst (exec tryStartConverter (st w)))
                    ++ [mkThread (snd (exec tryStartConverter (st w))) None])
                 (mkWorld (fst (fst (exec tryStartConverter (st w))))
                    (queue w) (blocked w) (settled w)))) as [-> ->].
  destruct (dispatch_threads_timers_trace
              (snd (fst (exec tryStartConverter (st w)))
                 ++ [mkThread (snd (exec tryStartConverter (st w))) None])
              (mkWorld (fst (fst (exec tryStartConverter (st w))))
                 (queue w) (blocked w) (settled w))) as [-> ->].
  cbn [st]. auto.
Qed.

Lemma handle_timer (w : world) (t : nat) :
  w.(queue) = [] ->
  existsb (Nat.eqb t) w.(st).(timers) = true ->
  handle (EvTimer t) w
  = Some (run_ready (mkReady on_timer None)
            (with_store (set_timers (remove_nat t w.(st).(timers)) w.(st)) w)).
Proof.
  intros Q E. unfold handle, event_task. now rewrite Q, E.
Qed.

Lemma two_produces_idle (s : store) (bl : list task)
    (sd : list (nat * answer)) (A B : nat) :
  s.(isConverterRunning) = false ->
  s.(converterStartPromise) = None ->
  timers_tracked s ->
  run 10 [EvProduce video A; EvProduce audio B] (mkWorld s [] bl sd)
  = Some (mkWorld (after_setProducer audio B (after_setProducer video A s))
            [] bl sd).
Proof.
  intros Hr Hp Ht.
  destruct (after_setProducer_fields video A s Ht) as (T1 & R1 & F1 & G1 & P1 & C1).
  rewrite (run_cons 10 (EvProduce video A) [EvProduce audio B] _ _
             (produce_idle s bl sd video A Hr Hp)).
  apply produce_idle; congruence.
Qed.

Lemma only_timer_fires (s2 : store) (bl : list task)
    (sd : list (nat * answer)) (t : nat) :
  timers s2 = [t] ->
  exists w3,
    handle (EvTimer t) (mkWorld s2 [] bl sd) = Some w3 /\
    w3.(st).(timers) = [] /\
    count_call is_tryStart w3.(st).(trace)
    = S (count_call is_tryStart s2.(trace)).
Proof.
  intros T2.
  eexists. split.
  { apply handle_timer; [reflexivity|].
    cbn [st]. rewrite T2. cbn [existsb]. now rewrite Nat.eqb_refl. }
  destruct (timer_fires_once
              (with_store (set_timers (remove_nat t (timers s2)) s2)
                 (mkWorld s2 [] bl sd))) as [K1 K2].
  cbn [st] in K1, K2 |- *. rewrite K1, K2.
  unfold with_store. cbn [st timers trace set_timers].
  rewrite T2. cbn [remove_nat]. rewrite Nat.eqb_refl.
  split; reflexivity.
Qed.

(** X18.  On a controller that is not running, has no start in flight and
    has no timer armed besides the one it remembers,
    [setProducer('video', A)] followed by [setProducer('audio', B)] before any
    timer fires leaves exactly one timer armed: the first call's timer has
    been cancelled by the second.  Neither call has invoked
    [tryStartConverter]; when the one timer fires it is invoked once, and no
    timer remains. *)
Theorem debounce_coalesces (s : store) (bl : list task)
    (sd : list (nat * answer)) (A B : nat) :
  s.(isConverterRunning) = false ->
  s.(converterStartPromise) = None ->
  timers_tracked s ->
  exists w2,
    run 10 [EvProduce video A; EvProduce audio B] (mkWorld s [] bl sd) = Some w2 /\
    w2.(queue) = [] /\
    w2.(st).(timers) = [S s.(fresh)] /\
    w2.(st).(restartTimeout) = Some (S s.(fresh)) /\
    count_call is_tryStart w2.(st).(trace) = count_call is_tryStart s.(trace) /\
    exists w3,
      handle (EvTimer (S s.(fresh))) w2 = Some w3 /\
      w3.(st).(timers) = [] /\
      count_call is_tryStart w3.(st).(trace)
      = S (count_call is_tryStart s.(trace)).
Proof.
  intros Hr Hp Ht.
  destruct (after_setProducer_fields video A s Ht) as (T1 & R1 & F1 & G1 & P1 & C1).
  assert (Ht1 : timers_tracked (after_setProducer video A s)).
  { intros t Hin. rewrite T1 in Hin. destruct Hin as [<-|[]]. exact R1. }
  destruct (after_setProducer_fields audio B _ Ht1) as (T2 & R2 & F2 & G2 & P2 & C2).
  rewrite F1 in T2, R2. rewrite C1 in C2.
  eexists. split; [now apply two_produces_idle|].
  split; [reflexivity|]. split; [exact T2|]. split; [exact R2|].
  split; [exact C2|].
  destruct (only_timer_fires _ bl sd _ T2) as (w3 & H3 & T3 & C3).
  exists w3. split; [exact H3|]. split; [exact T3|].
  rewrite C3. now rewrite C2.
Qed.

Lemma debounce_coalesces_witness :
  exists w2,
    run 10 [EvProduce video 100; EvProduce audio 101] init_world = Some w2 /\
    w2.(st).(timers) = [1].
Proof.
  destruct (debounce_coalesces init_store [] [] 100 101 eq_refl eq_refl)
    as (w2 & H & _ & T & _).
  - intros t [].
  - exists w2. split; [exact H | exact T].
Defined.

(** ** One stretch of a safe program *)

Lemma summary_refl (m : mode) (s : store) : summary m m s s [].
Proof. destruct m; cbn; auto 10. Qed.

Lemma summary_write (m m' : mode) (s s1 s' : store) (ths : list thread) :
  write_ok m s s1 -> summary m m' s1 s' ths -> summary m m' s s' ths.
Proof.
  unfold write_ok. intros (_ & Hf & Hw) Hs. destruct m; cbn in *.
  - destruct Hs as (-> & E & ->). repeat split; congruence.
  - destruct Hw as [Hp _].
    destruct Hs as [(M & E & T)|(i & L1 & L2 & N & T & R)].
    + left. repeat split; auto; congruence.
    + right. exists i. repeat split; auto; [lia | congruence].
  - destruct Hw as [Hp _]. destruct Hs as (-> & E & T).
    repeat split; auto; congruence.
  - destruct Hw as [Hp _]. destruct Hs as (M & E & T).
    repeat split; auto.
    destruct Hp, E; first [left; congruence | right; congruence].
  - destruct Hw as [Hp _]. destruct Hs as (M & E & T).
    repeat split; auto.
    destruct Hp, E; first [left; congruence | right; congruence].
Qed.

Lemma write_keeps_null (m : mode) (s s' : store) :
  write_ok m s s' -> m <> MSci -> keeps_null s s'.
Proof.
  unfold write_ok. intros (_ & _ & H) N. destruct m; try tauto.
Qed.

Lemma keeps_null_trans (a b c : store) :
  keeps_null a b -> keeps_null b c -> keeps_null a c.
Proof. unfold keeps_null; auto. Qed.

Lemma thread_ok_transfer (s1 s2 : store) (t : thread) :
  keeps_null s1 s2 ->
  s2.(converterStartPromise) = s1.(converterStartPromise) ->
  thread_ok s1 t -> thread_ok s2 t.
Proof.
  unfold thread_ok, keeps_null. intros K E.
  destruct (th_status t) as [| |w k]; auto.
  destruct (th_settles t).
  - intros (Hw & B & HB & Hc). split; [exact Hw|]. exists B. auto.
  - intros (Hp & Hc). split; [|exact Hc]. intros p Ep. rewrite E. auto.
Qed.

Lemma next_mode_untagged (m : mode) (w : wait) :
  m <> MSci -> next_mode m w = next_mode MMicro w.
Proof. destruct m; [congruence| | | |]; reflexivity. Qed.

(** A stretch that ends blocked leaves a call the loop can take back. *)
Lemma blocked_thread_ok (m' : mode) (s1 s2 : store) (w : wait)
    (k : answer -> prog) (tag : option nat) :
  res_ok m' Qtop (Blocked w k) s1 ->
  (tag <> None <-> m' = MSci) ->
  keeps_null s1 s2 ->
  (m' <> MSci -> s2.(converterStartPromise) = s1.(converterStartPromise)) ->
  thread_ok s2 (mkThread (Blocked w k) tag).
Proof.
  intros (Hs & Ha & Hh) Ht K E. unfold thread_ok. cbn [th_status th_settles].
  destruct tag as [i|].
  - assert (M : m' = MSci) by (apply Ht; discriminate). subst m'.
    split.
    + destruct w; cbn in *; auto. destruct Ha as [Ha _]. congruence.
    + exists (ffmpegProcess s1 = None). split; [exact K|].
      intros a Ok s'' R HB. apply (Hh a s'' Ok). split; [exact R|].
      cbn. intros N. now apply HB.
  - assert (M : m' <> MSci) by (intros ->; destruct Ht as [_ Ht]; now apply Ht).
    split.
    + intros p ->. cbn in Ha. rewrite (E M). tauto.
    + intros a Ok s'' R _. rewrite <- (next_mode_untagged m' w M).
      apply (Hh a s'' Ok). split; [exact R|]. destruct m'; auto. congruence.
Qed.

Lemma res_ok_seg_end (m' : mode) (r : status) (s : store) :
  res_ok m' Qtop r s -> seg_end m' s.
Proof. destruct r; cbn; unfold Qtop; tauto. Qed.

Lemma thread_tags_app (a b : list thread) :
  thread_tags (a ++ b) = thread_tags a ++ thread_tags b.
Proof. unfold thread_tags. apply flat_map_app. Qed.

Lemma safe_exec (p : prog) : forall m s Q, safe m p s Q ->
  forall s' ths res, exec p s = (s', ths, res) ->
    s.(fresh) <= s'.(fresh) /\
    (m <> MSci -> keeps_null s s') /\
    Forall (thread_ok s') ths /\
    exists m', summary m m' s s' ths /\ res_ok m' Q res s'.
Proof.
  induction p as [| |k IH|f k IH|w k IH|b IHb k IHk|b IHb k IHk];
    intros m s Q Hs s' ths res E; cbn in E, Hs.
  - injection E as <- <- <-. repeat split; auto. unfold keeps_null; auto.
    exists m. split; [apply summary_refl | exact Hs].
  - injection E as <- <- <-. repeat split; auto. unfold keeps_null; auto.
    exists m. split; [apply summary_refl | exact Hs].
  - eapply IH; eassumption.
  - destruct Hs as [Hw Hk].
    destruct (IH m (f s) Q Hk s' ths res E) as (F & K & T & m' & S & R).
    pose proof Hw as (_ & Hf & _).
    split; [lia|]. split.
    { intros N. eapply keeps_null_trans; [eapply write_keeps_null; eauto | auto]. }
    split; [exact T|]. exists m'. split; [|exact R].
    eapply summary_write; eassumption.
  - injection E as <- <- <-. repeat split; auto. unfold keeps_null; auto.
    exists m. split; [apply summary_refl | exact Hs].
  - destruct Hs as (-> & Hp & Hn & Hb & Hk). unfold store_after in Hn, Hk.
    destruct (exec b (bump s)) as [[s1 t1] r1] eqn:E1. fold (bump s) in E.
    rewrite E1 in E. cbn [fst] in Hn, Hk.
    destruct (exec (k (fresh s)) s1) as [[s2 t2] r2] eqn:E2.
    injection E as <- <- <-.
    destruct (IHb MSci (bump s) Qtop Hb s1 t1 r1 E1)
      as (F1 & _ & _ & m1 & (-> & P1 & ->) & R1).
    destruct (IHk (fresh s) (MOwes (fresh s)) s1 Q Hk s2 t2 r2 E2)
      as (F2 & K2 & T2 & m2 & (-> & P2 & G2) & R2).
    assert (K12 : keeps_null s1 s2) by (apply K2; discriminate).
    cbn in F1, P1.
    split; [lia|]. split; [intros _; eapply keeps_null_trans; eassumption|].
    split.
    { cbn. constructor; [|exact T2].
      destruct r1 as [| |w1 k1]; try exact I.
      eapply blocked_thread_ok; eauto.
      - split; [reflexivity | discriminate].
      - congruence. }
    exists (MOwes (fresh s)). split; [|exact R2].
    assert (TT : thread_tags ([] ++ mkThread r1 (Some (fresh s)) :: t2)
                 = [fresh s]).
    { cbn. fold (thread_tags t2). now rewrite G2. }
    right. exists (fresh s).
    split; [lia|]. split; [lia|]. split; [exact Hp|]. split; [exact TT|].
    left. split; [reflexivity|]. rewrite P1, Hp in P2. exact P2.
  - destruct Hs as (Hm & Hb & Hk). unfold store_after in Hk.
    destruct (exec b s) as [[s1 t1] r1] eqn:E1. cbn [fst] in Hk.
    destruct (exec k s1) as [[s2 t2] r2] eqn:E2.
    injection E as <- <- <-.
    destruct (IHb m s Qtop Hb s1 t1 r1 E1) as (F1 & K1 & T1 & m1 & S1 & R1).
    destruct (IHk MMicro s1 Q Hk s2 t2 r2 E2)
      as (F2 & K2 & T2 & m2 & (-> & P2 & G2) & R2).
    assert (K12 : keeps_null s1 s2) by (apply K2; discriminate).
    assert (Nm : m <> MSci) by (destruct Hm as [->|[->| ->]]; discriminate).
    assert (Nm1 : m1 <> MSci).
    { destruct Hm as [->|[->| ->]]; cbn in S1; intros ->.
      - destruct S1 as [([|] & _)|(i & _ & _ & _ & _ & [[? _]|[? _]])];
          discriminate.
      - destruct S1 as [? _]; discriminate.
      - destruct S1 as ([|] & _); discriminate. }
    split; [lia|]. split; [intros _; eapply keeps_null_trans; eauto|].
    split.
    { apply Forall_app. split.
      - eapply Forall_impl; [|exact T1]. intros t.
        now apply thread_ok_transfer.
      - constructor; [|exact T2].
        destruct r1 as [| |w1 k1]; try exact I.
        eapply blocked_thread_ok; eauto.
        split; [congruence | intros ->; congruence]. }
    exists MMicro. split; [|exact R2].
    pose proof (res_ok_seg_end _ _ _ R1) as [_ O1].
    assert (TT : thread_tags (t1 ++ mkThread r1 None :: t2) = thread_tags t1).
    { rewrite thread_tags_app. cbn. fold (thread_tags t2).
      now rewrite G2, app_nil_r. }
    destruct Hm as [->|[->| ->]]; cbn [summary] in S1 |- *; rewrite TT.
    + destruct S1 as [(M & P1 & G1)|(i & L1 & L2 & N & G1 & M)].
      * left. repeat split; auto. congruence.
      * right. exists i. repeat split; auto; try lia.
        right. split; [reflexivity|]. rewrite P2.
        destruct M as [[-> _]|[_ M]]; [exact O1 | exact M].
    + destruct S1 as (M & P1 & G1). repeat split; auto. congruence.
    + destruct S1 as (M & P1 & G1). repeat split; auto.
      rewrite P2. exact P1.
Qed.

(** ** Building safe programs *)

Lemma safe_weaken (p : prog) :
  forall m s (Q Q' : mode -> bool -> store -> Prop),
    (forall m' b s', Q m' b s' -> Q' m' b s') ->
    safe m p s Q -> safe m p s Q'.
Proof.
  induction p; cbn; intros; eauto; intuition eauto.
Qed.

Lemma safe_seq (p q : prog) :
  forall m s (Q : mode -> bool -> store -> Prop),
    safe m p s (fun m1 b s1 => if b then safe m1 q s1 Q else Q m1 false s1) ->
    safe m (p ;; q) s Q.
Proof.
  induction p; cbn; intros; eauto; intuition eauto.
Qed.

Lemma safe_try_catch (p h : prog) :
  forall m s (Q : mode -> bool -> store -> Prop),
    safe m p s (fun m1 b s1 => if b then Q m1 true s1 else safe m1 h s1 Q) ->
    safe m (try_catch p h) s Q.
Proof.
  induction p; cbn; intros; eauto; intuition eauto.
Qed.

Lemma safe_try_finally (p f : prog) :
  forall m s (Q : mode -> bool -> store -> Prop),
    safe m p s (fun m1 b s1 =>
      if b then safe m1 f s1 Q
      else safe m1 f s1 (fun m2 _ s2 => Q m2 false s2)) ->
    safe m (try_finally p f) s Q.
Proof.
  induction p; cbn; intros; eauto; try solve [intuition eauto].
  apply safe_seq. eapply safe_weaken; [|eassumption].
  intros m' [] s' Hq; cbn; exact Hq.
Qed.

(** [await f()]: the caller goes on one tick after [f] completed. *)
Lemma safe_await_call (f : prog) :
  forall m s (Q : mode -> bool -> store -> Prop),
    safe m f s (fun m1 b s1 =>
      seg_end m1 s1 /\
      forall s2, resume_ok m1 s1 s2 -> Q (next_mode m1 WTick) b s2) ->
    safe m (await_call f) s Q.
Proof.
  intros m s Q H. unfold await_call. apply safe_try_catch, safe_seq.
  eapply safe_weaken; [|exact H].
  intros m' [] s' [Hs Hq]; cbn; (split; [exact Hs|]); (split; [exact I|]);
    intros a s2 _ Hr; auto.
Qed.

Lemma store_after_visited (p : prog) : forall s, In (store_after p s) (visited p s).
Proof.
  unfold store_after.
  induction p as [| |k IH|f k IH|w k IH|b IHb k IHk|b IHb k IHk];
    intros s; cbn; auto.
  - fold (bump s). destruct (exec b (bump s)) as [[s1 t1] r1] eqn:E1.
    specialize (IHk (fresh s) s1).
    destruct (exec (k (fresh s)) s1) as [[s2 t2] r2] eqn:E2.
    cbn in *. right. apply in_or_app. right.
    unfold store_after. now rewrite E1.
  - destruct (exec b s) as [[s1 t1] r1] eqn:E1.
    specialize (IHk s1).
    destruct (exec k s1) as [[s2 t2] r2] eqn:E2.
    cbn in *. apply in_or_app. right. unfold store_after. now rewrite E1.
Qed.

(** Every store a safe program goes through has both producers whenever the
    flag is up. *)
Lemma safe_visited (p : prog) : forall m s Q,
  safe m p s Q -> flag_implies_producers s ->
  Forall flag_implies_producers (visited p s).
Proof.
  induction p as [| |k IH|f k IH|w k IH|b IHb k IHk|b IHb k IHk];
    intros m s Q Hs G; cbn in Hs |- *; auto.
  - eapply IH; eauto.
  - destruct Hs as [(G' & _) Hk]. constructor; eauto.
  - destruct Hs as (_ & _ & _ & Hb & Hk).
    assert (Gb : flag_implies_producers (bump s)) by exact G.
    pose proof (IHb _ _ _ Hb Gb) as Vb.
    constructor; [exact G|]. apply Forall_app. split; [exact Vb|].
    eapply IHk; [exact Hk|].
    rewrite Forall_forall in Vb. apply Vb, store_after_visited.
  - destruct Hs as (_ & Hb & Hk).
    pose proof (IHb _ _ _ Hb G) as Vb.
    apply Forall_app. split; [exact Vb|].
    eapply IHk; [exact Hk|].
    rewrite Forall_forall in Vb. apply Vb, store_after_visited.
Qed.

(** ** The programs are safe *)

Lemma status_of_set_status (p q : nat) (x : pstatus) (l : list (nat * pstatus)) :
  status_of q (set_status p x l)
  = if Nat.eqb q p then match status_of p l with Some _ => Some x | None => None end
    else status_of q l.
Proof.
  induction l as [|[r y] l IH]; cbn.
  - now destruct (Nat.eqb q p).
  - destruct (Nat.eqb_spec r p) as [->|N1]; cbn.
    + destruct (Nat.eqb_spec p q) as [->|N2].
      * now rewrite Nat.eqb_refl.
      * rewrite IH. destruct (Nat.eqb_spec q p); [congruence | reflexivity].
    + destruct (Nat.eqb_spec r q) as [->|N2].
      * destruct (Nat.eqb_spec q p); [congruence | reflexivity].
      * rewrite IH. destruct (Nat.eqb_spec q p) as [->|N3]; [|reflexivity].
        destruct (Nat.eqb_spec r p); [congruence | reflexivity].
Qed.

Lemma killed_none_alive (s : store) (p q : nat) :
  alive_is_handle s -> ffmpegProcess s = Some p ->
  status_of q
    match status_of p (procs s) with
    | Some Alive => set_status p Signalled (procs s)
    | _ => procs s
    end = Some Alive -> False.
Proof.
  intros A H E.
  destruct (status_of p (procs s)) as [[| |]|] eqn:Ep.
  - rewrite status_of_set_status, Ep in E.
    destruct (Nat.eqb q p) eqn:Eq; [discriminate|].
    apply A in E. rewrite H in E. injection E as <-.
    now rewrite Nat.eqb_refl in Eq.
  - pose proof (A q E) as E'. rewrite H in E'. injection E' as <-. congruence.
  - pose proof (A q E) as E'. rewrite H in E'. injection E' as <-. congruence.
  - pose proof (A q E) as E'. rewrite H in E'. injection E' as <-. congruence.
Qed.

Ltac rest_goal :=
  match goal with
  | |- alive_is_handle _ =>
      let q := fresh "q" in let Hq := fresh "Hq" in
      unfold alive_is_handle; cbn; intros q Hq;
      first [ exfalso; eapply killed_none_alive; eassumption
            | match goal with A : alive_is_handle _ |- _ => apply A; exact Hq end ]
  end.

Ltac safe_step :=
  match goal with
  | |- forall _, _ => intro
  | H : _ /\ _ |- _ => destruct H
  | H : answer_ok WTick _ |- _ => cbn in H; subst
  | H : resume_ok _ _ _ |- _ => unfold resume_ok, at_rest, keeps_null in H; cbn in H
  | |- _ /\ _ => split
  | |- context [match ?x with _ => _ end] =>
      lazymatch x with
      | status_of _ _ => fail
      | _ => idtac
      end;
      match type of x with
      | option _ => destruct x eqn:?
      end; cbn in *
  end.

Lemma stopHls_safe (m : mode) (s : store) (Q : mode -> bool -> store -> Prop) :
  seg_end m s ->
  (forall m' s', seg_end m' s' -> (m' = m \/ m' = next_mode m WTick) ->
                 (m = MSci -> ffmpegProcess s' = None) -> Q m' true s') ->
  safe m stopHlsConverter s Q.
Proof.
  intros [[Hr Ha] Ho] HQ.
  unfold stopHlsConverter, say, write, tick, kill.
  destruct m; cbn.
  all: repeat safe_step.
  all: try (apply HQ).
  all: unfold write_ok, seg_end, at_rest, flag_implies_producers, keeps_null; cbn.
  all: repeat split; auto; try congruence; try lia; try rest_goal.

Qed.

Lemma status_of_app (q p : nat) (x : pstatus) (l : list (nat * pstatus)) :
  status_of q (l ++ [(p, x)])
  = match status_of q l with
    | Some y => Some y
    | None => if Nat.eqb p q then Some x else None
    end.
Proof.
  induction l as [|[r y] l IH]; cbn; [reflexivity|].
  destruct (Nat.eqb r q); [reflexivity | exact IH].
Qed.

Lemma spawned_is_handle (s : store) (p q : nat) :
  alive_is_handle s -> ffmpegProcess s = None ->
  status_of q (procs s ++ [(p, Alive)]) = Some Alive -> Some p = Some q.
Proof.
  intros A H E. rewrite status_of_app in E.
  destruct (status_of q (procs s)) as [y|] eqn:Eq.
  - injection E as ->. apply A in Eq. congruence.
  - destruct (Nat.eqb_spec p q); congruence.
Qed.

(** The cleanup of a failed start, as run by the start. *)
Lemma cleanup_safe (s : store) (Q : mode -> bool -> store -> Prop) :
  at_rest s ->
  (forall b s', at_rest s' -> Q MSci b s') ->
  safe MSci (await_call stopHlsConverter ;; Throw) s Q.
Proof.
  intros Hs HQ. apply safe_seq, safe_await_call, stopHls_safe.
  - unfold seg_end. split; [exact Hs | exact I].
  - intros m' s' Hs' [-> | ->] _; (split; [exact Hs'|]);
      intros s2 [R2 _]; cbn; now apply HQ.
Qed.

Ltac solve_write :=
  solve [ unfold write_ok, seg_end, at_rest, flag_implies_producers, keeps_null in *;
          cbn in *; repeat split; intros; auto; try lia; try congruence;
          try tauto; try rest_goal ].

Lemma forceStop_safe (s : store) (Q : mode -> bool -> store -> Prop) :
  alive_is_handle s -> flag_implies_producers s ->
  (forall s', at_rest s' -> ffmpegProcess s' = None -> Q MSci true s') ->
  safe MSci forceStopConverter s Q.
Proof.
  intros Ha Hg HQ. unfold forceStopConverter, say, write. cbn [seq safe].
  split; [solve_write|].
  split; [solve_write|].
  apply safe_try_catch, safe_await_call, stopHls_safe.
  - solve_write.
  - intros m' s' Hs' Hm Hn. split; [exact Hs'|].
    assert (M : m' = MSci) by (destruct Hm; assumption). subst m'.
    intros s2 [R2 K2]. cbn. apply HQ; [exact R2|].
    apply K2, Hn. reflexivity.
Qed.

Ltac rest_goal2 :=
  match goal with
  | |- alive_is_handle _ =>
      let q := fresh "q" in let Hq := fresh "Hq" in
      unfold alive_is_handle; cbn; intros q Hq;
      first [ exfalso; eapply killed_none_alive; eassumption
            | match goal with A : alive_is_handle _ |- _ => apply A; exact Hq end
            | eapply spawned_is_handle; [eassumption | solve [auto 10] | exact Hq] ]
  end.

Ltac safe_step2 :=
  match goal with
  | |- forall _, _ => intro
  | H : _ /\ _ |- _ => destruct H
  | H : answer_ok WTick _ |- _ => cbn in H; subst
  | H : answer_ok (WDelay _) _ |- _ => cbn in H; subst
  | H : answer_ok _ _ |- _ => clear H
  | H : resume_ok _ _ _ |- _ => unfold resume_ok, at_rest, keeps_null in H; cbn in H
  | |- _ /\ _ => split
  | |- context [match ?x with _ => _ end] =>
      lazymatch x with
      | status_of _ _ => fail
      | _ => idtac
      end;
      match type of x with
      | option _ => destruct x eqn:?
      | bool => destruct x eqn:?
      | answer => destruct x
      end; cbn in *
  end.

Ltac solve_leaf :=
  solve [ unfold write_ok, seg_end, await_ok, at_rest, flag_implies_producers, keeps_null in *;
          cbn in *;
          repeat match goal with H : _ /\ _ |- _ => destruct H end;
          repeat split; intros; auto 10; try lia; try congruence;
          try tauto; try rest_goal2 ].

Lemma startRtp_safe (vp ap : option nat) (s : store)
    (Q : mode -> bool -> store -> Prop) :
  at_rest s ->
  (forall b s', at_rest s' -> Q MSci b s') ->
  safe MSci (startRtpToHlsConverter vp ap) s Q.
Proof.
  intros Hs HQ. unfold startRtpToHlsConverter, say. cbn [seq safe].
  split; [solve_leaf|].
  apply safe_seq, safe_await_call, stopHls_safe; [solve_leaf|].
  intros m' s1 Hs1 Hm Hn. split; [exact Hs1|].
  assert (M : m' = MSci) by (destruct Hm; assumption). subst m'.
  intros s2 [R2 K2]. cbn [next_mode]. unfold sleep. cbn [seq safe].
  split; [solve_leaf|]. split; [exact I|].
  intros a s3 _ [R3 K3]. cbn [next_mode].
  assert (N3 : ffmpegProcess s3 = None) by (apply K3, K2, Hn; reflexivity).
  clear K3 K2 Hn Hs1 R2 Hs s s1 s2 Hm.
  apply safe_seq. unfold ensureHlsDir. cbn [safe].
  destruct (mkdir_throws s3); [now apply HQ|].
  apply safe_try_catch.
  eapply safe_weaken with (Q := fun m (_ : bool) s => m = MSci /\ at_rest s).
  { intros m' [] s' [-> H]; [now apply HQ | now apply cleanup_safe]. }
  clear HQ Q. destruct R3 as [Hr Ha].
  unfold request, runFfmpeg, say, write. cbn.
  repeat safe_step2.
  all: solve_leaf.
Qed.

Lemma sci_safe (s : store) (v a : nat) :
  alive_is_handle s ->
  videoProducer s = Some v -> audioProducer s = Some a ->
  safe MSci startConverterInternal s Qtop.
Proof.
  intros Ha Hv Hu. unfold startConverterInternal. cbn [safe].
  rewrite Hv, Hu.
  apply safe_seq, safe_await_call, forceStop_safe; auto.
  { intros _. rewrite Hv, Hu. split; discriminate. }
  intros s1 R1 N1. split; [solve_leaf|].
  intros s2 [R2 K2]. cbn [next_mode]. unfold sleep. cbn [seq safe].
  split; [solve_leaf|]. split; [exact I|].
  intros x s3 _ [R3 K3]. cbn [next_mode].
  apply safe_await_call, startRtp_safe; [exact R3|].
  intros b s4 R4. split; [solve_leaf|].
  intros s5 [R5 _]. unfold Qtop. solve_leaf.
Qed.

(** The first stretch of the start leaves the subprocess handle empty if it
    was, and does not touch the manager apart from lowering the flag. *)
Lemma sci_first_stretch (s : store) :
  keeps_null s (store_after startConverterInternal s).
Proof.
  destruct s as [r v a p rt ff tv ta cv ca tm ob pr fr sp wr mk un tr].
  destruct v, a, ff, tv, ta, cv, ca; vm_compute; intros E;
    first [reflexivity | discriminate E].
Qed.

(** What the caller of [startConverterInternal] finds when the call has run
    its first stretch. *)
Lemma sci_started (s : store) (v a : nat) :
  alive_is_handle s ->
  videoProducer s = Some v -> audioProducer s = Some a ->
  let s1 := store_after startConverterInternal (bump s) in
  at_rest s1 /\
  converterStartPromise s1 = converterStartPromise s /\
  fresh s < fresh s1 /\
  keeps_null s s1.
Proof.
  intros Ha Hv Hu s1. subst s1. unfold store_after.
  destruct (exec startConverterInternal (bump s)) as [[s1 t1] r1] eqn:E.
  assert (Hs : safe MSci startConverterInternal (bump s) Qtop).
  { eapply sci_safe; [exact Ha | exact Hv | exact Hu]. }
  destruct (safe_exec _ _ _ _ Hs _ _ _ E) as (F & _ & _ & m1 & (-> & P & _) & R).
  cbn [fst]. split; [apply (res_ok_seg_end _ _ _ R)|].
  split; [exact P|]. split; [exact F|].
  pose proof (sci_first_stretch (bump s)) as K. unfold store_after in K.
  rewrite E in K. exact K.
Qed.

Lemma tryStart_safe (s : store) (Q : mode -> bool -> store -> Prop) :
  at_rest s ->
  (forall m' b s', m' = MMacro \/ m' = MSettled -> at_rest s' -> Q m' b s') ->
  safe MMacro tryStartConverter s Q.
Proof.
  intros [Hr Ha] HQ. unfold tryStartConverter, say. cbn [seq safe].
  split; [solve_leaf|].
  cbn [isConverterRunning videoProducer audioProducer converterStartPromise emit].
  rewrite Hr. cbn [orb].
  destruct (videoProducer s) as [v|] eqn:Hv;
    [|cbn; split; [solve_leaf | apply HQ; [auto | solve_leaf]]].
  destruct (audioProducer s) as [a|] eqn:Hu;
    [|cbn; split; [solve_leaf | apply HQ; [auto | solve_leaf]]].
  cbn [is_some negb orb].
  destruct (converterStartPromise s) as [p|] eqn:Hp.
  - unfold await_promise. cbn [seq safe].
    split; [solve_leaf|]. split; [solve_leaf|]. split; [solve_leaf|].
    intros x s' _ [R' _]. cbn [next_mode].
    destruct x; cbn [safe]; apply HQ; auto.
  - unfold write. cbn [seq safe].
    split; [solve_leaf|]. split; [solve_leaf|].
    split; [reflexivity|]. split; [exact Hp|].
    set (s0 := set_running true (emit CStarting (emit CTryStart s))).
    assert (A0 : alive_is_handle s0) by exact Ha.
    destruct (sci_started s0 v a A0 Hv Hu) as (R1 & P1 & F1 & K1).
    split; [exact K1|].
    split; [eapply sci_safe; [exact A0 | exact Hv | exact Hu]|].
    remember (store_after startConverterInternal (bump s0)) as s1 eqn:E1.
    change (converterStartPromise s0) with (converterStartPromise s) in P1.
    change (fresh s0) with (fresh s) in F1 |- *.
    clearbody s0. clear A0 K1.
    unfold await_promise. cbn [seq safe try_finally try_catch].
    split; [solve_leaf|]. split; [solve_leaf|]. split; [solve_leaf|].
    intros x s' _ [R' _]. cbn [next_mode].
    destruct x; cbn [safe seq try_catch try_finally];
      repeat (split; [solve_leaf|]); apply HQ; auto; solve_leaf.
Qed.

Lemma plain_next (m : mode) (w : wait) : plain m -> plain (next_mode m w).
Proof. intros [->|[->| ->]]; destruct w; cbn; unfold plain; auto. Qed.

Lemma plain_seg_end (m : mode) (s : store) : plain m -> at_rest s -> seg_end m s.
Proof. intros [->|[->| ->]] H; split; auto. Qed.

Lemma stopConverter_safe (m : mode) (s : store)
    (Q : mode -> bool -> store -> Prop) :
  plain m -> at_rest s ->
  (forall m' s', plain m' -> at_rest s' -> Q m' true s') ->
  safe m stopConverter s Q.
Proof.
  intros Pm [Hr Ha] HQ. unfold stopConverter. cbn [safe]. rewrite Hr. cbn [negb andb].
  destruct (converterStartPromise s) as [p|] eqn:Hp; cbn [is_some negb];
    [|cbn [safe]; apply HQ; [exact Pm | split; assumption]].
  assert (tail : forall m1 s1, plain m1 -> at_rest s1 ->
            safe m1 (try_catch (await_call stopHlsConverter) Ret) s1 Q).
  { intros m1 s1 P1 R1. apply safe_try_catch, safe_await_call, stopHls_safe.
    - now apply plain_seg_end.
    - intros m' s' Hs' Hm _. split; [exact Hs'|].
      assert (P' : plain m').
      { destruct Hm as [->| ->]; [exact P1 | now apply plain_next]. }
      intros s2 [R2 _]. apply HQ; [now apply plain_next | exact R2]. }
  assert (W : forall (f : store -> store) s0 (Q' : mode -> bool -> store -> Prop),
            write_ok m s0 (f s0) -> Q' m true (f s0) -> safe m (write f) s0 Q').
  { intros f s0 Q' H1 H2. unfold write. cbn [safe]. auto. }
  assert (mid : forall s1, at_rest s1 ->
    safe m
      (Read (fun s => match s.(converterStartPromise) with
                      | Some p => try_catch (await_promise p) Ret ;;
                                  write (set_startPromise None)
                      | None => Ret
                      end) ;;
       try_catch (await_call stopHlsConverter) Ret) s1 Q).
  { intros s1 R1. apply safe_seq. cbn [safe].
    destruct (converterStartPromise s1) as [p1|] eqn:P1;
      [|cbn [safe]; now apply tail].
    apply safe_seq, safe_try_catch. unfold await_promise. cbn [safe].
    split; [now apply plain_seg_end|].
    split; [split; [destruct Pm as [->|[->| ->]]; discriminate | exact P1]|].
    intros x s2 _ [R2 _].
    assert (M : next_mode m (WPromise p1) = MSettled)
      by (destruct Pm as [->|[->| ->]]; reflexivity).
    rewrite M.
    destruct x; cbn [safe]; unfold write; cbn [safe];
      (split; [solve_leaf|]); apply tail; unfold plain; auto; solve_leaf. }
  apply safe_seq, W; [destruct Pm as [->|[->| ->]]; solve_leaf|].
  apply safe_seq, W; [destruct Pm as [->|[->| ->]]; solve_leaf|].
  apply safe_seq. unfold clearRestartTimeout. cbn [safe].
  destruct (restartTimeout _) as [t|] eqn:Et.
  - apply safe_seq, W; [destruct Pm as [->|[->| ->]]; solve_leaf|].
    apply W; [destruct Pm as [->|[->| ->]]; solve_leaf|].
    apply mid. solve_leaf.
  - cbn [safe]. apply mid. solve_leaf.
Qed.

Lemma write_safe (m : mode) (f : store -> store) (s : store)
    (Q : mode -> bool -> store -> Prop) :
  write_ok m s (f s) -> Q m true (f s) -> safe m (write f) s Q.
Proof. intros H1 H2. unfold write. cbn [safe]. auto. Qed.

Lemma plain_write (m : mode) (s s' : store) :
  plain m -> isConverterRunning s' = false -> fresh s <= fresh s' ->
  converterStartPromise s' = converterStartPromise s ->
  keeps_null s s' -> write_ok m s s'.
Proof.
  intros [->|[->| ->]] Hr Hf Hp Hk; repeat split; auto;
    intros E; congruence.
Qed.

Lemma clearRestartTimeout_safe (m : mode) (s : store)
    (Q : mode -> bool -> store -> Prop) :
  plain m -> at_rest s ->
  (forall s', at_rest s' -> Q m true s') ->
  safe m clearRestartTimeout s Q.
Proof.
  intros Pm Rs HQ. unfold clearRestartTimeout. cbn [safe].
  destruct (restartTimeout s) as [t|]; [|cbn [safe]; auto].
  apply safe_seq, write_safe; [apply plain_write; solve_leaf|].
  apply write_safe; [apply plain_write; solve_leaf|].
  apply HQ. solve_leaf.
Qed.

Lemma setProducer_safe (kind : Kind) (id : nat) (s : store)
    (Q : mode -> bool -> store -> Prop) :
  at_rest s ->
  (forall m' s', plain m' -> at_rest s' -> Q m' true s') ->
  safe MMacro (setProducer kind id) s Q.
Proof.
  intros Rs HQ. unfold setProducer.
  assert (P0 : plain MMacro) by (unfold plain; auto).
  apply safe_seq, clearRestartTimeout_safe; auto.
  intros s1 R1.
  assert (tail : forall m1 s2, plain m1 -> at_rest s2 ->
    safe m1
      (write (fun s => set_observers (observers s ++ [(kind, id)]) s) ;;
       armRestartTimeout) s2 Q).
  { intros m1 s2 P1 R2. apply safe_seq, write_safe;
      [apply plain_write; solve_leaf|].
    unfold armRestartTimeout. apply write_safe; [apply plain_write; solve_leaf|].
    apply HQ; [exact P1 | solve_leaf]. }
  destruct kind.
  - apply safe_seq, safe_seq. cbn [safe].
    assert (go : forall m1 s2, plain m1 -> at_rest s2 ->
      safe m1 (write (set_videoProducer (Some id))) s2
        (fun m2 b s3 =>
           if b then safe m2
             (write (fun s => set_observers (observers s ++ [(video, id)]) s) ;;
              armRestartTimeout) s3 Q
           else Q m2 false s3)).
    { intros m1 s2 P1 R2. apply write_safe; [apply plain_write; solve_leaf|].
      apply tail; [exact P1 | solve_leaf]. }
    destruct (videoProducer s1) as [old|]; [|cbn [safe]; now apply go].
    destruct (negb (Nat.eqb old id)); [|cbn [safe]; now apply go].
    apply safe_await_call, stopConverter_safe; auto.
    intros m' s' P' R'. split; [now apply plain_seg_end|].
    intros s2 [R2 _]. apply go; [now apply plain_next | exact R2].
  - apply safe_seq, safe_seq. cbn [safe].
    assert (go : forall m1 s2, plain m1 -> at_rest s2 ->
      safe m1 (write (set_audioProducer (Some id))) s2
        (fun m2 b s3 =>
           if b then safe m2
             (write (fun s => set_observers (observers s ++ [(audio, id)]) s) ;;
              armRestartTimeout) s3 Q
           else Q m2 false s3)).
    { intros m1 s2 P1 R2. apply write_safe; [apply plain_write; solve_leaf|].
      apply tail; [exact P1 | solve_leaf]. }
    destruct (audioProducer s1) as [old|]; [|cbn [safe]; now apply go].
    destruct (negb (Nat.eqb old id)); [|cbn [safe]; now apply go].
    apply safe_await_call, stopConverter_safe; auto.
    intros m' s' P' R'. split; [now apply plain_seg_end|].
    intros s2 [R2 _]. apply go; [now apply plain_next | exact R2].
Qed.

Lemma on_produce_safe (kind : Kind) (id : nat) (s : store) :
  at_rest s -> safe MMacro (on_produce kind id) s Qtop.
Proof.
  intros Rs. unfold on_produce.
  apply safe_try_catch, safe_await_call, setProducer_safe; [exact Rs|].
  intros m' s' P' R'. split; [now apply plain_seg_end|].
  intros s2 [R2 _]. unfold Qtop. apply plain_seg_end; [now apply plain_next | exact R2].
Qed.

Lemma on_restart_safe (s : store) : at_rest s -> safe MMacro on_restart s Qtop.
Proof.
  intros Rs. unfold on_restart, restartConverter.
  assert (P0 : plain MMacro) by (unfold plain; auto).
  assert (fin : forall m (b : bool) s', plain m -> at_rest s' ->
            seg_end m s' /\
            forall s2, resume_ok m s' s2 ->
              if b then Qtop (next_mode m WTick) true s2
              else safe (next_mode m WTick) Ret s2 Qtop).
  { intros m b s' Pm R'. split; [now apply plain_seg_end|].
    intros s2 [R2 _]. destruct b; cbn [safe]; unfold Qtop;
      (apply plain_seg_end; [now apply plain_next | exact R2]). }
  apply safe_try_catch, safe_await_call, safe_seq, safe_await_call,
    stopConverter_safe; auto.
  intros m1 s1 P1 R1. split; [now apply plain_seg_end|].
  intros s2 [R2 _]. apply safe_seq. unfold sleep. cbn [safe].
  split; [apply plain_seg_end; [now apply plain_next | exact R2]|].
  split; [exact I|].
  intros x s3 _ [R3 _].
  assert (M : next_mode (next_mode m1 WTick) (WDelay 2000) = MMacro).
  { destruct P1 as [->|[->| ->]]; reflexivity. }
  rewrite M. cbn [safe].
  apply safe_await_call, tryStart_safe; [exact R3|].
  intros m' b s4 Hm R4.
  assert (P4 : plain m') by (destruct Hm as [->| ->]; unfold plain; auto).
  split; [now apply plain_seg_end|].
  intros s5 [R5 _]. apply fin; [now apply plain_next | exact R5].
Qed.

Lemma on_reset_safe (s : store) : at_rest s -> safe MMacro on_reset s Qtop.
Proof.
  intros Rs. unfold on_reset, reset.
  assert (P0 : plain MMacro) by (unfold plain; auto).
  apply safe_try_catch, safe_await_call.
  apply safe_seq, write_safe; [apply plain_write; solve_leaf|].
  apply safe_seq, write_safe; [apply plain_write; solve_leaf|].
  apply safe_await_call, stopConverter_safe; [exact P0 | solve_leaf|].
  intros m1 s1 P1 R1. split; [now apply plain_seg_end|].
  intros s2 [R2 _]. split; [apply plain_seg_end; [now apply plain_next|exact R2]|].
  intros s3 [R3 _]. unfold Qtop.
  apply plain_seg_end; [now apply plain_next, plain_next | exact R3].
Qed.

Lemma safe_store_after (m : mode) (p : prog) (s : store) :
  safe m p s Qtop -> at_rest (store_after p s).
Proof.
  intros H. unfold store_after.
  destruct (exec p s) as [[s1 t1] r1] eqn:E.
  destruct (safe_exec _ _ _ _ H _ _ _ E) as (_ & _ & _ & m1 & _ & R).
  apply (res_ok_seg_end _ _ _ R).
Qed.

Lemma on_timer_safe (s : store) : at_rest s -> safe MMacro on_timer s Qtop.
Proof.
  intros Rs. unfold on_timer. cbn [safe].
  assert (T : safe MMacro tryStartConverter s Qtop).
  { apply tryStart_safe; [exact Rs|].
    intros m' b s' [->| ->] R'; split; auto. }
  split; [unfold plain; auto|]. split; [exact T|].
  unfold Qtop. split; [|exact I]. now apply (safe_store_after MMacro).
Qed.

Lemma onTransportClose_safe (m : mode) (kind : Kind) (id : nat) (s : store)
    (Q : mode -> bool -> store -> Prop) :
  m = MMacro \/ m = MMicro -> at_rest s ->
  (forall m' s', m' = MMacro \/ m' = MMicro -> at_rest s' -> Q m' true s') ->
  safe m (onTransportClose kind id) s Q.
Proof.
  intros Hm Rs HQ. unfold onTransportClose.
  assert (Pm : plain m) by (destruct Hm as [->| ->]; unfold plain; auto).
  assert (tail : forall s1, at_rest s1 ->
    safe m
      (Read (fun s => match videoProducer s, audioProducer s with
                      | None, None => Detach stopConverter Ret
                      | _, _ => Ret
                      end)) s1 Q).
  { intros s1 R1. cbn [safe].
    destruct (videoProducer s1); [cbn [safe]; now apply HQ|].
    destruct (audioProducer s1); [cbn [safe]; now apply HQ|].
    cbn [safe].
    assert (S : safe m stopConverter s1 Qtop).
    { apply stopConverter_safe; auto. intros m' s' P' R'.
      now apply plain_seg_end. }
    split; [exact Pm|]. split; [exact S|].
    apply HQ; [auto|]. now apply (safe_store_after m). }
  apply safe_seq. cbn [safe].
  destruct kind.
  - destruct (opt_is (videoProducer s) id); [|cbn [safe]; now apply tail].
    apply write_safe; [apply plain_write; solve_leaf|]. apply tail. solve_leaf.
  - destruct (opt_is (audioProducer s) id); [|cbn [safe]; now apply tail].
    apply write_safe; [apply plain_write; solve_leaf|]. apply tail. solve_leaf.
Qed.

Lemma observers_safe (id : nat) (l : list (Kind * nat)) :
  forall m s, m = MMacro \/ m = MMicro -> at_rest s ->
    safe m (observers_of id l) s Qtop.
Proof.
  induction l as [|[k j] l IH]; intros m s Hm Rs; cbn [observers_of].
  - cbn [safe]. unfold Qtop. destruct Hm as [->| ->]; split; auto.
  - destruct (Nat.eqb j id); [|now apply IH].
    apply safe_seq, onTransportClose_safe; auto.
Qed.

(** ** The invariant of the event loop *)

Lemma one_start_perm (l l' : list nat) (s : store) :
  Permutation l l' -> one_start l s -> one_start l' s.
Proof.
  intros P [->|(i & -> & H)].
  - left. now apply Permutation_nil.
  - right. exists i. split; [now apply Permutation_length_1_inv | exact H].
Qed.

Lemma perm_nil_iff (l l' : list nat) : Permutation l l' -> l = [] -> l' = [].
Proof. intros P ->. now apply Permutation_nil. Qed.

Lemma ready_ok_change (s s' : store) (N N' : Prop) (r : ready) :
  ready_ok s N r -> keeps_null s s' -> (N -> N') -> ready_ok s' N' r.
Proof.
  unfold ready_ok, keeps_null. intros H K HN.
  destruct (r_settles r).
  - destruct H as (B & HB & Hc). exists B. auto.
  - destruct H as [H|[H1 H2]]; auto.
Qed.

Lemma task_ok_change (s s' : store) (t : task) :
  task_ok s t -> keeps_null s s' -> task_ok s' t.
Proof.
  unfold task_ok, keeps_null. intros H K.
  destruct (t_settles t); [|exact H].
  destruct H as (Hw & B & HB & Hc). split; [exact Hw|]. exists B. auto.
Qed.

Lemma same_core_fields (s s' : store) :
  same_core s s' ->
  converterStartPromise s' = converterStartPromise s /\
  ffmpegProcess s' = ffmpegProcess s /\
  fresh s' = fresh s /\
  (at_rest s -> at_rest s').
Proof. intros [->| ->]; auto. Qed.

Lemma tags_enqueue (r : ready) (w : world) :
  Permutation (tags (enqueue r w)) (tag_of (r_settles r) ++ tags w).
Proof.
  unfold tags, enqueue. cbn [queue blocked].
  rewrite flat_map_app. cbn [flat_map]. rewrite app_nil_r.
  rewrite <- app_assoc. apply Permutation_app_swap_app.
Qed.

Lemma tags_park (t : task) (w : world) :
  Permutation (tags (park t w)) (tag_of (t_settles t) ++ tags w).
Proof.
  unfold tags, park. cbn [queue blocked].
  rewrite flat_map_app. cbn [flat_map]. rewrite app_nil_r.
  rewrite app_assoc. apply Permutation_app_comm.
Qed.

Lemma woken_untagged (s : store) (i : nat) (a : answer) (b : list task) :
  Forall (task_ok s) b ->
  flat_map (fun r => tag_of (r_settles r)) (map (wake a) (filter (waits_on i) b)) = [] /\
  flat_map (fun t => tag_of (t_settles t)) (filter (fun t => negb (waits_on i t)) b)
  = flat_map (fun t => tag_of (t_settles t)) b.
Proof.
  induction 1 as [|t b Ht Hb [IH1 IH2]]; [auto|].
  cbn [filter]. unfold task_ok in Ht.
  destruct (waits_on i t) eqn:E; cbn [negb map flat_map].
  - assert (N : t_settles t = None).
    { unfold waits_on in E. destruct (t_settles t) as [j|]; [|auto].
      destruct Ht as [Hw _]. destruct (t_wait t); try discriminate.
      destruct Hw. }
    unfold wake at 1. cbn [r_settles]. rewrite N, IH1, IH2. auto.
  - rewrite IH2. auto.
Qed.

Lemma woken_ready (s : store) (i : nat) (a : answer) (b : list task) :
  Forall (task_ok s) b ->
  Forall (ready_ok s True) (map (wake a) (filter (waits_on i) b)).
Proof.
  induction 1 as [|t b Ht Hb IH]; [constructor|].
  cbn [filter]. destruct (waits_on i t) eqn:E; [|exact IH].
  cbn [map]. constructor; [|exact IH].
  unfold task_ok in Ht. unfold ready_ok, wake, waits_on in *. cbn.
  destruct (t_wait t) eqn:W; try discriminate.
  destruct (t_settles t); [destruct Ht as [[] _]|].
  destruct Ht as [_ Hc]. right. split; [exact I|]. apply (Hc a). exact I.
Qed.

Lemma keeps_null_refl (s : store) : keeps_null s s.
Proof. unfold keeps_null; auto. Qed.

Lemma ginv_perm_enqueue (X : list nat) (r : ready) (w : world) :
  Permutation ((tag_of (r_settles r) ++ X) ++ tags w) (X ++ tags (enqueue r w)).
Proof.
  rewrite (tags_enqueue r w). rewrite <- app_assoc.
  apply Permutation_app_swap_app.
Qed.

Lemma ginv_perm_park (X : list nat) (t : task) (w : world) :
  Permutation ((tag_of (t_settles t) ++ X) ++ tags w) (X ++ tags (park t w)).
Proof.
  rewrite (tags_park t w). rewrite <- app_assoc.
  apply Permutation_app_swap_app.
Qed.

Lemma ginv_enqueue (X : list nat) (r : ready) (w : world) :
  GInv (tag_of (r_settles r) ++ X) w ->
  ready_ok (st w) ((tag_of (r_settles r) ++ X) ++ tags w = []) r ->
  GInv X (enqueue r w).
Proof.
  intros [G1 G2 G3 G4 G5 G6] Hr.
  pose proof (ginv_perm_enqueue X r w) as P.
  constructor; cbn [st queue blocked settled enqueue].
  - exact (one_start_perm _ _ _ P G1).
  - intros i Hi. apply G2. eapply Permutation_in; [symmetry; exact P | exact Hi].
  - intros i Hi. apply G3. eapply Permutation_in; [symmetry; exact P | exact Hi].
  - exact G4.
  - apply Forall_app. split.
    + eapply Forall_impl; [|exact G5]. intros r0 H0.
      eapply ready_ok_change; [exact H0 | apply keeps_null_refl|].
      apply perm_nil_iff, P.
    + constructor; [|constructor].
      eapply ready_ok_change; [exact Hr | apply keeps_null_refl|].
      apply perm_nil_iff, P.
  - exact G6.
Qed.

Lemma ginv_park (X : list nat) (t : task) (w : world) :
  GInv (tag_of (t_settles t) ++ X) w ->
  task_ok (st w) t ->
  GInv X (park t w).
Proof.
  intros [G1 G2 G3 G4 G5 G6] Ht.
  pose proof (ginv_perm_park X t w) as P.
  constructor; cbn [st queue blocked settled park].
  - exact (one_start_perm _ _ _ P G1).
  - intros i Hi. apply G2. eapply Permutation_in; [symmetry; exact P | exact Hi].
  - intros i Hi. apply G3. eapply Permutation_in; [symmetry; exact P | exact Hi].
  - exact G4.
  - eapply Forall_impl; [|exact G5]. intros r0 H0.
    eapply ready_ok_change; [exact H0 | apply keeps_null_refl|].
    apply perm_nil_iff, P.
  - apply Forall_app. split; [exact G6|]. constructor; [exact Ht | constructor].
Qed.

Lemma ginv_settle (X : list nat) (i : nat) (a : answer) (w : world) :
  GInv (i :: X) w -> GInv X (settle (Some i) a w).
Proof.
  intros [G1 G2 G3 G4 G5 G6].
  assert (E : X ++ tags w = []).
  { destruct G1 as [G1|(j & G1 & _)]; [discriminate G1|].
    cbn in G1. now injection G1. }
  destruct (woken_untagged (st w) i a (blocked w) G6) as [W1 W2].
  assert (T : X ++ tags (settle (Some i) a w) = []).
  { unfold tags, settle. cbn [queue blocked].
    rewrite flat_map_app, W1, W2, app_nil_r. exact E. }
  constructor.
  - left. exact T.
  - intros j Hj. rewrite T in Hj. destruct Hj.
  - intros j Hj. rewrite T in Hj. destruct Hj.
  - cbn [st settled settle]. intros j Hj. cbn [outcome_of] in Hj.
    destruct (Nat.eqb i j) eqn:Eij.
    + apply Nat.eqb_eq in Eij. subst j. apply G3. now left.
    + now apply G4.
  - rewrite T. cbn [st queue settle]. apply Forall_app. split.
    + eapply Forall_impl; [|exact G5]. intros r0 H0.
      eapply ready_ok_change; [exact H0 | apply keeps_null_refl|].
      intros _. reflexivity.
    + eapply Forall_impl; [|exact (woken_ready (st w) i a (blocked w) G6)].
      intros r0 H0.
      eapply ready_ok_change; [exact H0 | apply keeps_null_refl|].
      intros _. reflexivity.
  - cbn [st blocked settle]. rewrite Forall_forall in *.
    intros t Ht. apply filter_In in Ht as [Ht _]. now apply G6.
Qed.

Lemma ginv_unhandled (X : list nat) (w : world) :
  GInv X w ->
  GInv X (mkWorld (set_unhandled (S (unhandled (st w))) (st w))
            (queue w) (blocked w) (settled w)).
Proof.
  intros [G1 G2 G3 G4 G5 G6]. constructor; auto.
Qed.

Lemma dispatch_ginv (X : list nat) (r : status) (tag : option nat) (w : world) :
  GInv (tag_of tag ++ X) w ->
  thread_ok (st w) (mkThread r tag) ->
  GInv X (dispatch r tag w) /\ same_core (st w) (st (dispatch r tag w)).
Proof.
  intros G T. unfold thread_ok in T. cbn [th_status th_settles] in T.
  destruct r as [| |wt k].
  - destruct tag as [i|]; cbn [dispatch].
    + split; [now apply ginv_settle | left; reflexivity].
    + split; [exact G | left; reflexivity].
  - destruct tag as [i|]; cbn [dispatch].
    + split; [now apply ginv_settle | left; reflexivity].
    + split; [now apply ginv_unhandled | right; reflexivity].
  - destruct tag as [i|].
    + destruct T as (Hw & B & HB & Hc).
      destruct wt as [|p|ms| |tr pr]; cbn [dispatch];
        try (destruct Hw as [Hw|Hw]; try discriminate Hw; now destruct Hw).
      * split; [|left; reflexivity].
        apply (ginv_enqueue X (mkReady (k (Fulfilled 0)) (Some i))); [exact G|].
        exists B. split; [exact HB | apply Hc; reflexivity].
      * split; [|left; reflexivity].
        apply (ginv_park X (mkTask (WDelay ms) k (Some i))); [exact G|].
        split; [exact I|]. exists B. auto.
      * split; [|left; reflexivity].
        apply (ginv_park X (mkTask WCreateTransport k (Some i))); [exact G|].
        split; [exact I|]. exists B. auto.
      * split; [|left; reflexivity].
        apply (ginv_park X (mkTask (WConsume tr pr) k (Some i))); [exact G|].
        split; [exact I|]. exists B. auto.
    + destruct T as (Hp & Hc).
      destruct wt as [|p|ms| |tr pr]; cbn [dispatch].
      * split; [|left; reflexivity].
        apply (ginv_enqueue X (mkReady (k (Fulfilled 0)) None)); [exact G|].
        left. apply (Hc (Fulfilled 0)). reflexivity.
      * destruct (outcome_of p (settled w)) as [a|] eqn:O.
        -- split; [|left; reflexivity].
           apply (ginv_enqueue X (mkReady (k a) None)); [exact G|].
           right. split; [|apply (Hc a); exact I].
           destruct (g_tags _ _ G) as [E|(j & E & Pj)]; [exact E|].
           rewrite (Hp p eq_refl) in Pj. injection Pj as <-.
           assert (Hin : In p (tag_of None ++ X ++ tags w))
             by (cbn in *; rewrite E; now left).
           rewrite app_assoc in Hin.
           pose proof (g_pending _ _ G p Hin). congruence.
        -- split; [|left; reflexivity].
           apply (ginv_park X (mkTask (WPromise p) k None)); [exact G|].
           split; [discriminate | exact Hc].
      * split; [|left; reflexivity].
        apply (ginv_park X (mkTask (WDelay ms) k None)); [exact G|].
        split; [discriminate | exact Hc].
      * split; [|left; reflexivity].
        apply (ginv_park X (mkTask WCreateTransport k None)); [exact G|].
        split; [discriminate | exact Hc].
      * split; [|left; reflexivity].
        apply (ginv_park X (mkTask (WConsume tr pr) k None)); [exact G|].
        split; [discriminate | exact Hc].
Qed.

Lemma core_eq_refl (s : store) : core_eq s s.
Proof. unfold core_eq; auto. Qed.

Lemma core_eq_trans (a b c : store) : core_eq a b -> core_eq b c -> core_eq a c.
Proof. unfold core_eq. intuition congruence. Qed.

Lemma same_core_eq (s s' : store) : same_core s s' -> core_eq s s'.
Proof. intros [->| ->]; unfold core_eq; auto. Qed.

Lemma core_eq_at_rest (s s' : store) : core_eq s s' -> at_rest s -> at_rest s'.
Proof.
  unfold core_eq, at_rest, alive_is_handle.
  intros (Hp & Hh & Hf & Hr & Hq) [R A]. split; [congruence|].
  intros p. rewrite Hq, Hh. apply A.
Qed.

Lemma core_eq_thread_ok (s s' : store) (t : thread) :
  core_eq s s' -> thread_ok s t -> thread_ok s' t.
Proof.
  intros (Hp & Hh & _). apply thread_ok_transfer; [|exact Hp].
  unfold keeps_null. congruence.
Qed.

Lemma dispatch_threads_ginv (ths : list thread) : forall X w,
  GInv (thread_tags ths ++ X) w ->
  Forall (thread_ok (st w)) ths ->
  GInv X (dispatch_threads ths w) /\ core_eq (st w) (st (dispatch_threads ths w)).
Proof.
  induction ths as [|[r tag] ths IH]; intros X w G T.
  - split; [exact G | apply core_eq_refl].
  - inversion T as [|? ? T1 T2]; subst.
    change (thread_tags (mkThread r tag :: ths) ++ X)
      with ((tag_of tag ++ thread_tags ths) ++ X) in G.
    rewrite <- app_assoc in G.
    destruct (dispatch_ginv _ r tag w G T1) as [G' C'].
    apply same_core_eq in C'.
    assert (T2' : Forall (thread_ok (st (dispatch r tag w))) ths).
    { eapply Forall_impl; [|exact T2]. intros t. now apply core_eq_thread_ok. }
    destruct (IH X _ G' T2') as [G'' C''].
    split; [exact G''|]. eapply core_eq_trans; eassumption.
Qed.

Lemma untagged_ready_change (s s' : store) (N N' : Prop) (q : list ready) :
  Forall (ready_ok s N) q ->
  keeps_null s s' \/ flat_map (fun r => tag_of (r_settles r)) q = [] ->
  (N -> N') ->
  Forall (ready_ok s' N') q.
Proof.
  induction 1 as [|r q Hr Hq IH]; intros K HN; [constructor|].
  constructor.
  - destruct K as [K|K].
    + eapply ready_ok_change; eauto.
    + cbn in K. unfold ready_ok in *.
      destruct (r_settles r); [discriminate K|].
      destruct Hr as [Hr|[H1 H2]]; auto.
  - apply IH; [|exact HN]. destruct K as [K|K]; [now left|right].
    cbn in K. now apply app_eq_nil in K as [_ K].
Qed.

Lemma untagged_task_change (s s' : store) (b : list task) :
  Forall (task_ok s) b ->
  keeps_null s s' \/ flat_map (fun t => tag_of (t_settles t)) b = [] ->
  Forall (task_ok s') b.
Proof.
  induction 1 as [|t b Ht Hb IH]; intros K; [constructor|].
  constructor.
  - destruct K as [K|K].
    + eapply task_ok_change; eauto.
    + cbn in K. unfold task_ok in *.
      destruct (t_settles t); [discriminate K | exact Ht].
  - apply IH. destruct K as [K|K]; [now left|right].
    cbn in K. now apply app_eq_nil in K as [_ K].
Qed.

Lemma summary_mode (m m' : mode) (s s' : store) (ths : list thread) :
  summary m m' s s' ths -> (m' = MSci <-> m = MSci).
Proof.
  destruct m; cbn.
  - intros (-> & _). tauto.
  - intros [([->| ->] & _)|(i & _ & _ & _ & _ & [[-> _]|[-> _]])];
      split; discriminate.
  - intros (-> & _). split; discriminate.
  - intros ([->| ->] & _); split; discriminate.
  - intros (-> & _). split; discriminate.
Qed.

(** The pool stays in order across one stretch of a safe continuation. *)
Lemma stretch_ginv (m m' : mode) (tag : option nat) (w0 : world)
    (s' : store) (ths : list thread) :
  GInv (tag_of tag) w0 ->
  (tag <> None <-> m = MSci) ->
  (m = MSettled -> tags w0 = []) ->
  (m = MMacro -> queue w0 = []) ->
  (forall i, m <> MOwes i) ->
  fresh (st w0) <= fresh s' ->
  (m <> MSci -> keeps_null (st w0) s') ->
  summary m m' (st w0) s' ths ->
  seg_end m' s' ->
  GInv (thread_tags ths ++ tag_of tag)
       (mkWorld s' (queue w0) (blocked w0) (settled w0)).
Proof.
  intros [G1 G2 G3 G4 G5 G6] Ht Hset Hmac Hno F K S E.
  assert (Tw : tags (mkWorld s' (queue w0) (blocked w0) (settled w0)) = tags w0)
    by reflexivity.
  assert (Keep : forall l, l = thread_tags ths ++ tag_of tag ->
            (* the list of starts is as before and so is the promise *)
            thread_tags ths = [] ->
            (converterStartPromise s' = converterStartPromise (st w0) \/
             tag_of tag ++ tags w0 = []) ->
            (m <> MSci \/ tags w0 = []) ->
            GInv l (mkWorld s' (queue w0) (blocked w0) (settled w0))).
  { intros l -> T0 P Hk. rewrite T0. cbn [app].
    constructor; rewrite ?Tw; cbn [st queue blocked settled].
    - destruct P as [P|P]; [|left; exact P].
      destruct G1 as [G1|(i & G1 & Pi)]; [left; exact G1|].
      right. exists i. split; [exact G1 | congruence].
    - exact G2.
    - intros i Hi. specialize (G3 i Hi). lia.
    - intros i Hi. specialize (G4 i Hi). lia.
    - eapply untagged_ready_change; [exact G5| |auto].
      destruct Hk as [Hk|Hk]; [left; now apply K|right].
      unfold tags in Hk. now apply app_eq_nil in Hk as [Hk _].
    - eapply untagged_task_change; [exact G6|].
      destruct Hk as [Hk|Hk]; [left; now apply K|right].
      unfold tags in Hk. now apply app_eq_nil in Hk as [_ Hk]. }
  destruct m; cbn in S.
  - (* the start itself *)
    destruct S as (-> & P & ->).
    destruct tag as [i|]; [|exfalso; apply Ht; auto].
    apply Keep; auto. right.
    destruct G1 as [G1|(j & G1 & _)]; [discriminate G1|].
    cbn in G1. now injection G1.
  - (* after an external event *)
    destruct tag as [i|]; [assert (MMacro = MSci) by (apply Ht; discriminate);
                           discriminate|].
    destruct S as [(M & P & T0)|(i & L1 & L2 & N & T0 & M)].
    + apply Keep; auto. left; discriminate.
    + rewrite T0. cbn [tag_of app].
      assert (Q0 : queue w0 = []) by auto.
      assert (E0 : tags w0 = []).
      { destruct G1 as [G1|(j & _ & Pj)]; [exact G1 | congruence]. }
      assert (Pi : converterStartPromise s' = Some i).
      { destruct M as [[-> _]|[_ M]]; [exact (proj2 E) | exact M]. }
      constructor; rewrite ?Tw, ?E0; cbn [st queue blocked settled app].
      * right. exists i. auto.
      * intros j [<-|[]].
        destruct (outcome_of i (settled w0)) eqn:O; [|reflexivity].
        assert (i < fresh (st w0)) by (apply G4; congruence). lia.
      * intros j [<-|[]]. exact L2.
      * intros j Hj. specialize (G4 j Hj). lia.
      * rewrite Q0. constructor.
      * eapply untagged_task_change; [exact G6|]. left. apply K. discriminate.
  - destruct tag as [i|]; [assert (MMicro = MSci) by (apply Ht; discriminate);
                           discriminate|].
    destruct S as (-> & P & T0). apply Keep; auto. left; discriminate.
  - destruct tag as [i|]; [assert (MSettled = MSci) by (apply Ht; discriminate);
                           discriminate|].
    destruct S as (M & P & T0).
    apply Keep; auto; try solve [left; discriminate]; try solve [right; cbn; auto].
  - exfalso. now apply (Hno i).
Qed.

(** Running one continuation keeps the invariant. *)
Lemma run_ready_inv (m : mode) (r : ready) (w0 : world) :
  at_rest (st w0) ->
  GInv (tag_of (r_settles r)) w0 ->
  safe m (r_prog r) (st w0) Qtop ->
  (r_settles r <> None <-> m = MSci) ->
  (m = MSettled -> tags w0 = []) ->
  (m = MMacro -> queue w0 = []) ->
  (forall i, m <> MOwes i) ->
  Inv (run_ready r w0).
Proof.
  intros R0 G0 Hs Ht Hset Hmac Hno. unfold run_ready.
  destruct (exec (r_prog r) (st w0)) as [[s' ths] res] eqn:E.
  destruct (safe_exec _ _ _ _ Hs _ _ _ E) as (F & K & T & m' & S & R).
  pose proof (res_ok_seg_end _ _ _ R) as E'.
  pose proof (stretch_ginv m m' (r_settles r) w0 s' ths
                G0 Ht Hset Hmac Hno F K S E') as G1.
  destruct (dispatch_threads_ginv ths (tag_of (r_settles r)) _ G1 T) as [G2 C2].
  cbn [st] in C2.
  set (w2 := dispatch_threads ths
               (mkWorld s' (queue w0) (blocked w0) (settled w0))) in *.
  assert (Tm : thread_ok s' (mkThread res (r_settles r))).
  { destruct res as [| |wt k]; try exact I.
    eapply blocked_thread_ok; [exact R| |apply keeps_null_refl|reflexivity].
    rewrite (summary_mode _ _ _ _ _ S). exact Ht. }
  apply (core_eq_thread_ok _ _ _ C2) in Tm.
  rewrite <- (app_nil_r (tag_of (r_settles r))) in G2.
  destruct (dispatch_ginv [] res (r_settles r) w2 G2 Tm) as [G3 C3].
  split; [|exact G3].
  eapply core_eq_at_rest; [apply same_core_eq; exact C3|].
  eapply core_eq_at_rest; [exact C2 | exact (proj1 E')].
Qed.

Lemma inv_init : Inv init_world.
Proof.
  split.
  - split; [reflexivity|]. intros p H. discriminate H.
  - constructor; cbn; auto; try (now left).
    + intros i [].
    + intros i H. now contradiction H.
Qed.

Lemma ginv_store (X : list nat) (w : world) (s' : store) :
  GInv X w ->
  converterStartPromise s' = converterStartPromise (st w) ->
  ffmpegProcess s' = ffmpegProcess (st w) ->
  fresh (st w) <= fresh s' ->
  GInv X (mkWorld s' (queue w) (blocked w) (settled w)).
Proof.
  intros [G1 G2 G3 G4 G5 G6] Hp Hh Hf.
  assert (K : keeps_null (st w) s') by (unfold keeps_null; congruence).
  constructor; cbn [st queue blocked settled];
    change (tags (mkWorld s' (queue w) (blocked w) (settled w))) with (tags w).
  - destruct G1 as [G1|(i & G1 & Pi)]; [now left|].
    right. exists i. split; [exact G1 | congruence].
  - exact G2.
  - intros i Hi. specialize (G3 i Hi). lia.
  - intros i Hi. specialize (G4 i Hi). lia.
  - eapply untagged_ready_change; [exact G5 | now left | auto].
  - eapply untagged_task_change; [exact G6 | now left].
Qed.

Lemma micro_inv (w w' : world) : Inv w -> micro w = Some w' -> Inv w'.
Proof.
  intros [R0 G] H. unfold micro in H.
  destruct (queue w) as [|r q] eqn:Q; [discriminate|]. injection H as <-.
  destruct G as [G1 G2 G3 G4 G5 G6]. rewrite Q in G5.
  inversion G5 as [|? ? Hr Hq]; subst.
  set (w0 := mkWorld (st w) q (blocked w) (settled w)).
  assert (Tw : [] ++ tags w = tag_of (r_settles r) ++ tags w0).
  { unfold tags, w0. rewrite Q. cbn [queue blocked flat_map app].
    now rewrite app_assoc. }
  rewrite Tw in G1, G2, G3, Hr, Hq.
  assert (G0 : GInv (tag_of (r_settles r)) w0) by (constructor; assumption).
  unfold ready_ok in Hr.
  destruct (r_settles r) as [i|] eqn:Tg.
  - destruct Hr as (B & HB & Hc).
    apply (run_ready_inv MSci); rewrite ?Tg; try assumption; try discriminate.
    + apply Hc; auto.
    + split; [reflexivity | discriminate].
  - destruct Hr as [Hc|[N Hc]].
    + apply (run_ready_inv MMicro); rewrite ?Tg; try assumption; try discriminate.
      * apply Hc; [exact R0 | discriminate].
      * split; [intros H; now contradiction H | discriminate].
    + apply (run_ready_inv MSettled); rewrite ?Tg; try assumption; try discriminate.
      * apply Hc; [exact R0 | discriminate].
      * split; [intros H; now contradiction H | discriminate].
      * intros _. exact N.
Qed.

Lemma btags_remove_nth (n : nat) : forall (b : list task) (t : task),
  nth_error b n = Some t ->
  Permutation (flat_map (fun t => tag_of (t_settles t)) b)
    (tag_of (t_settles t)
       ++ flat_map (fun t => tag_of (t_settles t)) (remove_nth n b)).
Proof.
  induction n as [|n IH]; intros [|x b] t H; try discriminate.
  - injection H as ->. reflexivity.
  - cbn [nth_error] in H. cbn [remove_nth flat_map].
    rewrite (IH b t H). apply Permutation_app_swap_app.
Qed.

Lemma remove_nth_Forall {A} (P : A -> Prop) (n : nat) : forall l,
  Forall P l -> Forall P (remove_nth n l).
Proof.
  induction n as [|n IH]; intros [|x l] H; cbn; auto;
    inversion H; subst; auto.
Qed.

(** Taking a blocked call out of the pool to resume it. *)
Lemma ginv_take (w : world) (n : nat) (t : task) (s' : store) :
  GInv [] w -> w.(queue) = [] ->
  nth_error w.(blocked) n = Some t ->
  converterStartPromise s' = converterStartPromise (st w) ->
  ffmpegProcess s' = ffmpegProcess (st w) ->
  fresh (st w) <= fresh s' ->
  GInv (tag_of (t_settles t))
       (mkWorld s' (queue w) (remove_nth n (blocked w)) (settled w)) /\
  task_ok s' t.
Proof.
  intros G Q N Hp Hh Hf.
  pose proof (ginv_store _ _ s' G Hp Hh Hf) as [G1 G2 G3 G4 G5 G6].
  cbn [st queue blocked settled] in *.
  assert (P : Permutation
            ([] ++ tags (mkWorld s' (queue w) (blocked w) (settled w)))
            (tag_of (t_settles t)
               ++ tags (mkWorld s' (queue w) (remove_nth n (blocked w))
                          (settled w)))).
  { unfold tags. cbn [queue blocked app]. rewrite Q. cbn [flat_map app].
    now apply btags_remove_nth. }
  split.
  - constructor; cbn [st queue blocked settled].
    + exact (one_start_perm _ _ _ P G1).
    + intros i Hi. apply G2. eapply Permutation_in; [symmetry; exact P|exact Hi].
    + intros i Hi. apply G3. eapply Permutation_in; [symmetry; exact P|exact Hi].
    + exact G4.
    + rewrite Q. constructor.
    + now apply remove_nth_Forall.
  - rewrite Forall_forall in G6. apply G6. eapply nth_error_In; exact N.
Qed.

Lemma next_mode_macro (w : wait) : is_macro_wait w -> next_mode MMicro w = MMacro.
Proof. destruct w; cbn; intros H; try reflexivity; contradiction. Qed.

Lemma resume_inv (w : world) (n : nat) (t : task) (a : answer) (s' : store) :
  Inv w -> w.(queue) = [] ->
  nth_error w.(blocked) n = Some t ->
  is_macro_wait t.(t_wait) -> answer_ok t.(t_wait) a ->
  at_rest s' ->
  converterStartPromise s' = converterStartPromise (st w) ->
  ffmpegProcess s' = ffmpegProcess (st w) ->
  fresh (st w) <= fresh s' ->
  Inv (run_ready (wake a t)
         (mkWorld s' (queue w) (remove_nth n (blocked w)) (settled w))).
Proof.
  intros [R0 G] Q N M A R' Hp Hh Hf.
  destruct (ginv_take w n t s' G Q N Hp Hh Hf) as [G0 T].
  unfold task_ok in T. unfold wake.
  destruct (t_settles t) as [i|] eqn:Tg.
  - destruct T as (_ & B & HB & Hc).
    apply (run_ready_inv MSci); cbn [r_settles r_prog st queue]; rewrite ?Tg;
      try assumption; try discriminate.
    + apply (Hc a A); auto.
    + split; [reflexivity | discriminate].
  - destruct T as (_ & Hc). rewrite (next_mode_macro _ M) in Hc.
    apply (run_ready_inv MMacro); cbn [r_settles r_prog st queue]; rewrite ?Tg;
      try assumption; try discriminate.
    + apply (Hc a A); [exact R' | discriminate].
    + split; [intros H; now contradiction H | discriminate].
    + intros _. exact Q.
Qed.

Lemma fresh_inv (w : world) (r : ready) (s' : store) (m : mode) :
  Inv w -> w.(queue) = [] -> r.(r_settles) = None ->
  at_rest s' ->
  converterStartPromise s' = converterStartPromise (st w) ->
  ffmpegProcess s' = ffmpegProcess (st w) ->
  fresh (st w) <= fresh s' ->
  safe MMacro r.(r_prog) s' Qtop ->
  Inv (run_ready r (with_store s' w)).
Proof.
  intros [R0 G] Q Tg R' Hp Hh Hf S.
  apply (run_ready_inv MMacro); unfold with_store; cbn [st queue]; rewrite ?Tg;
    try assumption; try discriminate.
  - now apply ginv_store.
  - split; [intros H; now contradiction H | discriminate].
  - intros _. exact Q.
Qed.

Lemma with_store_same (w : world) : with_store (st w) w = w.
Proof. now destruct w. Qed.

Lemma handle_inv (e : event) (w w' : world) :
  Inv w -> no_exit e = true -> handle e w = Some w' -> Inv w'.
Proof.
  intros I0 Ne H. pose proof I0 as [R0 G]. unfold handle in H.
  destruct (queue w) as [|? ?] eqn:Q; [|discriminate].
  destruct e as [kind id|t|n ok|id| | |p|sp wr mk]; cbn [event_task] in H;
    try discriminate Ne.
  - injection H as <-. rewrite <- (with_store_same w).
    apply (fresh_inv w _ _ MMacro); auto. now apply on_produce_safe.
  - destruct (existsb (Nat.eqb t) (timers (st w))); [|discriminate].
    injection H as <-.
    apply (fresh_inv w _ _ MMacro); auto.
    now apply on_timer_safe.
  - destruct (nth_error (blocked w) n) as [t|] eqn:N; [|discriminate].
    destruct (t_wait t) eqn:Wt, ok; try discriminate; injection H as <-;
      apply resume_inv; rewrite ?Wt; cbn; auto.
  - injection H as <-.
    apply (fresh_inv w _ _ MMacro); auto.
    apply observers_safe; auto.
  - injection H as <-. rewrite <- (with_store_same w).
    apply (fresh_inv w _ _ MMacro); auto. now apply on_restart_safe.
  - injection H as <-. rewrite <- (with_store_same w).
    apply (fresh_inv w _ _ MMacro); auto. now apply on_reset_safe.
  - injection H as <-.
    apply (fresh_inv w _ _ MMacro); auto.
    cbn. unfold Qtop, seg_end. auto.
Qed.

Lemma reachable_inv (w : world) : reachable w -> Inv w.
Proof.
  induction 1 as [|w w' _ IH H|e w w' _ IH Ne H].
  - exact inv_init.
  - exact (micro_inv w w' IH H).
  - exact (handle_inv e w w' IH Ne H).
Qed.

(** ** What holds in every reachable state *)

Lemma head_safe (w : world) (r : ready) (q : list ready) :
  Inv w -> w.(queue) = r :: q -> exists m, safe m r.(r_prog) w.(st) Qtop.
Proof.
  intros [R0 G] Q. pose proof (g_queue _ _ G) as G5. rewrite Q in G5.
  inversion G5 as [|? ? Hr _]; subst. unfold ready_ok in Hr.
  destruct (r_settles r).
  - destruct Hr as (B & HB & Hc). exists MSci. apply Hc; auto.
  - destruct Hr as [Hc|[_ Hc]]; [exists MMicro | exists MSettled];
      (apply Hc; [exact R0 | discriminate]).
Qed.

Lemma resume_safe (w : world) (n : nat) (t : task) (a : answer) (s' : store) :
  Inv w -> nth_error w.(blocked) n = Some t ->
  is_macro_wait t.(t_wait) -> answer_ok t.(t_wait) a ->
  at_rest s' -> ffmpegProcess s' = ffmpegProcess (st w) ->
  exists m, safe m (t.(t_k) a) s' Qtop.
Proof.
  intros [R0 G] N M A R' Hh. pose proof (g_blocked _ _ G) as G6.
  rewrite Forall_forall in G6. specialize (G6 t (nth_error_In _ _ N)).
  unfold task_ok in G6. destruct (t_settles t).
  - destruct G6 as (_ & B & HB & Hc). exists MSci.
    apply (Hc a A); [exact R'|]. intros _ b. rewrite Hh. auto.
  - destruct G6 as (_ & Hc). rewrite (next_mode_macro _ M) in Hc.
    exists MMacro. apply (Hc a A); [exact R' | discriminate].
Qed.

Lemma event_task_safe (e : event) (w w0 : world) (r : ready) :
  Inv w -> no_exit e = true -> event_task e w = Some (r, w0) ->
  at_rest w0.(st) /\ exists m, safe m r.(r_prog) w0.(st) Qtop.
Proof.
  intros I0 Ne H. pose proof I0 as [R0 G].
  destruct e as [kind id|t|n ok|id| | |p|sp wr mk]; cbn [event_task] in H;
    try discriminate Ne.
  - injection H as <- <-. split; [exact R0|]. exists MMacro.
    now apply on_produce_safe.
  - destruct (existsb (Nat.eqb t) (timers (st w))); [|discriminate].
    injection H as <- <-. split; [exact R0|]. exists MMacro.
    now apply on_timer_safe.
  - destruct (nth_error (blocked w) n) as [t|] eqn:N; [|discriminate].
    destruct (t_wait t) eqn:Wt, ok; try discriminate; injection H as <- <-;
      (split; [exact R0|]);
      apply (resume_safe w n); rewrite ?Wt; cbn; auto.
  - injection H as <- <-. split; [exact R0|]. exists MMacro.
    apply observers_safe; auto.
  - injection H as <- <-. split; [exact R0|]. exists MMacro.
    now apply on_restart_safe.
  - injection H as <- <-. split; [exact R0|]. exists MMacro.
    now apply on_reset_safe.
  - injection H as <- <-. split; [exact R0|]. exists MMacro.
    cbn. unfold Qtop, seg_end. auto.
Qed.

Lemma drain_reachable (f : nat) : forall w w',
  reachable w -> drain f w = Some w' -> reachable w'.
Proof.
  induction f as [|f IH]; intros w w' R H; cbn in H;
    destruct (queue w) eqn:Q; try discriminate; try (injection H as <-; exact R).
  destruct (micro w) as [w1|] eqn:M; [|discriminate].
  exact (IH w1 w' (reach_micro w w1 R M) H).
Qed.

Lemma run_reachable (f : nat) (es : list event) : forall w w',
  reachable w -> forallb no_exit es = true -> run f es w = Some w' ->
  reachable w'.
Proof.
  induction es as [|e es IH]; intros w w' R Ne H; cbn [run] in H.
  - exact (drain_reachable f w w' R H).
  - cbn [forallb] in Ne. apply andb_prop in Ne as [Ne1 Ne2].
    destruct (drain f w) as [w1|] eqn:D; [|discriminate].
    destruct (handle e w1) as [w2|] eqn:Hd; [|discriminate].
    apply (IH w2 w'); [|exact Ne2|exact H].
    apply (reach_event e w1 w2); auto.
    exact (drain_reachable f w w1 R D).
Qed.

(** X1.  Between two turns of the event loop [isConverterRunning] is false,
    also after a start that went through: [tryStartConverter] raises the flag
    and [forceStopConverter], called from [startConverterInternal] in the same
    turn, lowers it again.  So [getState()] never reports a running
    converter.  (Runs in which no subprocess exit is delivered.) *)
Theorem getState_never_running (w : world) :
  reachable w -> (getState w.(st)).(st_isConverterRunning) = false.
Proof.
  intros R. destruct (reachable_inv w R) as [[Hr _] _]. exact Hr.
Qed.

Lemma getState_never_running_witness :
  exists w, run 50 scenario_running init_world = Some w /\
    status_of 7 w.(st).(procs) = Some Alive /\
    (getState w.(st)).(st_isConverterRunning) = false.
Proof.
  eexists. split; [vm_compute; reflexivity|]. split; [reflexivity|].
  apply getState_never_running.
  apply (run_reachable 50 scenario_running init_world _ reach_init);
    vm_compute; reflexivity.
Defined.

(** X2.  Between two turns of the event loop, every subprocess that was
    spawned and has not been sent a signal is the one [ffmpegProcess] holds;
    so there is at most one.  (Runs in which no subprocess exit is
    delivered.) *)
Theorem at_most_one_live_subprocess (w : world) (p q : nat) :
  reachable w ->
  status_of p w.(st).(procs) = Some Alive ->
  status_of q w.(st).(procs) = Some Alive ->
  w.(st).(ffmpegProcess) = Some p /\ p = q.
Proof.
  intros R Hp Hq. destruct (reachable_inv w R) as [[_ Ha] _].
  pose proof (Ha p Hp) as E1. pose proof (Ha q Hq) as E2.
  split; congruence.
Qed.

Lemma at_most_one_live_subprocess_witness :
  exists w, run 50 scenario_replace init_world = Some w /\
    status_of 7 w.(st).(procs) = Some Signalled /\
    w.(st).(ffmpegProcess) = Some 14 /\ 14 = 14.
Proof.
  eexists. split; [vm_compute; reflexivity|]. split; [reflexivity|].
  apply at_most_one_live_subprocess.
  - apply (run_reachable 50 scenario_replace init_world _ reach_init);
      vm_compute; reflexivity.
  - vm_compute; reflexivity.
  - vm_compute; reflexivity.
Defined.

(** X3.  At most one call of [startConverterInternal] is in flight, and while
    one is, [converterStartPromise] holds its promise.  (Runs in which no
    subprocess exit is delivered.) *)
Theorem at_most_one_start_in_flight (w : world) :
  reachable w ->
  tags w = [] \/
  exists i, tags w = [i] /\ w.(st).(converterStartPromise) = Some i.
Proof.
  intros R. destruct (reachable_inv w R) as [_ G].
  exact (g_tags _ _ G).
Qed.

Lemma at_most_one_start_in_flight_witness :
  exists w,
    run 50 [EvProduce video 100; EvProduce audio 101; EvTimer 1;
            EvTransportClose 100; EvProduce video 200; EvTimer 3]
        init_world = Some w /\
    (tags w = [] \/
     exists i, tags w = [i] /\ w.(st).(converterStartPromise) = Some i).
Proof.
  eexists. split; [vm_compute; reflexivity|].
  apply at_most_one_start_in_flight.
  apply (run_reachable 50
           [EvProduce video 100; EvProduce audio 101; EvTimer 1;
            EvTransportClose 100; EvProduce video 200; EvTimer 3]
           init_world _ reach_init);
    vm_compute; reflexivity.
Defined.

(** X4.  In every store the program goes through, also in the middle of a
    turn, [isConverterRunning] is true only when both producer slots are
    filled.  (Runs in which no subprocess exit is delivered.) *)
Theorem running_implies_both_producers (w : world) (x : store) :
  reachable w -> passes w x ->
  x.(isConverterRunning) = true ->
  x.(videoProducer) <> None /\ x.(audioProducer) <> None.
Proof.
  intros R P. pose proof (reachable_inv w R) as I0.
  assert (F0 : forall s, at_rest s -> flag_implies_producers s).
  { intros s [Hr _] H. congruence. }
  change (flag_implies_producers x).
  destruct P as [->|[(r & q & Q & Hx)|(e & r & w0 & Q & Ne & E & Hx)]].
  - apply F0, I0.
  - destruct (head_safe w r q I0 Q) as [m S].
    pose proof (safe_visited _ _ _ _ S (F0 _ (proj1 I0))) as V.
    rewrite Forall_forall in V. now apply V.
  - destruct (event_task_safe e w w0 r I0 Ne E) as [R' [m S]].
    pose proof (safe_visited _ _ _ _ S (F0 _ R')) as V.
    rewrite Forall_forall in V. now apply V.
Qed.

Lemma running_implies_both_producers_witness :
  exists w x,
    run 50 [EvProduce video 100; EvProduce audio 101] init_world = Some w /\
    passes w x /\ x.(isConverterRunning) = true /\
    (x.(videoProducer) <> None /\ x.(audioProducer) <> None).
Proof.
  eexists. eexists. split; [vm_compute; reflexivity|].
  match goal with
  | |- passes ?w _ /\ _ =>
      assert (HR : reachable w)
        by (apply (run_reachable 50 [EvProduce video 100; EvProduce audio 101]
                     init_world _ reach_init); vm_compute; reflexivity)
  end.
  match goal with
  | |- ?P /\ ?Q /\ ?R =>
      assert (HP : P);
      [ right; right; exists (EvTimer 1); eexists; eexists;
        split; [reflexivity|]; split; [reflexivity|];
        split; [vm_compute; reflexivity|];
        vm_compute; do 3 right; left; reflexivity
      | assert (HQ : Q);
        [ vm_compute; reflexivity
        | exact (conj HP (conj HQ
            (running_implies_both_producers _ _ HR HP HQ))) ] ]
  end.
Defined.

(** X5.  [stopConverter] called between two turns of the event loop while no
    start is in flight returns at its first guard: it changes nothing and
    calls nothing, whether or not a subprocess is running.  This is the call
    made by the [SIGINT] and [SIGTERM] handlers, by [reset], and by the
    [transportclose] observer when the last producer has gone.  (Runs in
    which no subprocess exit is delivered.) *)
Theorem stopConverter_at_rest_does_nothing (w : world) :
  reachable w -> w.(st).(converterStartPromise) = None ->
  exec stopConverter w.(st) = (w.(st), [], Done).
Proof.
  intros R Hp. destruct (reachable_inv w R) as [[Hr _] _].
  now apply stopConverter_idle.
Qed.

Lemma stopConverter_at_rest_does_nothing_witness :
  exists w, run 50 scenario_running init_world = Some w /\
    status_of 7 w.(st).(procs) = Some Alive /\
    exec stopConverter w.(st) = (w.(st), [], Done).
Proof.
  eexists. split; [vm_compute; reflexivity|]. split; [reflexivity|].
  apply stopConverter_at_rest_does_nothing.
  - apply (run_reachable 50 scenario_running init_world _ reach_init);
      vm_compute; reflexivity.
  - reflexivity.
Defined.

(** ** config.ts *)

Module ConfigFacts.
Import Config.
Local Open Scope Z_scope.

(** X6.  [validateConfig] returns normally exactly when the minimum RTC port is
    below the maximum, the two HLS ports differ and the segment duration lies
    between 1 and 10; otherwise it throws an error whose message begins with
    [Configuration errors: ]. *)
Theorem validateConfig_accepts_iff (c : Settings) :
  (validateConfig c = inl tt <->
   rtcMinPort c < rtcMaxPort c /\ videoPort c <> audioPort c /\
   1 <= segmentDuration c <= 10) /\
  (forall msg, validateConfig c = inr msg ->
     String.prefix "Configuration errors: " msg = true).
Proof.
  unfold validateConfig, errors.
  rewrite Z.geb_leb, Z.gtb_ltb.
  destruct (Z.leb_spec (rtcMaxPort c) (rtcMinPort c)),
           (Z.eqb_spec (videoPort c) (audioPort c)),
           (Z.ltb_spec (segmentDuration c) 1),
           (Z.ltb_spec 10 (segmentDuration c));
    cbn [app orb]; (split; [split; [intros K; try discriminate K; lia
                                   | intros K; try reflexivity; lia]
                           | intros msg K; try discriminate K;
                             injection K as <-; reflexivity]).
Qed.

End ConfigFacts.

(** ** The first revision *)

Module LegacyFacts.
Import Legacy.

Lemma produce_all_closed (l : list (Kind * nat)) : forall s, wf s ->
  produce_all l s
  = let v := or_else (hlsProducers_video s) (first_of video l) in
    let a := or_else (hlsProducers_audio s) (first_of audio l) in
    mkHls v a (is_some v && is_some a)
      match v, a with Some x, Some y => [(x, y)] | _, _ => [] end.
Proof.
  induction l as [|[k id] l IH]; intros [v a f st] [Hf Hs]; cbn in Hf, Hs.
  - subst f st. destruct v, a; reflexivity.
  - change (produce_all ((k, id) :: l) (mkHls v a f st))
      with (produce_all l (on_produce k id (mkHls v a f st))).
    subst f st.
    destruct k, v as [v|], a as [a|]; cbn [on_produce fst snd hlsProducers_video
      hlsProducers_audio isHlsConverterStarted starts is_some andb app];
      (rewrite IH; [|split; reflexivity]); reflexivity.
Qed.

(** X7.  Over any sequence of producers, the first revision of the [produce]
    handler keeps the first video and the first audio producer (a later one
    of the same kind is ignored), and calls [startRtpToHlsConverter] once,
    with these two, when both are there; it never calls it again. *)
Theorem first_producers_win_and_start_once (l : list (Kind * nat)) :
  produce_all l init
  = mkHls (first_of video l) (first_of audio l)
      (is_some (first_of video l) && is_some (first_of audio l))
      match first_of video l, first_of audio l with
      | Some v, Some a => [(v, a)]
      | _, _ => []
      end.
Proof.
  rewrite produce_all_closed; [reflexivity | split; reflexivity].
Qed.

Lemma split_on_none (c : ascii) (x : string) :
  has_char c x = false -> split_on c x = [x].
Proof.
  induction x as [|d x IH]; cbn; [reflexivity|].
  destruct (Ascii.eqb d c); cbn; [discriminate|].
  intros H. now rewrite (IH H).
Qed.

Lemma split_on_app (c : ascii) (x r : string) :
  has_char c x = false ->
  split_on c (x ++ String c r) = x :: split_on c r.
Proof.
  induction x as [|d x IH]; cbn.
  - now rewrite Ascii.eqb_refl.
  - destruct (Ascii.eqb d c); cbn; [discriminate|].
    intros H. now rewrite (IH H).
Qed.

(** X8.  [l.join(c).split(c)] gives [l] back when [l] is not empty and no
    element contains the separator; so the first revision of [runFfmpeg]
    hands [spawn] its [options] array unchanged. *)
Theorem split_join_round_trip (c : ascii) (l : list string) :
  l <> [] -> forallb (fun x => negb (has_char c x)) l = true ->
  split_on c (String.concat (String c EmptyString) l) = l.
Proof.
  induction l as [|x l IH]; intros Hn Hl; [congruence|].
  cbn [forallb] in Hl. apply andb_prop in Hl as [Hx Hl].
  apply negb_true_iff in Hx.
  destruct l as [|y l]; cbn [String.concat].
  - now apply split_on_none.
  - cbn [append]. rewrite (split_on_app c x _ Hx).
    f_equal. apply IH; [discriminate | exact Hl].
Qed.

Lemma split_join_round_trip_witness : spawn_args options = options.
Proof.
  unfold spawn_args.
  apply (split_join_round_trip " "%char options); [discriminate | reflexivity].
Defined.

End LegacyFacts.

(** ** More on createSdpString *)

Module SdpNames.
Import Sdp.
Local Open Scope string_scope.

Lemma split_slash_split_on (s : string) :
  split_slash s = Legacy.split_on "/"%char s.
Proof.
  induction s as [|c s IH]; cbn; [reflexivity|]. now rewrite IH.
Qed.

Lemma append_assoc (a b c : string) : (a ++ b) ++ c = a ++ b ++ c.
Proof. induction a as [|x a IH]; cbn; [reflexivity | now rewrite IH]. Qed.

Lemma formatParams_v1_declared (c : Codec) :
  declares_params c = true ->
  formatParams_v1 (parameters c) = Some (formatParams (parameters c)).
Proof.
  unfold declares_params, formatParams_v1, formatParams.
  destruct (parameters c) as [[|kv l]|]; try discriminate. reflexivity.
Qed.

(** X11.  When both codecs declare format parameters and the audio codec gives a
    channel count other than 0, the two revisions of [createSdpString] write
    the same lines for the same ports: the first revision separates them by
    line feeds inside a template literal, the current one ends each with
    CR LF. *)
Theorem revisions_agree_on_lines (v a : Endpoint) (vc ac : Codec)
    (vcs acs : list Codec) (n : N) :
  codecs v = vc :: vcs -> codecs a = ac :: acs ->
  declares_params vc = true -> declares_params ac = true ->
  channels ac = Some n -> n <> 0%N ->
  createSdpString_v1 (Some (localPort v)) (Some (localPort a)) (codecs v) (codecs a)
  = Some (lf ++ String.concat lf (sdpLines v a vc ac) ++ lf ++ "  ") /\
  createSdpString v a = Some (String.concat crlf (sdpLines v a vc ac) ++ crlf).
Proof.
  intros Hv Ha Dv Da Hc Hn.
  unfold createSdpString, createSdpString_v1. rewrite Hv, Ha.
  split; [|reflexivity].
  rewrite (formatParams_v1_declared vc Dv), (formatParams_v1_declared ac Da).
  unfold sdpLines, header, video_tail, audio_lines, audio_rtpmap.
  rewrite !SdpFacts.fmtp_cases, Dv, Da, Hc.
  assert (E : or_default (Some n) 2 = n) by (destruct n; [congruence | reflexivity]).
  rewrite E. cbn [app String.concat show_optN].
  f_equal. rewrite !append_assoc. reflexivity.
Qed.

Lemma revisions_agree_on_lines_witness :
  createSdpString_v1 (Some 5004%N) (Some 5006%N)
    [mkCodec "video/VP8" 101 90000 None (Some [("x-google-start-bitrate", PNum 1000)])]
    [mkCodec "audio/opus" 100 48000 (Some 2%N) (Some [("useinbandfec", PNum 1)])]
  = Some (lf ++ String.concat lf
            (sdpLines
               (mkEndpoint 5004
                  [mkCodec "video/VP8" 101 90000 None
                     (Some [("x-google-start-bitrate", PNum 1000)])])
               (mkEndpoint 5006
                  [mkCodec "audio/opus" 100 48000 (Some 2%N)
                     (Some [("useinbandfec", PNum 1)])])
               (mkCodec "video/VP8" 101 90000 None
                  (Some [("x-google-start-bitrate", PNum 1000)]))
               (mkCodec "audio/opus" 100 48000 (Some 2%N)
                  (Some [("useinbandfec", PNum 1)])))
          ++ lf ++ "  ") /\
  createSdpString
    (mkEndpoint 5004
       [mkCodec "video/VP8" 101 90000 None
          (Some [("x-google-start-bitrate", PNum 1000)])])
    (mkEndpoint 5006
       [mkCodec "audio/opus" 100 48000 (Some 2%N)
          (Some [("useinbandfec", PNum 1)])])
  = Some (String.concat crlf
            (sdpLines
               (mkEndpoint 5004
                  [mkCodec "video/VP8" 101 90000 None
                     (Some [("x-google-start-bitrate", PNum 1000)])])
               (mkEndpoint 5006
                  [mkCodec "audio/opus" 100 48000 (Some 2%N)
                     (Some [("useinbandfec", PNum 1)])])
               (mkCodec "video/VP8" 101 90000 None
                  (Some [("x-google-start-bitrate", PNum 1000)]))
               (mkCodec "audio/opus" 100 48000 (Some 2%N)
                  (Some [("useinbandfec", PNum 1)])))
          ++ crlf).
Proof.
  apply (revisions_agree_on_lines
           (mkEndpoint 5004
              [mkCodec "video/VP8" 101 90000 None
                 (Some [("x-google-start-bitrate", PNum 1000)])])
           (mkEndpoint 5006
              [mkCodec "audio/opus" 100 48000 (Some 2%N)
                 (Some [("useinbandfec", PNum 1)])])
           _ _ [] [] 2%N); try reflexivity; discriminate.
Defined.

End SdpNames.

(** ** The text of the session description *)

Module SdpTextFacts.
Import Sdp SdpText.
Local Open Scope string_scope.

Lemma no_break_app (a b : string) :
  no_break (a ++ b) = no_break a && no_break b.
Proof.
  induction a as [|c a IH]; cbn; [reflexivity|].
  rewrite IH. now rewrite !andb_assoc.
Qed.

Lemma no_break_uint (d : Decimal.uint) :
  no_break (NilEmpty.string_of_uint d) = true.
Proof. induction d; cbn; auto. Qed.

Lemma no_break_num (n : N) : no_break (num n) = true.
Proof.
  unfold num, NilZero.string_of_uint.
  destruct (N.to_uint n) eqn:E; try reflexivity;
    rewrite <- E; try apply no_break_uint;
    rewrite E; apply (no_break_uint _).
Qed.

Lemma string_app_assoc (a b c : string) : (a ++ b) ++ c = a ++ b ++ c.
Proof. induction a as [|x a IH]; cbn; [reflexivity | now rewrite IH]. Qed.

Lemma string_app_nil (a : string) : a ++ "" = a.
Proof. induction a as [|x a IH]; cbn; [reflexivity | now rewrite IH]. Qed.

Lemma text_lines_cons (c : ascii) (r : string) :
  Ascii.eqb c CR = false -> text_lines (String c r) = push c (text_lines r).
Proof. intros H. destruct r; cbn [text_lines]; rewrite ?H; reflexivity. Qed.

(** A piece without a line break, followed by CR LF, is a line. *)
Lemma text_lines_line (x rest : string) :
  no_break x = true -> text_lines (x ++ crlf ++ rest) = x :: text_lines rest.
Proof.
  induction x as [|c x IH]; intros H.
  - reflexivity.
  - cbn [no_break] in H. apply andb_prop in H as [H Hx].
    apply andb_prop in H as [Hc _]. apply negb_true_iff in Hc.
    cbn [append]. rewrite (text_lines_cons _ _ Hc), (IH Hx). reflexivity.
Qed.

Lemma text_lines_concat (ls : list string) :
  ls <> [] -> forallb no_break ls = true ->
  text_lines (String.concat crlf ls ++ crlf) = (ls ++ [""])%list.
Proof.
  induction ls as [|x ls IH]; intros Hn Hl; [congruence|].
  cbn [forallb] in Hl. apply andb_prop in Hl as [Hx Hl].
  destruct ls as [|y ls].
  - cbn [String.concat]. rewrite <- (string_app_nil crlf) at 1.
    now rewrite (text_lines_line x "" Hx).
  - change (String.concat crlf (x :: y :: ls))
      with (x ++ crlf ++ String.concat crlf (y :: ls)).
    rewrite !string_app_assoc, (text_lines_line x _ Hx).
    rewrite IH; [reflexivity | discriminate | exact Hl].
Qed.

Lemma no_break_concat (sep : string) (l : list string) :
  no_break sep = true -> forallb no_break l = true ->
  no_break (String.concat sep l) = true.
Proof.
  intros Hs. induction l as [|x l IH]; intros Hl; [reflexivity|].
  cbn [forallb] in Hl. apply andb_prop in Hl as [Hx Hl].
  destruct l as [|y l]; [exact Hx|].
  change (String.concat sep (x :: y :: l))
    with (x ++ sep ++ String.concat sep (y :: l)).
  rewrite !no_break_app, Hx, Hs. now apply IH.
Qed.

Lemma split_slash_no_break (s : string) :
  no_break s = true -> forallb no_break (split_slash s) = true.
Proof.
  induction s as [|c s IH]; intros H; [reflexivity|].
  cbn [no_break] in H. apply andb_prop in H as [Hc Hs].
  specialize (IH Hs). cbn [split_slash].
  destruct (Ascii.eqb c "/"); [exact IH|].
  destruct (split_slash s) as [|h t]; cbn [forallb no_break] in *.
  - now rewrite Hc.
  - apply andb_prop in IH as [Hh Ht]. now rewrite Hc, Hh, Ht.
Qed.

Lemma nth_or_undefined_no_break (l : list string) : forall n,
  forallb no_break l = true -> no_break (nth_or_undefined l n) = true.
Proof.
  unfold nth_or_undefined.
  induction l as [|x l IH]; intros [|n] H; cbn; try reflexivity;
    cbn [forallb] in H; apply andb_prop in H as [Hx Hl]; auto.
Qed.

Lemma lookup_no_break (k : string) (l : list (string * pvalue)) :
  forallb (fun kv => no_break (fst kv) && clean_value (snd kv)) l = true ->
  no_break (show_opt (lookup k l)) = true.
Proof.
  induction l as [|[k' v] l IH]; intros H; [reflexivity|].
  cbn [forallb fst snd] in H. apply andb_prop in H as [H Hl].
  apply andb_prop in H as [_ Hv]. cbn [lookup].
  destruct (String.eqb k' k); [|now apply IH].
  destruct v; cbn; [apply no_break_num | exact Hv].
Qed.

Lemma pairs_no_break (l l0 : list (string * pvalue)) :
  forallb (fun kv => no_break (fst kv) && clean_value (snd kv)) l = true ->
  forallb (fun kv => no_break (fst kv) && clean_value (snd kv)) l0 = true ->
  forallb no_break
    (map (fun kv => fst kv ++ "=" ++ show_opt (lookup (fst kv) l)) l0) = true.
Proof.
  intros Hl. induction l0 as [|kv l0 IH]; intros H0; [reflexivity|].
  cbn [forallb map] in *. apply andb_prop in H0 as [H Hr].
  apply andb_prop in H as [Hk _].
  rewrite !no_break_app, Hk, (lookup_no_break _ _ Hl). cbn. now apply IH.
Qed.

Lemma formatParams_no_break (c : Codec) :
  clean_codec c = true -> no_break (formatParams (parameters c)) = true.
Proof.
  unfold clean_codec, formatParams. intros H.
  apply andb_prop in H as [_ H].
  destruct (parameters c) as [[|kv l]|]; try reflexivity.
  apply no_break_concat; [reflexivity|]. now apply pairs_no_break.
Qed.

Lemma codec_name_no_break (c : Codec) :
  clean_codec c = true ->
  no_break (nth_or_undefined (split_slash (mimeType c)) 1) = true.
Proof.
  unfold clean_codec. intros H. apply andb_prop in H as [H _].
  now apply nth_or_undefined_no_break, split_slash_no_break.
Qed.

Lemma fmtp_no_break (c : Codec) :
  clean_codec c = true -> forallb no_break (fmtp c) = true.
Proof.
  intros H. unfold fmtp. destruct (truthy _); [|reflexivity].
  cbn [forallb]. rewrite !no_break_app, no_break_num, (formatParams_no_break c H).
  reflexivity.
Qed.

Lemma sdpLines_no_break (v a : Endpoint) (vc ac : Codec) :
  clean_codec vc = true -> clean_codec ac = true ->
  forallb no_break (sdpLines v a vc ac) = true.
Proof.
  intros Hv Ha. unfold sdpLines, header, video_tail, audio_lines, audio_rtpmap.
  rewrite !forallb_app, (fmtp_no_break vc Hv), (fmtp_no_break ac Ha).
  cbn [forallb].
  rewrite !no_break_app, !no_break_num,
    (codec_name_no_break vc Hv), (codec_name_no_break ac Ha).
  reflexivity.
Qed.

Lemma video_lines_not_audio (v : Endpoint) (vc : Codec) (l : list string) :
  video_section ((header v vc ++ video_tail vc) ++ l)
  = ((header v vc ++ video_tail vc) ++ video_section l)%list /\
  audio_section ((header v vc ++ video_tail vc) ++ l) = audio_section l.
Proof.
  unfold video_tail. rewrite SdpFacts.fmtp_cases.
  destruct (declares_params vc); split; reflexivity.
Qed.

Lemma audio_media_line (x : string) : is_audio_media ("m=audio " ++ x) = true.
Proof. unfold is_audio_media. cbn. now destruct x. Qed.

(** The text [createSdpString] returns, as lines and as sections. *)
Lemma createSdpString_text (v a : Endpoint) (vc ac : Codec)
    (vcs acs : list Codec) :
  codecs v = vc :: vcs -> codecs a = ac :: acs ->
  clean_codec vc = true -> clean_codec ac = true ->
  exists text,
    createSdpString v a = Some text /\
    text_lines text = (sdpLines v a vc ac ++ [""])%list /\
    video_section (text_lines text) = (header v vc ++ video_tail vc)%list /\
    audio_section (text_lines text) = (audio_lines a ac ++ [""])%list.
Proof.
  intros Ev Ea Hv Ha. unfold createSdpString. rewrite Ev, Ea.
  eexists. split; [reflexivity|].
  assert (L : text_lines (String.concat crlf (sdpLines v a vc ac) ++ crlf)
              = (sdpLines v a vc ac ++ [""])%list).
  { apply text_lines_concat; [discriminate | now apply sdpLines_no_break]. }
  rewrite L. split; [reflexivity|].
  unfold sdpLines. rewrite app_assoc, <- app_assoc.
  destruct (video_lines_not_audio v vc (audio_lines a ac ++ [""])) as [F1 F2].
  rewrite F1, F2. unfold audio_lines. cbn [app video_section audio_section].
  rewrite !audio_media_line.
  split; [now rewrite app_nil_r | reflexivity].
Qed.

(** The claim about codec-parameter lines fails when a string of a codec
    carries a line break: the MIME type of [forged_video] puts the text of a
    parameter line on a line of its own, in the video section, although the
    codec declares no format parameter. *)
Lemma line_break_forges_fmtp_line :
  exists text,
    createSdpString (mkEndpoint 5004 [forged_video])
                    (mkEndpoint 5006 [plain_audio]) = Some text /\
    declares_params forged_video = false /\
    In "a=fmtp:101 x=1/90000" (video_section (text_lines text)) /\
    existsb is_fmtp (video_section (text_lines text)) = true.
Proof.
  eexists. split; [reflexivity|]. split; [reflexivity|].
  split; [vm_compute; tauto | vm_compute; reflexivity].
Qed.

(** C9 (codec-parameter lines and the default channel count).  For endpoints
    that carry a codec each, none of whose strings (MIME type, parameter keys
    and values) has a line break, [createSdpString] returns a text in which
    the video section has an [a=fmtp:] line exactly when the video codec
    declares a format parameter, and the audio section likewise; the text has
    one such line per declaring codec; and when the audio codec leaves the
    channel count out, the [rtpmap] line of the audio section ends in
    [/2]. *)
Theorem description_fmtp_lines (v a : Endpoint) (vc ac : Codec)
    (vcs acs : list Codec) :
  codecs v = vc :: vcs -> codecs a = ac :: acs ->
  clean_codec vc = true -> clean_codec ac = true ->
  exists text,
    createSdpString v a = Some text /\
    existsb is_fmtp (video_section (text_lines text)) = declares_params vc /\
    existsb is_fmtp (audio_section (text_lines text)) = declares_params ac /\
    count_fmtp (text_lines text)
      = Nat.b2n (declares_params vc) + Nat.b2n (declares_params ac) /\
    (channels ac = None ->
     nth_error (audio_section (text_lines text)) 1
     = Some ("a=rtpmap:" ++ num (payloadType ac) ++ " "
               ++ nth_or_undefined (split_slash (mimeType ac)) 1 ++ "/"
               ++ num (clockRate ac) ++ "/2")).
Proof.
  intros Ev Ea Hv Ha.
  destruct (createSdpString_text v a vc ac vcs acs Ev Ea Hv Ha)
    as (text & E & L & Sv & Sa).
  exists text. split; [exact E|]. rewrite Sv, Sa, L.
  split.
  { unfold video_tail. rewrite !existsb_app, SdpFacts.existsb_fmtp.
    cbn. now rewrite orb_false_r. }
  split.
  { unfold audio_lines. rewrite !existsb_app, SdpFacts.existsb_fmtp.
    cbn. now rewrite !orb_false_r. }
  split.
  { unfold count_fmtp, sdpLines, video_tail, audio_lines.
    rewrite !filter_app, !length_app, !SdpFacts.filter_fmtp,
      SdpFacts.header_no_fmtp.
    cbn. lia. }
  intros Hc. unfold audio_lines, audio_rtpmap. cbn [app nth_error].
  now rewrite Hc.
Qed.

Lemma description_fmtp_lines_witness :
  exists text,
    createSdpString
      (mkEndpoint 5004
         [mkCodec "video/H264" 102 90000 None
            (Some [("packetization-mode", PNum 1);
                   ("profile-level-id", PStr "4d0032")])])
      (mkEndpoint 5006 [mkCodec "audio/opus" 100 48000 None None])
    = Some text /\
    existsb is_fmtp (video_section (text_lines text)) = true /\
    existsb is_fmtp (audio_section (text_lines text)) = false /\
    count_fmtp (text_lines text) = 1 /\
    nth_error (audio_section (text_lines text)) 1
    = Some "a=rtpmap:100 opus/48000/2".
Proof.
  destruct (description_fmtp_lines
              (mkEndpoint 5004
                 [mkCodec "video/H264" 102 90000 None
                    (Some [("packetization-mode", PNum 1);
                           ("profile-level-id", PStr "4d0032")])])
              (mkEndpoint 5006 [mkCodec "audio/opus" 100 48000 None None])
              _ _ [] [] eq_refl eq_refl eq_refl eq_refl)
    as (text & E & F1 & F2 & F3 & F4).
  exists text. split; [exact E|]. split; [exact F1|]. split; [exact F2|].
  split; [exact F3|]. exact (F4 eq_refl).
Defined.

Lemma codec_name_after_slash (c : Codec) (kind name : string) :
  mimeType c = kind ++ "/" ++ name ->
  Legacy.has_char "/"%char kind = false ->
  Legacy.has_char "/"%char name = false ->
  nth_or_undefined (split_slash (mimeType c)) 1 = name.
Proof.
  intros Hm Hk Hn. rewrite Hm, SdpNames.split_slash_split_on.
  change (kind ++ "/" ++ name) with (kind ++ String "/"%char name).
  rewrite (LegacyFacts.split_on_app _ _ _ Hk), (LegacyFacts.split_on_none _ _ Hn).
  reflexivity.
Qed.

Lemma codec_name_without_slash (c : Codec) :
  Legacy.has_char "/"%char (mimeType c) = false ->
  nth_or_undefined (split_slash (mimeType c)) 1 = "undefined".
Proof.
  intros Hm.
  rewrite SdpNames.split_slash_split_on, (LegacyFacts.split_on_none _ _ Hm).
  reflexivity.
Qed.

(** The two [rtpmap] lines of the text: the seventh line, and the second
    line of the audio section. *)
Lemma rtpmap_lines (v a : Endpoint) (vc ac : Codec) (vcs acs : list Codec) :
  codecs v = vc :: vcs -> codecs a = ac :: acs ->
  clean_codec vc = true -> clean_codec ac = true ->
  exists text,
    createSdpString v a = Some text /\
    nth_error (text_lines text) 6
    = Some ("a=rtpmap:" ++ num (payloadType vc) ++ " "
              ++ nth_or_undefined (split_slash (mimeType vc)) 1 ++ "/"
              ++ num (clockRate vc)) /\
    nth_error (audio_section (text_lines text)) 1
    = Some ("a=rtpmap:" ++ num (payloadType ac) ++ " "
              ++ nth_or_undefined (split_slash (mimeType ac)) 1 ++ "/"
              ++ num (clockRate ac) ++ "/" ++ num (or_default (channels ac) 2)).
Proof.
  intros Ev Ea Hv Ha.
  destruct (createSdpString_text v a vc ac vcs acs Ev Ea Hv Ha)
    as (text & E & L & _ & Sa).
  exists text. split; [exact E|]. rewrite Sa, L. split; reflexivity.
Qed.

(** X9.  For endpoints that carry a codec each, none of whose strings has a
    line break, and whose MIME types are [kind/name] with no further slash:
    in the text [createSdpString] returns, the seventh line, which is the
    [rtpmap] line of the video section, names the video codec [name], and the
    [rtpmap] line of the audio section names the audio codec likewise and
    ends in the channel count, 2 when the codec has none. *)
Theorem rtpmap_names_codec (v a : Endpoint) (vc ac : Codec)
    (vcs acs : list Codec) (kv nv ka na : string) :
  codecs v = vc :: vcs -> codecs a = ac :: acs ->
  clean_codec vc = true -> clean_codec ac = true ->
  mimeType vc = kv ++ "/" ++ nv ->
  Legacy.has_char "/"%char kv = false -> Legacy.has_char "/"%char nv = false ->
  mimeType ac = ka ++ "/" ++ na ->
  Legacy.has_char "/"%char ka = false -> Legacy.has_char "/"%char na = false ->
  exists text,
    createSdpString v a = Some text /\
    nth_error (text_lines text) 6
    = Some ("a=rtpmap:" ++ num (payloadType vc) ++ " " ++ nv ++ "/"
              ++ num (clockRate vc)) /\
    nth_error (audio_section (text_lines text)) 1
    = Some ("a=rtpmap:" ++ num (payloadType ac) ++ " " ++ na ++ "/"
              ++ num (clockRate ac) ++ "/" ++ num (or_default (channels ac) 2)).
Proof.
  intros Ev Ea Hv Ha Mv Kv Nv Ma Ka Na.
  destruct (rtpmap_lines v a vc ac vcs acs Ev Ea Hv Ha) as (text & E & Lv & La).
  exists text. split; [exact E|].
  rewrite (codec_name_after_slash vc kv nv Mv Kv Nv) in Lv.
  rewrite (codec_name_after_slash ac ka na Ma Ka Na) in La.
  split; assumption.
Qed.

Lemma rtpmap_names_codec_witness :
  exists text,
    createSdpString
      (mkEndpoint 5004 [mkCodec "video/H264" 102 90000 None None])
      (mkEndpoint 5006 [mkCodec "audio/opus" 100 48000 None None])
    = Some text /\
    nth_error (text_lines text) 6 = Some "a=rtpmap:102 H264/90000" /\
    nth_error (audio_section (text_lines text)) 1
    = Some "a=rtpmap:100 opus/48000/2".
Proof.
  exact (rtpmap_names_codec
           (mkEndpoint 5004 [mkCodec "video/H264" 102 90000 None None])
           (mkEndpoint 5006 [mkCodec "audio/opus" 100 48000 None None])
           _ _ [] [] "video" "H264" "audio" "opus"
           eq_refl eq_refl eq_refl eq_refl
           eq_refl eq_refl eq_refl eq_refl eq_refl eq_refl).
Defined.

(** X10.  For endpoints that carry a codec each, none of whose strings has a
    line break, [createSdpString] raises nothing and returns a text also when
    a MIME type has no slash: [split("/")[1]] is then undefined, and the
    [rtpmap] line of that codec names it [undefined]. *)
Theorem rtpmap_without_slash (v a : Endpoint) (vc ac : Codec)
    (vcs acs : list Codec) :
  codecs v = vc :: vcs -> codecs a = ac :: acs ->
  clean_codec vc = true -> clean_codec ac = true ->
  exists text,
    createSdpString v a = Some text /\
    (Legacy.has_char "/"%char (mimeType vc) = false ->
     nth_error (text_lines text) 6
     = Some ("a=rtpmap:" ++ num (payloadType vc) ++ " undefined/"
               ++ num (clockRate vc))) /\
    (Legacy.has_char "/"%char (mimeType ac) = false ->
     nth_error (audio_section (text_lines text)) 1
     = Some ("a=rtpmap:" ++ num (payloadType ac) ++ " undefined/"
               ++ num (clockRate ac) ++ "/"
               ++ num (or_default (channels ac) 2))).
Proof.
  intros Ev Ea Hv Ha.
  destruct (rtpmap_lines v a vc ac vcs acs Ev Ea Hv Ha) as (text & E & Lv & La).
  exists text. split; [exact E|]. split; intros Hm.
  - rewrite (codec_name_without_slash vc Hm) in Lv. exact Lv.
  - rewrite (codec_name_without_slash ac Hm) in La. exact La.
Qed.

Lemma rtpmap_without_slash_witness :
  exists text,
    createSdpString
      (mkEndpoint 5004 [mkCodec "VP8" 101 90000 None None])
      (mkEndpoint 5006 [mkCodec "opus" 100 48000 None None])
    = Some text /\
    nth_error (text_lines text) 6 = Some "a=rtpmap:101 undefined/90000" /\
    nth_error (audio_section (text_lines text)) 1
    = Some "a=rtpmap:100 undefined/48000/2".
Proof.
  destruct (rtpmap_without_slash
              (mkEndpoint 5004 [mkCodec "VP8" 101 90000 None None])
              (mkEndpoint 5006 [mkCodec "opus" 100 48000 None None])
              _ _ [] [] eq_refl eq_refl eq_refl eq_refl)
    as (text & E & Lv & La).
  exists text. split; [exact E|]. split; [exact (Lv eq_refl) | exact (La eq_refl)].
Defined.

End SdpTextFacts.

(** ** Calls that find nothing to stop *)

(** X12.  [reset()] between two turns of the event loop, with no start in
    flight, empties the two producer slots and does nothing else: its
    [stopConverter] returns at the first guard because the flag is false.  A
    running subprocess keeps running and an armed debounce timer stays
    armed.  (Runs in which no subprocess exit is delivered.) *)
Theorem reset_leaves_subprocess_running (w : world) :
  reachable w -> w.(st).(converterStartPromise) = None ->
  exec reset w.(st)
  = (set_audioProducer None (set_videoProducer None w.(st)), [],
     Blocked WTick (fun _ => Ret)).
Proof.
  intros R Hp. destruct (reachable_inv w R) as [[Hr _] _].
  unfold reset, await_call, stopConverter, write, tick.
  cbn. rewrite Hr, Hp. reflexivity.
Qed.

Lemma reset_leaves_subprocess_running_witness :
  exists w, run 50 scenario_running init_world = Some w /\
    status_of 7 w.(st).(procs) = Some Alive /\
    exec reset w.(st)
    = (set_audioProducer None (set_videoProducer None w.(st)), [],
       Blocked WTick (fun _ => Ret)).
Proof.
  eexists. split; [vm_compute; reflexivity|]. split; [reflexivity|].
  apply reset_leaves_subprocess_running.
  - apply (run_reachable 50 scenario_running init_world _ reach_init);
      vm_compute; reflexivity.
  - reflexivity.
Defined.

(** X14.  [setProducer] between two turns of the event loop, with no start in
    flight, does not stop the converter either, also when it replaces a
    producer by another one: it re-arms the debounce timer, fills the slot and
    registers the observer, and the handler is done within the turn.  The
    subprocess that runs with the old producer keeps running until the timer
    fires.  (Runs in which no subprocess exit is delivered.) *)
Theorem setProducer_leaves_subprocess_running (w : world) (kind : Kind)
    (id : nat) :
  reachable w -> w.(queue) = [] -> w.(st).(converterStartPromise) = None ->
  exists w',
    run 10 [EvProduce kind id] w = Some w' /\
    w'.(st) = after_setProducer kind id w.(st) /\
    w'.(queue) = [] /\ w'.(blocked) = w.(blocked) /\
    w'.(st).(ffmpegProcess) = w.(st).(ffmpegProcess) /\
    w'.(st).(procs) = w.(st).(procs).
Proof.
  intros R Q Hp. destruct (reachable_inv w R) as [[Hr _] _].
  destruct w as [s q bl sd]. cbn in Q, Hp, Hr. subst q.
  eexists. split; [now apply produce_idle|]. cbn [st queue blocked].
  repeat split; unfold after_setProducer, after_arm, after_clear, set_slot;
    destruct kind, (restartTimeout s); reflexivity.
Qed.

Lemma setProducer_leaves_subprocess_running_witness :
  exists w,
    run 50 scenario_running init_world = Some w /\
    status_of 7 w.(st).(procs) = Some Alive /\
    exists w',
      run 10 [EvProduce video 200] w = Some w' /\
      w'.(st) = after_setProducer video 200 w.(st) /\
      w'.(queue) = [] /\ w'.(blocked) = w.(blocked) /\
      w'.(st).(ffmpegProcess) = w.(st).(ffmpegProcess) /\
      w'.(st).(procs) = w.(st).(procs).
Proof.
  eexists. split; [vm_compute; reflexivity|]. split; [reflexivity|].
  apply setProducer_leaves_subprocess_running.
  - apply (run_reachable 50 scenario_running init_world _ reach_init);
      vm_compute; reflexivity.
  - reflexivity.
  - reflexivity.
Defined.

(** X15.  [stopHlsConverter] sends the signal and drops the handle before its
    first [await], and it does not wait for the subprocess to exit: with no
    transport and no consumer registered it is done within the turn, the
    subprocess signalled and not yet gone. *)
Theorem stopHlsConverter_does_not_await_exit (s : store) (p : nat) :
  s.(ffmpegProcess) = Some p ->
  status_of p s.(procs) = Some Alive ->
  let s' := store_after stopHlsConverter s in
  s'.(ffmpegProcess) = None /\
  status_of p s'.(procs) = Some Signalled /\
  (s.(hlsTransports_video) = None -> s.(hlsTransports_audio) = None ->
   s.(hlsConsumers_video) = None -> s.(hlsConsumers_audio) = None ->
   exec stopHlsConverter s = (s', [], Done)).
Proof.
  intros Hh Ha.
  assert (K : status_of p (set_status p Signalled (procs s)) = Some Signalled).
  { rewrite status_of_set_status, Nat.eqb_refl, Ha. reflexivity. }
  unfold store_after, stopHlsConverter, say, write, tick, kill.
  cbn. rewrite Hh. cbn. rewrite Ha.
  destruct (hlsTransports_video s) eqn:Tv; cbn; rewrite ?Ha.
  { repeat split; auto. discriminate. }
  destruct (hlsTransports_audio s) eqn:Ta; cbn; rewrite ?Ha.
  { repeat split; auto. discriminate. }
  destruct (hlsConsumers_video s) eqn:Cv; cbn; rewrite ?Ha.
  { repeat split; auto. discriminate. }
  destruct (hlsConsumers_audio s) eqn:Ca; cbn; rewrite ?Ha.
  { repeat split; auto. discriminate. }
  repeat split; auto.
Qed.

Lemma stopHlsConverter_does_not_await_exit_witness :
  exec stopHlsConverter
    (set_procs [(0, Alive)] (set_ffmpegProcess (Some 0) init_store))
  = (store_after stopHlsConverter
       (set_procs [(0, Alive)] (set_ffmpegProcess (Some 0) init_store)),
     [], Done).
Proof.
  apply (stopHlsConverter_does_not_await_exit
           (set_procs [(0, Alive)] (set_ffmpegProcess (Some 0) init_store)) 0);
    reflexivity.
Defined.

(** X16.  Called with nothing to stop (no subprocess handle, no transport, no
    consumer), [stopHlsConverter] only logs: no signal is sent, nothing is
    closed, and it is done within the turn. *)
Theorem stopHlsConverter_on_nothing (s : store) :
  s.(ffmpegProcess) = None ->
  s.(hlsTransports_video) = None -> s.(hlsTransports_audio) = None ->
  s.(hlsConsumers_video) = None -> s.(hlsConsumers_audio) = None ->
  exec stopHlsConverter s = (emit CStopHlsDone (emit CStopHls s), [], Done).
Proof.
  intros H1 H2 H3 H4 H5. unfold stopHlsConverter, say, write, tick.
  cbn. rewrite H1. cbn. rewrite H2. cbn. rewrite H3. cbn. rewrite H4. cbn.
  rewrite H5. reflexivity.
Qed.

Lemma stopHlsConverter_on_nothing_witness :
  exec stopHlsConverter init_store
  = (emit CStopHlsDone (emit CStopHls init_store), [], Done).
Proof.
  apply stopHlsConverter_on_nothing; reflexivity.
Defined.

(** X17.  The [close] handler of a subprocess (the [error] handler makes the
    same assignment) empties [ffmpegProcess] whichever subprocess the handle
    holds.  When the event is that of an earlier subprocess, the current one
    is forgotten while it runs, and a later [stopHlsConverter] does not
    signal it. *)
Theorem stale_close_orphans_subprocess (s : store) (p q : nat) :
  s.(ffmpegProcess) = Some q ->
  status_of q s.(procs) = Some Alive ->
  p <> q ->
  let s1 := store_after (on_proc_exit p) s in
  let s2 := store_after stopHlsConverter s1 in
  s1.(ffmpegProcess) = None /\
  status_of q s1.(procs) = Some Alive /\
  status_of q s2.(procs) = Some Alive.
Proof.
  intros Hh Ha Hn.
  assert (K : status_of q (set_status p Exited (procs s)) = Some Alive).
  { rewrite status_of_set_status.
    destruct (Nat.eqb_spec q p) as [E|_]; [congruence | exact Ha]. }
  unfold store_after, on_proc_exit, stopHlsConverter, say, write, tick.
  cbn.
  destruct (hlsTransports_video s); cbn; [auto|].
  destruct (hlsTransports_audio s); cbn; [auto|].
  destruct (hlsConsumers_video s); cbn; [auto|].
  destruct (hlsConsumers_audio s); cbn; auto.
Qed.

Lemma stale_close_orphans_subprocess_witness :
  exists w,
    run 50 scenario_replace init_world = Some w /\
    status_of 7 w.(st).(procs) = Some Signalled /\
    (store_after (on_proc_exit 7) w.(st)).(ffmpegProcess) = None /\
    status_of 14 (store_after (on_proc_exit 7) w.(st)).(procs) = Some Alive /\
    status_of 14
      (store_after stopHlsConverter
         (store_after (on_proc_exit 7) w.(st))).(procs) = Some Alive.
Proof.
  eexists. split; [vm_compute; reflexivity|]. split; [reflexivity|].
  apply stale_close_orphans_subprocess;
    [reflexivity | reflexivity | discriminate].
Defined.

(** X13.  The [transportclose] observer of a producer, run between two turns
    of the event loop with no start in flight, empties the slot of its kind
    exactly when the slot holds its producer; it calls [stopConverter]
    exactly when both slots are empty after that, and the call returns at
    once without touching anything: the subprocess is not stopped when the
    last producer goes.  (Runs in which no subprocess exit is delivered.) *)
Theorem transportclose_leaves_subprocess_running (w : world) (kind : Kind)
    (id : nat) :
  reachable w -> w.(st).(converterStartPromise) = None ->
  let s1 := if opt_is (get_slot kind w.(st)) id
            then set_slot kind None w.(st) else w.(st) in
  exec (onTransportClose kind id) w.(st)
  = (s1,
     (if negb (is_some s1.(videoProducer)) && negb (is_some s1.(audioProducer))
      then [mkThread Done None] else []),
     Done).
Proof.
  intros R Hp. destruct (reachable_inv w R) as [[Hr _] _].
  unfold onTransportClose, stopConverter, write, get_slot, set_slot.
  destruct kind; cbn.
  - destruct (opt_is (videoProducer (st w)) id) eqn:E; cbn.
    + destruct (audioProducer (st w)) eqn:A; cbn; [reflexivity|].
      rewrite Hr, Hp. reflexivity.
    + destruct (videoProducer (st w)) eqn:V; [reflexivity|].
      destruct (audioProducer (st w)) eqn:A; cbn; [reflexivity|].
      rewrite Hr, Hp. reflexivity.
  - destruct (opt_is (audioProducer (st w)) id) eqn:E; cbn.
    + destruct (videoProducer (st w)) eqn:V; cbn; [reflexivity|].
      rewrite Hr, Hp. reflexivity.
    + destruct (videoProducer (st w)) eqn:V; [reflexivity|].
      destruct (audioProducer (st w)) eqn:A; cbn; [reflexivity|].
      rewrite Hr, Hp. reflexivity.
Qed.

Lemma transportclose_leaves_subprocess_running_witness :
  exists w,
    run 50 (scenario_running ++ [EvTransportClose 100]) init_world = Some w /\
    status_of 7 w.(st).(procs) = Some Alive /\
    w.(st).(ffmpegProcess) = Some 7 /\
    exec (onTransportClose audio 101) w.(st)
    = (set_audioProducer None w.(st), [mkThread Done None], Done).
Proof.
  eexists. split; [vm_compute; reflexivity|]. split; [reflexivity|].
  split; [reflexivity|].
  match goal with
  | |- exec _ (st ?w) = _ =>
      assert (HR : reachable w)
        by (apply (run_reachable 50 (scenario_running ++ [EvTransportClose 100])
                     init_world _ reach_init); vm_compute; reflexivity);
      exact (transportclose_leaves_subprocess_running w audio 101 HR eq_refl)
  end.
Defined.

(** C6 (debounce).  Two [setProducer] calls that replace producers while a
    start is in flight each clear the timer, wait for the start inside
    [stopConverter], and arm a timer when they go on.  The second overwrites
    [restartTimeout] without clearing the timer of the first, so two timers
    are armed and both fire: the two calls lead to two invocations of
    [tryStartConverter], the second of which finds the start of the first in
    progress. *)
Theorem replaced_during_start_two_timers :
  exists w w',
    run 50 scenario_replace_during_start init_world = Some w /\
    w.(st).(timers) = [8; 9] /\
    w.(st).(restartTimeout) = Some 9 /\
    count_call is_tryStart w.(st).(trace) = 1 /\
    run 50 [EvTimer 8; EvTimer 9] w = Some w' /\
    w'.(st).(timers) = [] /\
    count_call is_tryStart w'.(st).(trace) = 3 /\
    hd_error w'.(st).(trace) = Some CStartInProgress.
Proof.
  eexists. eexists. split; [vm_compute; reflexivity|].
  split; [reflexivity|]. split; [reflexivity|]. split; [reflexivity|].
  split; [vm_compute; reflexivity|].
  split; [reflexivity|]. split; reflexivity.
Qed.


(** ** The claims about the subprocess and the running flag *)










